(** * mention-bot: the diff parser, the file selection and the reviewer filters

    A shallow embedding of [src/mention-bot.js] and the properties of its
    specification.

    Conventions of the embedding.
    - A JavaScript string is a [string]: a sequence of code units, here the
      8-bit ones.  In that range the line terminators are LF and CR and the
      white space of [trim] is TAB, LF, VT, FF, CR, SP and NBSP.
    - A JavaScript number is a double.  The numbers of the parser are not
      negative and have no fraction: such a double is kept as the [Z] it is
      equal to, and the value [Infinity] as 2^1024, the first power of two
      above every finite double ([toDouble], [increment]).  A length or an
      index of an array is below 2^32 and is a [Z] or a [nat].
    - [undefined] as the result of [Array.prototype.pop] is [None].
    - A thrown exception (a rejected promise in an [async] function) is the
      [Throw] case of [result]. *)

From Stdlib Require Import String Ascii List ZArith Lia Bool Arith.
From Stdlib Require Import Sorting.Sorted Sorting.Permutation.
From Stdlib Require Import Numbers.DecimalString Numbers.DecimalZ.
Import ListNotations.

Local Open Scope string_scope.
Local Open Scope list_scope.
Local Open Scope Z_scope.

Set Implicit Arguments.

(** ** Exceptions *)

(** [Error msg] is [throw new Error(msg)]; [TypeError] is what the engine
    throws when a property of [undefined] is read. *)
Inductive exn : Type :=
| Error (msg : string)
| TypeError.

Inductive result (A : Type) : Type :=
| Ok (a : A)
| Throw (e : exn).

Arguments Ok {A} a.
Arguments Throw {A} e.

Definition bind {A B : Type} (m : result A) (f : A -> result B) : result B :=
  match m with
  | Ok a => f a
  | Throw e => Throw e
  end.

Notation "x <- m ;; f" := (bind m (fun x => f))
  (at level 61, m at next level, right associativity).

(** ** Strings *)

Module Str.

Definition LF : ascii := "010"%char.
Definition CR : ascii := "013"%char.
Definition nl : string := String LF "".

(** [str.substr(0, start.length) === start] *)
Definition startsWith (str start : string) : bool :=
  String.eqb (substring 0 (String.length start) str) start.

(** White space and line terminators removed by [String.prototype.trim]. *)
Definition isWhiteSpace (c : ascii) : bool :=
  let n := nat_of_ascii c in
  ((9 <=? n) && (n <=? 13) || (n =? 32) || (n =? 160))%nat.

Fixpoint trimStart (s : string) : string :=
  match s with
  | String c s' => if isWhiteSpace c then trimStart s' else s
  | EmptyString => EmptyString
  end.

Fixpoint trimEnd (s : string) : string :=
  match s with
  | EmptyString => EmptyString
  | String c s' =>
      match trimEnd s' with
      | EmptyString => if isWhiteSpace c then EmptyString else String c EmptyString
      | t => String c t
      end
  end.

Definition trim (s : string) : string := trimEnd (trimStart s).

(** [s.split(sep)] for a separator of one character. *)
Fixpoint split (sep : ascii) (s : string) : list string :=
  match s with
  | EmptyString => [EmptyString]
  | String c s' =>
      if Ascii.eqb c sep then EmptyString :: split sep s'
      else match split sep s' with
           | w :: ws => String c w :: ws
           | [] => [String c EmptyString]
           end
  end.

(** [parts.join(sep)] *)
Definition join (sep : string) (parts : list string) : string :=
  String.concat sep parts.

(** [s.indexOf(sub)], [-1] when [sub] does not occur. *)
Definition indexOf (s sub : string) : Z :=
  match String.index 0 sub s with
  | Some i => Z.of_nat i
  | None => -1
  end.

(** The first line of a text: what precedes its first LF. *)
Fixpoint firstLine (s : string) : string :=
  match s with
  | EmptyString => EmptyString
  | String c s' => if Ascii.eqb c LF then EmptyString else String c (firstLine s')
  end.

End Str.

Import Str.

(** ** Regular expressions

    The fragment of the regular expressions of the source: characters,
    [p+] for a character class [p], [r?], capture groups (never nested) and
    concatenation.  Every expression of the source starts with [^] and has no
    [m] flag, so a match is looked for at index 0 only.  [p+] and [r?] are
    greedy, and the matcher backtracks as the engine does, through its
    continuation. *)

Module RegExp.

Inductive regex : Type :=
| Eps
| Chr (c : ascii)
| Plus (p : ascii -> bool)
| Opt (r : regex)
| Grp (r : regex)
| Seq (r1 r2 : regex).

Fixpoint lit (s : string) : regex :=
  match s with
  | EmptyString => Eps
  | String c s' => Seq (Chr c) (lit s')
  end.

(** [.] matches everything but a line terminator. *)
Definition dot (c : ascii) : bool :=
  negb (Ascii.eqb c LF || Ascii.eqb c CR).

(** [[0-9]] *)
Definition digit (c : ascii) : bool :=
  let n := nat_of_ascii c in ((48 <=? n) && (n <=? 57))%nat.

(** The groups of an expression, for the captures an unmatched [r?]
    leaves undefined. *)
Fixpoint groups (r : regex) : nat :=
  match r with
  | Eps | Chr _ | Plus _ => 0
  | Opt r => groups r
  | Grp r => S (groups r)
  | Seq r1 r2 => groups r1 + groups r2
  end.

Definition captures : Type := list (option string).

Section Matcher.
Variable A : Type.

(** [p*] then [k], the longest run first. *)
Fixpoint star (p : ascii -> bool) (s : string)
         (k : string -> option A) : option A :=
  match s with
  | String c s' =>
      if p c then
        match star p s' k with
        | Some a => Some a
        | None => k s
        end
      else k s
  | EmptyString => k s
  end.

Definition plus (p : ascii -> bool) (s : string)
           (k : string -> option A) : option A :=
  match s with
  | String c s' => if p c then star p s' k else None
  | EmptyString => None
  end.

(** The text between the position [s] and the later position [s']. *)
Definition consumed (s s' : string) : string :=
  substring 0 (String.length s - String.length s') s.

Fixpoint rmatch (r : regex) (s : string) (caps : captures)
         (k : string -> captures -> option A) : option A :=
  match r with
  | Eps => k s caps
  | Chr c =>
      match s with
      | String c' s' => if Ascii.eqb c c' then k s' caps else None
      | EmptyString => None
      end
  | Plus p => plus p s (fun s' => k s' caps)
  | Opt r =>
      match rmatch r s caps k with
      | Some a => Some a
      | None => k s (caps ++ repeat None (groups r))
      end
  | Grp r =>
      rmatch r s caps (fun s' caps' => k s' (caps' ++ [Some (consumed s s')]))
  | Seq r1 r2 =>
      rmatch r1 s caps (fun s' caps' => rmatch r2 s' caps' k)
  end.
End Matcher.

(** [s.match(r)] for an anchored [r]: the captures 1, 2, ... and the text
    that follows the match. *)
Definition exec (r : regex) (s : string) : option (captures * string) :=
  rmatch r s [] (fun s' caps => Some (caps, s')).

Definition test (r : regex) (s : string) : bool :=
  match exec r s with
  | Some _ => true
  | None => false
  end.

End RegExp.

Import RegExp.

Notation "r1 ## r2" := (Seq r1 r2) (at level 60, right associativity).

(** ** The diff parser *)

(** [type FileInfo = {path: string, deletedLines: Array<number>}] *)
Record FileInfo : Type := mkFileInfo {
  path : string;
  deletedLines : list Z;
}.

(** [Array.prototype.pop] and [Array.prototype.push] on an array given by
    the list of its elements, first to last. *)
Definition arrayPop (array : list string) : option string * list string :=
  match rev array with
  | [] => (None, [])
  | x :: before => (Some x, rev before)
  end.

Definition arrayPush (array : list string) (x : string) : list string :=
  array ++ [x].

(** The array [lines] of [parseDiff] is reversed once and then only used
    through [pop] and [push], which work at its end.  It is kept here as the
    stack it is used as: the head of the list is the last element of the
    array, that is the next line of the diff text ([pop_arrayPop] and
    [push_arrayPush]). *)
Definition pop (lines : list string) : option string * list string :=
  match lines with
  | [] => (None, [])
  | line :: lines' => (Some line, lines')
  end.

Definition push (lines : list string) (line : string) : list string :=
  line :: lines.

(** [/^diff --git a\//] *)
Definition re_diff_git_a : regex := lit "diff --git a/".

(** [/^diff --git a\/(.+) b\/.+/g] *)
Definition re_from_file : regex :=
  lit "diff --git a/" ## Grp (Plus dot) ## lit " b/" ## Plus dot.

(** [/^\+\+\+ /] *)
Definition re_plus_plus_plus : regex := lit "+++ ".

(** [/^\@\@ -([0-9]+),?([0-9]+)? \+([0-9]+),?([0-9]+)? \@\@/] *)
Definition re_hunk : regex :=
  lit "@@ -" ## Grp (Plus digit) ## Opt (Chr ",") ## Opt (Grp (Plus digit)) ##
  lit " +" ## Grp (Plus digit) ## Opt (Chr ",") ## Opt (Grp (Plus digit)) ##
  lit " @@".

(** [/^diff/] *)
Definition re_diff : regex := lit "diff".

(** [line.replace(/^diff --git a\/(.+) b\/.+/g, '$1')]: the expression is
    anchored, so it matches once at most, at index 0; the match is replaced
    by its first group and the text after the match is kept. *)
Definition fromFileOf (line : string) : string :=
  match exec re_from_file line with
  | Some (Some g1 :: _, rest) => g1 ++ rest
  | _ => line
  end.

(** [Infinity], in the [Z] that stands for a double. *)
Definition Infinity : Z := 2 ^ 1024.

(** The double that is nearest to an integer which is not negative, ties
    going to the even significand.  Up to 2^53 every integer is a double;
    above, [e] is the exponent of the last of the 53 bits that are kept, [q]
    these 53 bits and [r] what is cut off.  A result above the finite
    doubles, which end at 2^1024 - 2^971, is [Infinity]. *)
Definition toDouble (n : Z) : Z :=
  if n <? 2 ^ 53 then n
  else
    let e := Z.log2 n - 52 in
    let q := n / 2 ^ e in
    let r := n mod 2 ^ e in
    let half := 2 ^ (e - 1) in
    let q' := if (half <? r) || ((r =? half) && Z.odd q) then q + 1 else q in
    Z.min (q' * 2 ^ e) Infinity.

(** The value of [x] after [x++]: the sum [x + 1] of doubles. *)
Definition increment (x : Z) : Z := toDouble (x + 1).

(** The mathematical value of a string of decimal digits. *)
Definition digitValue (c : ascii) : Z := Z.of_nat (nat_of_ascii c) - 48.

Fixpoint toNumberFrom (acc : Z) (s : string) : Z :=
  match s with
  | EmptyString => acc
  | String c s' => toNumberFrom (10 * acc + digitValue c) s'
  end.

Definition mathematicalValue (s : string) : Z := toNumberFrom 0 s.

(** [+from_line] for a string of decimal digits: the double nearest to its
    mathematical value.  (On any other string the source gives [NaN];
    [from_line] is the first group of [re_hunk], which is a run of digits,
    see [hunkHeader_digits].) *)
Definition toNumber (s : string) : Z := toDouble (mathematicalValue s).

(** [matches = line.match(re_hunk)] followed by [from_line = matches[1]]:
    [None] when [matches] is [null], and only then ([hunkHeader_none]). *)
Definition hunkHeader (line : string) : option string :=
  match exec re_hunk line with
  | Some (Some from_line :: _, _) => Some from_line
  | _ => None
  end.

(** The [while (lines.length > 0)] loop of [parseDiffFile]; it returns
    [deletedLines] and what is left of [lines]. *)
Fixpoint hunkLoop (lines : list string) (currentFromLine : Z)
         (deletedLines : list Z) : list Z * list string :=
  match lines with
  | [] => (deletedLines, [])
  | line :: lines' =>
      if startsWith line "diff --git" then
        (deletedLines, push lines' line)
      else if startsWith line "@@" then
        match hunkHeader line with
        | None => hunkLoop lines' currentFromLine deletedLines
        | Some from_line => hunkLoop lines' (toNumber from_line) deletedLines
        end
      else
        let deletedLines' :=
          if startsWith line "-" then deletedLines ++ [currentFromLine]
          else deletedLines in
        let currentFromLine' :=
          if negb (startsWith line "+") then increment currentFromLine
          else currentFromLine in
        hunkLoop lines' currentFromLine' deletedLines'
  end.

Definition invalidDiffGit (line : string) : string :=
  "Invalid line, should start with `diff --git a/`, instead got " ++ nl
    ++ line ++ nl.

Definition invalidPlusPlusPlus (line : string) : string :=
  "Invalid line, should start with `+++`, instead got " ++ nl ++ line ++ nl.

(** [parseDiffFile(lines)], from its line 92 on: the line after the index
    line decides whether the block has hunks. *)
Definition parseBody (fromFile : string) (lines : list string)
  : result (FileInfo * list string) :=
  let '(line, lines) := pop lines in
  match line with
  | None => Ok (mkFileInfo fromFile [], lines)
  | Some line =>
      if String.eqb line "" then Ok (mkFileInfo fromFile [], lines)
      else if startsWith line "diff --git" then
        Ok (mkFileInfo fromFile [], push lines line)
      else if startsWith line "Binary files" then
        Ok (mkFileInfo fromFile [], lines)
      else if startsWith line "--- " then
        let '(line, lines) := pop lines in
        match line with
        | None => Throw TypeError
        | Some line =>
            if negb (test re_plus_plus_plus line) then
              Throw (Error (invalidPlusPlusPlus line))
            else
              let '(deleted, lines) := hunkLoop lines 0 [] in
              Ok (mkFileInfo fromFile deleted, lines)
        end
      else Ok (mkFileInfo fromFile [], lines)
  end.

(** [parseDiffFile(lines)]: the record of the block and what is left of
    [lines].  Reading a property of the [undefined] that [pop] returns on an
    empty array throws. *)
Definition parseDiffFile (lines : list string)
  : result (FileInfo * list string) :=
  let '(line, lines) := pop lines in
  match line with
  | None => Throw TypeError
  | Some line =>
      if negb (test re_diff_git_a line) then Throw (Error (invalidDiffGit line))
      else
        let fromFile := fromFileOf line in
        let '(line, lines) := pop lines in
        match line with
        | None => Throw TypeError
        | Some line =>
            let '(line, lines) :=
              if startsWith line "deleted file" || startsWith line "new file"
              then pop lines else (Some line, lines) in
            parseBody fromFile lines
        end
  end.

(** The [while (lines.length > 0)] loop of [parseDiff].  Every call of
    [parseDiffFile] that returns has shortened [lines], so the length of
    [lines] is fuel enough ([parseFiles_fuel]); [None] is fuel run out. *)
Fixpoint parseFiles (fuel : nat) (lines : list string) (files : list FileInfo)
  : option (result (list FileInfo)) :=
  match lines with
  | [] => Some (Ok files)
  | _ :: _ =>
      match fuel with
      | O => None
      | S fuel' =>
          match parseDiffFile lines with
          | Throw e => Some (Throw e)
          | Ok (file, lines') => parseFiles fuel' lines' (files ++ [file])
          end
      end
  end.

(** [diff.trim().split('\n')], then [lines.reverse()]: in the stack view of
    the array the first line of the text is on top. *)
Definition linesOf (diff : string) : list string := split LF (trim diff).

(** [parseDiff(diff)] *)
Definition parseDiff (diff : string) : result (list FileInfo) :=
  if String.eqb diff "" || negb (test re_diff diff) then Ok []
  else
    let lines := linesOf diff in
    match parseFiles (List.length lines) lines [] with
    | Some r => r
    | None => Ok [] (* never taken: [parseFiles_fuel] *)
    end.

(** The worked example of the specification. *)
Definition exampleDiff : string :=
  join nl [ "diff --git a/foo.js b/foo.js";
            "index 83db48f..bf269c4 100644";
            "--- a/foo.js";
            "+++ b/foo.js";
            "@@ -1,3 +1,3 @@";
            " line1";
            "-line2";
            "+line2 modified";
            " line3" ].

Definition binaryDiff : string :=
  join nl [ "diff --git a/x.png b/x.png";
            "index 83db48f..bf269c4 100644";
            "Binary files a/x.png and b/x.png differ" ].

(** ** The selection of the files (lines 340 to 351 of [checkRepoPath]) *)

(** The comparison function handed to [files.sort]. *)
Definition compareFn (a b : FileInfo) : Z :=
  let countA := Z.of_nat (List.length a.(deletedLines)) in
  let countB := Z.of_nat (List.length b.(deletedLines)) in
  if countA >? countB then -1 else if countA <? countB then 1 else 0.

(** [Array.prototype.sort] with [compareFn], a consistent comparison
    function: the engine returns the elements of the array, ordered by the
    comparison; the order of the elements that compare equal is the
    engine's. *)
Record ArraySort : Type := mkArraySort {
  sortWith : list FileInfo -> list FileInfo;
  sortWith_perm : forall files, Permutation (sortWith files) files;
  sortWith_sorted :
    forall files,
      StronglySorted (fun a b => compareFn a b <= 0) (sortWith files);
}.

(** [repoConfig], as far as [checkRepoPath] reads it. *)
Record RepoConfig : Type := mkRepoConfig {
  fileBlacklist : list string;
  numFilesToCheck : Z;
}.

(** [array.slice(0, end)] for an integer [end]: a negative [end] counts
    from the end of the array. *)
Definition slice0 (A : Type) (array : list A) (end_ : Z) : list A :=
  let len := Z.of_nat (List.length array) in
  let final := if end_ <? 0 then Z.max (len + end_) 0 else Z.min end_ len in
  firstn (Z.to_nat final) array.

Section FileSelector.

Variable engine : ArraySort.

(** [minimatch(path, glob)], of the library of that name. *)
Variable minimatch : string -> string -> bool.

(** [files.filter(function(file) { return !minimatch(file.path, glob); })] *)
Definition removeMatching (files : list FileInfo) (glob : string)
  : list FileInfo :=
  filter (fun file => negb (minimatch file.(path) glob)) files.

(** [files.sort(...)], [repoConfig.fileBlacklist.forEach(...)] and
    [files.slice(0, repoConfig.numFilesToCheck)]. *)
Definition selectFiles (repoConfig : RepoConfig) (files : list FileInfo)
  : list FileInfo :=
  let files := sortWith engine files in
  let files := fold_left removeMatching repoConfig.(fileBlacklist) files in
  slice0 files repoConfig.(numFilesToCheck).

(** The path of the file matches a glob of the blacklist. *)
Definition blacklisted (globs : list string) (file : FileInfo) : bool :=
  existsb (fun glob => minimatch file.(path) glob) globs.

(** The three steps as the specification words them. *)
Definition select_spec (repoConfig : RepoConfig) (files : list FileInfo)
  : list FileInfo :=
  let sorted := sortWith engine files in
  let kept :=
    filter (fun file => negb (blacklisted repoConfig.(fileBlacklist) file))
           sorted in
  slice0 kept repoConfig.(numFilesToCheck).

(** ** The owner lookup *)

(** An entry of [config.pathInfo]; the lookup reads its [path] only. *)
Variable Entry : Type.
Variable entry_path : Entry -> string.
Variable pathInfo : list Entry.

(** What [getPathInfo] returns: the array [[]] it starts from,
    [pathInfo[0]] of an empty table, or an entry of the table. *)
Inductive PathInfo : Type :=
| EmptyArray
| Undefined
| EntryOf (entry : Entry).

(** [files.filter(function (file) { fullPath = file.path; })] *)
Definition lastSeenPath (files : list FileInfo) : option string :=
  fold_left (fun _ file => Some file.(path)) files None.

(** [pathInfo.forEach(...)] for one value of [splitPath]. *)
Definition forEachEntry (splitPath : list string)
           (state : PathInfo * bool) : PathInfo * bool :=
  fold_left
    (fun state entry =>
       if String.eqb (entry_path entry) (join "/" splitPath ++ "/")
       then (EntryOf entry, true) else state)
    pathInfo state.

(** [while (!foundMatch && splitPath.length > 0)]; every turn pops
    [splitPath], so fuel above its length is never used up. *)
Fixpoint searchLoop (fuel : nat) (splitPath : list string)
         (filteredPathInfo : PathInfo) (foundMatch : bool) : PathInfo :=
  match fuel with
  | O => filteredPathInfo
  | S fuel' =>
      if negb foundMatch && (0 <? List.length splitPath)%nat then
        let splitPath' := removelast splitPath in
        let '(filteredPathInfo', foundMatch') :=
          forEachEntry splitPath' (filteredPathInfo, foundMatch) in
        searchLoop fuel' splitPath' filteredPathInfo' foundMatch'
      else filteredPathInfo
  end.

(** [getPathInfo(files, ...)]; of its parameters it reads [files] only.
    On an empty [files] nothing has set [fullPath], and [fullPath.indexOf]
    throws. *)
Definition getPathInfo (files : list FileInfo) : result PathInfo :=
  match lastSeenPath files with
  | None => Throw TypeError
  | Some fullPath =>
      if indexOf fullPath "/" =? -1 then
        Ok (match pathInfo with
            | [] => Undefined
            | entry :: _ => EntryOf entry
            end)
      else
        let splitPath := split "/" fullPath in
        Ok (searchLoop (S (List.length splitPath)) splitPath EmptyArray false)
  end.

(** [checkRepoPath] from the diff text on, that is after
    [await cacheGet(...)]. *)
Definition checkRepoPath (diff : string) (repoConfig : RepoConfig)
  : result PathInfo :=
  files <- parseDiff diff ;;
  getPathInfo (selectFiles repoConfig files).

End FileSelector.

Arguments EmptyArray {Entry}.
Arguments Undefined {Entry}.

(** ** The reviewer filters *)

(** [type WhitelistUser], [type TeamData], [type TeamMembership] *)
Record WhitelistUser : Type := mkWhitelistUser {
  user_name : string;
  user_files : list string;
  skipTeamPrs : bool;
}.

Record TeamData : Type := mkTeamData {
  team_name : string;
  team_id : Z;
}.

Record TeamMembership : Type := mkTeamMembership {
  member_name : string;
  state : string;
}.

(** The source file calls [getTeams], [getTeamMembership] and
    [getMembersOfOrg] and does not define them: they are the requests of the
    gateway.  An asynchronous function is the tree of its [await] points;
    [AwaitAllTeamMembership] is [await Promise.all] over the calls
    [getTeamMembership(creator, teamInfo, github)], one for each team, made
    in the order of the array before any of them is answered. *)
Inductive Async (A : Type) : Type :=
| Resolve (a : A)
| AwaitTeams (org : string) (page : Z) (k : list TeamData -> Async A)
| AwaitAllTeamMembership (creator : string) (teams : list TeamData)
                         (k : list TeamMembership -> Async A)
| AwaitMembersOfOrg (org : string) (page : Z) (k : list string -> Async A).

Arguments Resolve {A} a.
Arguments AwaitTeams {A} org page k.
Arguments AwaitAllTeamMembership {A} creator teams k.
Arguments AwaitMembersOfOrg {A} org page k.

Inductive Call : Type :=
| CallGetTeams (org : string) (page : Z)
| CallGetTeamMembership (creator : string) (teamInfo : TeamData)
| CallGetMembersOfOrg (org : string) (page : Z).

(** A gateway answers the requests.  The requests of one [Promise.all] are
    under way together, and [settleOrder creator teams] lists their indices
    in [teams] in the order in which they are answered. *)
Record Gateway : Type := mkGateway {
  getTeams : string -> Z -> result (list TeamData);
  getTeamMembership : string -> TeamData -> result TeamMembership;
  getMembersOfOrg : string -> Z -> result (list string);
  settleOrder : string -> list TeamData -> list nat;
}.

(** The reason of the promise that is rejected first, for promises that
    settle in the order of their indices in [order]. *)
Fixpoint firstRejection (A : Type) (promises : list (result A))
         (order : list nat) : option exn :=
  match order with
  | [] => None
  | i :: order' =>
      match nth_error promises i with
      | Some (Throw e) => Some e
      | _ => firstRejection promises order'
      end
  end.

(** The values of the promises, in the order of the array, when all of
    them are fulfilled. *)
Fixpoint valuesOf (A : Type) (promises : list (result A)) : result (list A) :=
  match promises with
  | [] => Ok []
  | p :: ps => a <- p ;; rest <- valuesOf ps ;; Ok (a :: rest)
  end.

(** The value of [Promise.all(promises)]: it is rejected as soon as one of
    the promises is, with the reason of that promise, and fulfilled with
    the values of all of them otherwise.  [order] is an order of all the
    indices; promises that it leaves out are taken to settle after the
    others, in the order of the array. *)
Definition promiseAll (A : Type) (promises : list (result A))
           (order : list nat) : result (list A) :=
  match firstRejection promises order with
  | Some e => Throw e
  | None => valuesOf promises
  end.

(** Running an asynchronous function against a gateway: its outcome and the
    requests made, in order. *)
Fixpoint run (A : Type) (gw : Gateway) (p : Async A) : result A * list Call :=
  match p with
  | Resolve a => (Ok a, [])
  | AwaitTeams org page k =>
      match getTeams gw org page with
      | Ok teams =>
          let '(r, calls) := run gw (k teams) in
          (r, CallGetTeams org page :: calls)
      | Throw e => (Throw e, [CallGetTeams org page])
      end
  | AwaitAllTeamMembership creator teams k =>
      let made := map (CallGetTeamMembership creator) teams in
      match promiseAll (map (getTeamMembership gw creator) teams)
                       (settleOrder gw creator teams) with
      | Ok memberships =>
          let '(r, calls) := run gw (k memberships) in
          (r, made ++ calls)
      | Throw e => (Throw e, made)
      end
  | AwaitMembersOfOrg org page k =>
      match getMembersOfOrg gw org page with
      | Ok members =>
          let '(r, calls) := run gw (k members) in
          (r, CallGetMembersOfOrg org page :: calls)
      | Throw e => (Throw e, [CallGetMembersOfOrg org page])
      end
  end.

(** [!!x] for the result of [Array.prototype.find] on an array of objects. *)
Definition isSome (A : Type) (o : option A) : bool :=
  match o with
  | Some _ => true
  | None => false
  end.

(** [filterOwnTeam(users, owners, creator, org, github)] *)
Definition filterOwnTeam (users : list WhitelistUser) (owners : list string)
           (creator org : string) : Async (list string) :=
  if negb (existsb skipTeamPrs users) then Resolve owners
  else
    AwaitTeams org 0 (fun teamData =>
      let teamData :=
        filter (fun team =>
                  existsb (fun user =>
                             skipTeamPrs user
                             && String.eqb (user_name user) (team_name team))
                          users)
               teamData in
      AwaitAllTeamMembership creator teamData (fun teamMemberships =>
        let teamMemberships :=
          filter (fun membership => String.eqb (state membership) "active")
                 teamMemberships in
        Resolve
          (filter (fun owner =>
                     negb (isSome (find (fun membership =>
                                           String.eqb owner (member_name membership))
                                        teamMemberships)))
                  owners))).

(** [filterPrivateRepo(owners, org, github)] *)
Definition filterPrivateRepo (owners : list string) (org : string)
  : Async (list string) :=
  AwaitMembersOfOrg org 0 (fun currentMembers =>
    Resolve
      (filter (fun owner =>
                 existsb (fun member => String.eqb member owner) currentMembers)
              owners)).

(** ** The cache and the entry point (lines 19 to 48, 167 to 187, 231 to 255
       and 317 to 333) *)

(** The character class [[a-zA-Z0-9-_\.]]. *)
Definition keyChar (c : ascii) : bool :=
  let n := nat_of_ascii c in
  ((97 <=? n) && (n <=? 122) || (65 <=? n) && (n <=? 90)
   || (48 <=? n) && (n <=? 57) || (n =? 45) || (n =? 95) || (n =? 46))%nat.

(** [s.replace(/[^a-zA-Z0-9-_\.]/g, '-')]: every character out of the
    class is a match of its own. *)
Fixpoint cacheKeyOf (s : string) : string :=
  match s with
  | EmptyString => EmptyString
  | String c s' => String (if keyChar c then c else "-"%char) (cacheKeyOf s')
  end.

(** [Number.isSafeInteger(n)] for an integer: it is a double, and so are
    the integers next to it. *)
Definition isSafeInteger (n : Z) : bool := Z.abs n <? 2 ^ 53.

(** The decimal digits of an integer, after a minus sign when it is
    negative. *)
Definition decimalText (n : Z) : string :=
  NilEmpty.string_of_int (Z.to_int n).

(** [array.slice(start)] for an integer [start]. *)
Definition sliceFrom (A : Type) (array : list A) (start : Z) : list A :=
  let len := Z.of_nat (List.length array) in
  let from := if start <? 0 then Z.max (len + start) 0 else Z.min start len in
  skipn (Z.to_nat from) array.

(** [repoURL.split('/').slice(-2)] *)
Definition ownerAndRepoOf (repoURL : string) : list string :=
  sliceFrom (split "/" repoURL) (-2).

(** An asynchronous function of the cache and of the entry point, as the
    tree of what it asks of its host: the file system ([fs.existsSync],
    [fs.mkdir], [fs.writeFileSync], [fs.readFile]), the client of the
    platform ([github.pullRequests.get] with the header that asks for a
    diff) and [curl].  [fs.mkdir] is called without a callback: the tree
    takes the directory as made when the call returns, and a failure as the
    exception of the call. *)
Inductive IO (A : Type) : Type :=
| Fulfil (a : A)
| Reject (e : exn)
| ExistsSync (path : string) (k : bool -> IO A)
| Mkdir (path : string) (k : IO A)
| WriteFileSync (path data : string) (k : IO A)
| ReadFile (name encoding : string) (k : string -> IO A)
| PullRequestsGet (user repo : option string) (number : Z)
                  (k : string -> IO A)
| ExecFileCurl (args : list string) (k : string -> IO A).

Arguments Fulfil {A} a.
Arguments Reject {A} e.
Arguments ExistsSync {A} path k.
Arguments Mkdir {A} path k.
Arguments WriteFileSync {A} path data k.
Arguments ReadFile {A} name encoding k.
Arguments PullRequestsGet {A} user repo number k.
Arguments ExecFileCurl {A} args k.

(** [await p] followed by [k]. *)
Fixpoint bindIO (A B : Type) (p : IO A) (k : A -> IO B) : IO B :=
  match p with
  | Fulfil a => k a
  | Reject e => Reject e
  | ExistsSync path k' => ExistsSync path (fun b => bindIO (k' b) k)
  | Mkdir path k' => Mkdir path (bindIO k' k)
  | WriteFileSync path data k' => WriteFileSync path data (bindIO k' k)
  | ReadFile name encoding k' =>
      ReadFile name encoding (fun s => bindIO (k' s) k)
  | PullRequestsGet user repo number k' =>
      PullRequestsGet user repo number (fun s => bindIO (k' s) k)
  | ExecFileCurl args k' => ExecFileCurl args (fun s => bindIO (k' s) k)
  end.

Definition ofResult (A : Type) (r : result A) : IO A :=
  match r with
  | Ok a => Fulfil a
  | Throw e => Reject e
  end.

(** What was asked of the host. *)
Inductive Op : Type :=
| OpExistsSync (path : string)
| OpMkdir (path : string)
| OpWriteFileSync (path data : string)
| OpReadFile (name encoding : string)
| OpPullRequestsGet (user repo : option string) (number : Z)
| OpExecFileCurl (args : list string).

(** A host, over its states [W]: every request but [existsSync] may fail
    and may change the state. *)
Record Host (W : Type) : Type := mkHost {
  existsSync : string -> W -> bool;
  mkdir : string -> W -> result unit * W;
  writeFileSync : string -> string -> W -> result unit * W;
  readFile : string -> string -> W -> result string * W;
  pullRequestsGet : option string -> option string -> Z -> W
                    -> result string * W;
  execFileCurl : list string -> W -> result string * W;
}.

(** Running a tree on a host: the outcome, the requests made, in order,
    and the state the host is left in. *)
Fixpoint runIO (W A : Type) (host : Host W) (p : IO A) (w : W)
  : result A * list Op * W :=
  match p with
  | Fulfil a => (Ok a, [], w)
  | Reject e => (Throw e, [], w)
  | ExistsSync path k =>
      let '(r, ops, w') := runIO host (k (existsSync host path w)) w in
      (r, OpExistsSync path :: ops, w')
  | Mkdir path k =>
      match mkdir host path w with
      | (Ok _, w1) =>
          let '(r, ops, w') := runIO host k w1 in (r, OpMkdir path :: ops, w')
      | (Throw e, w1) => (Throw e, [OpMkdir path], w1)
      end
  | WriteFileSync path data k =>
      match writeFileSync host path data w with
      | (Ok _, w1) =>
          let '(r, ops, w') := runIO host k w1 in
          (r, OpWriteFileSync path data :: ops, w')
      | (Throw e, w1) => (Throw e, [OpWriteFileSync path data], w1)
      end
  | ReadFile name encoding k =>
      match readFile host name encoding w with
      | (Ok data, w1) =>
          let '(r, ops, w') := runIO host (k data) w1 in
          (r, OpReadFile name encoding :: ops, w')
      | (Throw e, w1) => (Throw e, [OpReadFile name encoding], w1)
      end
  | PullRequestsGet user repo number k =>
      match pullRequestsGet host user repo number w with
      | (Ok data, w1) =>
          let '(r, ops, w') := runIO host (k data) w1 in
          (r, OpPullRequestsGet user repo number :: ops, w')
      | (Throw e, w1) => (Throw e, [OpPullRequestsGet user repo number], w1)
      end
  | ExecFileCurl args k =>
      match execFileCurl host args w with
      | (Ok data, w1) =>
          let '(r, ops, w') := runIO host (k data) w1 in
          (r, OpExecFileCurl args :: ops, w')
      | (Throw e, w1) => (Throw e, [OpExecFileCurl args], w1)
      end
  end.

(** [downloadFileAsync(url, cookies)]: [cookies] that are [null] or empty
    add no header. *)
Definition downloadFileAsync (url : string) (cookies : option string)
  : IO string :=
  let args := ["--silent"; "-L"; url] in
  let args :=
    match cookies with
    | Some c => if String.eqb c "" then args
                else args ++ ["-H"; ("Cookie: " ++ c)%string]
    | None => args
    end in
  ExecFileCurl args Fulfil.

(** [readFileAsync(name, encoding)] *)
Definition readFileAsync (name encoding : string) : IO string :=
  ReadFile name encoding Fulfil.

(** [getDiffForPullRequest(owner, repo, id, github)]; [owner] and [repo]
    are [undefined] when the array they are read from is too short. *)
Definition getDiffForPullRequest (owner repo : option string) (id : Z)
  : IO string :=
  PullRequestsGet owner repo id Fulfil.

Section Cache.

(** [module.exports.enableCachingForDebugging] at the time of the call,
    and [__dirname]. *)
Variable enableCachingForDebugging : bool.
Variable dirname : string.

(** The text that the engine writes for a number that is not a safe
    integer: the shortest digits that read back as the same double, with an
    exponent from 10^21 on. *)
Variable largeNumberToString : Z -> string.

(** The text of a number in a template literal: for a safe integer, its
    decimal digits.  The number [id] of a pull request is an integer. *)
Definition numberToString (n : Z) : string :=
  if isSafeInteger n then decimalText n else largeNumberToString n.

(** [`${repoURL}-pull-${id}.diff`.replace(/[^a-zA-Z0-9-_\.]/g, '-')] *)
Definition pullCacheKey (repoURL : string) (id : Z) : string :=
  cacheKeyOf (repoURL ++ "-pull-" ++ numberToString id ++ ".diff").

(** [cacheGet(cacheKey, getFn)]; [getFn] is called where its tree is put. *)
Definition cacheGet (cacheKey : string) (getFn : IO string) : IO string :=
  if negb enableCachingForDebugging then getFn
  else
    let cacheDir := (dirname ++ "/cache/")%string in
    ExistsSync cacheDir (fun dirExists =>
      let rest :=
        let cacheKey := (cacheDir ++ cacheKey)%string in
        ExistsSync cacheKey (fun fileExists =>
          if negb fileExists then
            bindIO getFn (fun contents =>
              WriteFileSync cacheKey contents (readFileAsync cacheKey "utf8"))
          else readFileAsync cacheKey "utf8") in
      if negb dirExists then Mkdir cacheDir rest else rest).

(** [fetch(url)]; [githubAuthCookies] is what the module of that name
    exports. *)
Definition fetch (githubAuthCookies : option string) (url : string)
  : IO string :=
  cacheGet (cacheKeyOf url) (downloadFileAsync url githubAuthCookies).

(** [checkRepoPath(repoURL, id, ..., repoConfig, github)], the whole of
    it. *)
Definition checkRepoPathIO
           (engine : ArraySort) (minimatch : string -> string -> bool)
           (Entry : Type) (entry_path : Entry -> string)
           (pathInfo : list Entry)
           (repoURL : string) (id : Z) (repoConfig : RepoConfig)
  : IO (PathInfo Entry) :=
  let ownerAndRepo := ownerAndRepoOf repoURL in
  let cacheKey := pullCacheKey repoURL id in
  bindIO
    (cacheGet cacheKey
              (getDiffForPullRequest (nth_error ownerAndRepo 0)
                                     (nth_error ownerAndRepo 1) id))
    (fun diff =>
       ofResult
         (checkRepoPath engine minimatch entry_path pathInfo diff repoConfig)).

End Cache.

(** * Notions of the specification *)

(** ** Texts and headers *)

(** A word without LF. *)
Fixpoint noLF (p : string) : bool :=
  match p with
  | EmptyString => true
  | String c p' => negb (Ascii.eqb c LF) && noLF p'
  end.

(** Every character of [s] is in the class [p]. *)
Fixpoint allChars (p : ascii -> bool) (s : string) : bool :=
  match s with
  | EmptyString => true
  | String c s' => p c && allChars p s'
  end.

(** The next character, if any, is not in the class [p]. *)
Definition stopsRun (p : ascii -> bool) (s : string) : bool :=
  match s with
  | EmptyString => true
  | String c _ => negb (p c)
  end.

(** A decimal numeral: one digit or more. *)
Definition decimal (s : string) : bool :=
  negb (String.eqb s "") && allChars digit s.

Definition decimalOpt (o : option string) : bool :=
  match o with
  | Some s => decimal s
  | None => true
  end.

(** [[,<count>]] *)
Definition countPart (count : option string) : string :=
  match count with
  | Some c => "," ++ c
  | None => ""
  end.

(** The header of a hunk as the specification writes it:
    [@@ -<startLine>[,<count>] +<startLine>[,<count>] @@ ...]. *)
Definition hunkHeaderLine (startLine : string) (count : option string)
           (toLine : string) (toCount : option string) (rest : string)
  : string :=
  "@@ -" ++ startLine ++ countPart count ++ " +" ++ toLine
         ++ countPart toCount ++ " @@" ++ rest.

(** The lines between the [diff --git] line and the body of a block: the
    index line, after a [new file] or [deleted file] line if there is one. *)
Definition isModeLine (line : string) : bool :=
  startsWith line "deleted file" || startsWith line "new file".

Inductive headerLines : list string -> Prop :=
| index_only (index : string) :
    isModeLine index = false -> headerLines [index]
| mode_and_index (mode index : string) :
    isModeLine mode = true -> headerLines [mode; index].

(** ** The loop over the blocks *)

(** The loop of [parseDiff] as a relation: the blocks are parsed one after
    the other, and the first one that throws ends the loop. *)
Inductive parseLoop : list string -> list FileInfo
                      -> result (list FileInfo) -> Prop :=
| parseLoop_done (files : list FileInfo) :
    parseLoop [] files (Ok files)
| parseLoop_throw (lines : list string) (files : list FileInfo) (e : exn) :
    lines <> [] -> parseDiffFile lines = Throw e ->
    parseLoop lines files (Throw e)
| parseLoop_next (lines rest : list string) (files : list FileInfo)
                 (file : FileInfo) (r : result (list FileInfo)) :
    lines <> [] -> parseDiffFile lines = Ok (file, rest) ->
    parseLoop rest (files ++ [file]) r ->
    parseLoop lines files r.

(** [blockStart lines block]: the parser, started on [lines], comes to
    read a block at [block]. *)
Inductive blockStart : list string -> list string -> Prop :=
| blockStart_here (lines : list string) : blockStart lines lines
| blockStart_later (lines rest block : list string) (file : FileInfo) :
    lines <> [] -> parseDiffFile lines = Ok (file, rest) ->
    blockStart rest block -> blockStart lines block.

(** ** Subsequences *)

(** [subseq l1 l2]: [l1] is [l2] with some elements removed; nothing is
    reordered and nothing is added. *)
Inductive subseq (A : Type) : list A -> list A -> Prop :=
| subseq_nil : subseq [] []
| subseq_skip (x : A) (l1 l2 : list A) : subseq l1 l2 -> subseq l1 (x :: l2)
| subseq_keep (x : A) (l1 l2 : list A) :
    subseq l1 l2 -> subseq (x :: l1) (x :: l2).

Create HintDb subseq.
#[local] Hint Constructors subseq : subseq.

(** ** An engine, a matcher and the data of the examples *)

(** An engine: the insertion sort (a stable one). *)
Fixpoint insertFile (file : FileInfo) (files : list FileInfo)
  : list FileInfo :=
  match files with
  | [] => [file]
  | other :: files' =>
      if compareFn file other <=? 0 then file :: files
      else other :: insertFile file files'
  end.

Definition insertionSort (files : list FileInfo) : list FileInfo :=
  fold_right insertFile [] files.

(** A matcher for the examples: a glob matches the path it is equal to. *)
Definition exactMatch (path glob : string) : bool := String.eqb path glob.

Definition exampleFiles : list FileInfo :=
  [ mkFileInfo "README.md" [1];
    mkFileInfo "src/a.js" [3; 4; 5];
    mkFileInfo "lib/b.js" [7; 8];
    mkFileInfo "src/c.js" [] ].

Definition examplePathInfo : list (string * string) :=
  [("", "everyone"); ("src/", "alice"); ("lib/", "bob")].

Definition exampleGateway : Gateway :=
  mkGateway
    (fun org page => Ok [mkTeamData "core" 1; mkTeamData "docs" 2])
    (fun creator teamInfo =>
       Ok (mkTeamMembership
             creator
             (if String.eqb (team_name teamInfo) "core" then "active"
              else "pending")))
    (fun org page => Ok ["a"; "b"])
    (fun creator teams => seq 0 (List.length teams)).

(** ** The lines of a hunk *)

Definition isMinusLine (line : string) : bool := startsWith line "-".

Definition isPlusLine (line : string) : bool := startsWith line "+".

(** The line ends the body of a block. *)
Definition isDiffGit (line : string) : bool := startsWith line "diff --git".

(** The line is read as a hunk header. *)
Definition isAtAt (line : string) : bool := startsWith line "@@".

Definition countLines (p : string -> bool) (lines : list string) : nat :=
  List.length (filter p lines).

(** ** The two paths of a header *)

(** [isSuffix t s]: the text [t] is an end of [s]. *)
Inductive isSuffix : string -> string -> Prop :=
| isSuffix_here (s : string) : isSuffix s s
| isSuffix_later (c : ascii) (t s : string) :
    isSuffix t s -> isSuffix t (String c s).

(** The text starts with [ b/] and goes on after it. *)
Definition separatorAt (s : string) : bool :=
  match s with
  | String " " (String "b" (String "/" (String _ _))) => true
  | _ => false
  end.

(** No [ b/] in the text, but possibly as its last three characters. *)
Fixpoint noSeparator (s : string) : bool :=
  match s with
  | EmptyString => true
  | String _ s' => negb (separatorAt s) && noSeparator s'
  end.

(** ** The directories of a path *)

(** The directory made of the first [k] parts of a path, as the table of
    owners names it: with a [/] at its end. *)
Definition dirKey (parts : list string) (k : nat) : string :=
  join "/" (firstn k parts) ++ "/".

(** The last entry of the table with the given path. *)
Definition lastEntryAt (Entry : Type) (entry_path : Entry -> string)
           (pathInfo : list Entry) (key : string) : option Entry :=
  find (fun entry => String.eqb (entry_path entry) key) (rev pathInfo).

(** ** The teams that opted out *)

(** An entry of the whitelist with [skipTeamPrs] bears the name of the
    team. *)
Definition optedOut (users : list WhitelistUser) (team : TeamData) : bool :=
  existsb (fun user =>
             skipTeamPrs user
             && String.eqb (user_name user) (team_name team))
          users.

(** ** Addresses *)

(** A text without [/]. *)
Definition noSlash (s : string) : bool :=
  allChars (fun c => negb (Ascii.eqb c "/")) s.

(** ** A host for the examples *)

Definition lookupFile (path : string) (files : list (string * string))
  : option string :=
  match find (fun entry => String.eqb (fst entry) path) files with
  | Some entry => Some (snd entry)
  | None => None
  end.

(** Files in memory: a path is there when a file is stored at it or under
    it; the platform and [curl] answer [answer]. *)
Definition memHost (answer : result string) : Host (list (string * string)) :=
  mkHost
    (fun path files =>
       existsb (fun entry => startsWith (fst entry) path) files)
    (fun path files => (Ok tt, files))
    (fun path data files => (Ok tt, (path, data) :: files))
    (fun name encoding files =>
       match lookupFile name files with
       | Some data => (Ok data, files)
       | None => (Throw (Error "ENOENT"), files)
       end)
    (fun user repo number files => (answer, files))
    (fun args files => (answer, files)).

(** * Properties *)

(** ** Strings and regular expressions *)

Lemma startsWith_nil (s : string) : startsWith s "" = true.
Proof. destruct s; reflexivity. Qed.

Lemma startsWith_empty (c : ascii) (p : string) :
  startsWith "" (String c p) = false.
Proof. reflexivity. Qed.

Lemma startsWith_cons (c d : ascii) (s p : string) :
  startsWith (String c s) (String d p) = Ascii.eqb c d && startsWith s p.
Proof.
  unfold startsWith. cbn [String.length substring String.eqb].
  destruct (Ascii.eqb c d); reflexivity.
Qed.

Lemma startsWith_app (p s : string) : startsWith (p ++ s)%string p = true.
Proof.
  induction p as [|c p IH]; [apply startsWith_nil|].
  cbn [append]. rewrite startsWith_cons, Ascii.eqb_refl. exact IH.
Qed.

Lemma startsWith_split (p s : string) :
  startsWith s p = true -> exists s', s = (p ++ s')%string.
Proof.
  revert s. induction p as [|c p IH]; intros s H.
  - exists s. reflexivity.
  - destruct s as [|d s]; [discriminate|].
    rewrite startsWith_cons in H. apply andb_true_iff in H as [Hc Hs].
    apply Ascii.eqb_eq in Hc. subst d.
    destruct (IH _ Hs) as [s' ->]. exists s'. reflexivity.
Qed.

(** A text and its first line start with the same words. *)
Lemma startsWith_firstLine (p s : string) :
  noLF p = true -> startsWith (firstLine s) p = startsWith s p.
Proof.
  revert s. induction p as [|d p IH]; intros s Hp.
  - rewrite !startsWith_nil. reflexivity.
  - cbn in Hp. apply andb_true_iff in Hp as [Hd Hp].
    apply negb_true_iff in Hd.
    destruct s as [|c s]; [reflexivity|].
    cbn [firstLine]. destruct (Ascii.eqb c LF) eqn:Hc.
    + apply Ascii.eqb_eq in Hc. subst c.
      rewrite startsWith_cons, Ascii.eqb_sym, Hd. reflexivity.
    + rewrite !startsWith_cons, IH by exact Hp. reflexivity.
Qed.

Section MatcherFacts.
Variable A : Type.

Lemma rmatch_lit_app (p s : string) (caps : captures)
      (k : string -> captures -> option A) :
  rmatch (lit p) (p ++ s)%string caps k = k s caps.
Proof.
  induction p as [|c p IH]; [reflexivity|].
  cbn. rewrite Ascii.eqb_refl. exact IH.
Qed.

Lemma rmatch_lit_fail (p s : string) (caps : captures)
      (k : string -> captures -> option A) :
  startsWith s p = false -> rmatch (lit p) s caps k = None.
Proof.
  revert s. induction p as [|c p IH]; intros s H.
  - rewrite startsWith_nil in H. discriminate.
  - destruct s as [|d s]; [reflexivity|].
    rewrite startsWith_cons in H. cbn.
    rewrite Ascii.eqb_sym. destruct (Ascii.eqb d c); [|reflexivity].
    apply IH. exact H.
Qed.

Lemma rmatch_lit (p s : string) (caps : captures)
      (k : string -> captures -> option A) (a : A) :
  rmatch (lit p) s caps k = Some a ->
  exists s', s = (p ++ s')%string /\ k s' caps = Some a.
Proof.
  intros H. destruct (startsWith s p) eqn:Hp.
  - destruct (startsWith_split _ _ Hp) as [s' ->].
    rewrite rmatch_lit_app in H. eauto.
  - rewrite rmatch_lit_fail in H by exact Hp. discriminate.
Qed.
End MatcherFacts.

Lemma test_lit (p s : string) : test (lit p) s = startsWith s p.
Proof.
  unfold test, exec. destruct (startsWith s p) eqn:Hp.
  - destruct (startsWith_split _ _ Hp) as [s' ->].
    rewrite rmatch_lit_app. reflexivity.
  - rewrite rmatch_lit_fail by exact Hp. reflexivity.
Qed.

(** ** The reversed array as a stack *)

Lemma pop_arrayPop (lines : list string) :
  arrayPop (rev lines) = (fst (pop lines), rev (snd (pop lines))).
Proof.
  unfold arrayPop. rewrite rev_involutive. destruct lines; reflexivity.
Qed.

Lemma push_arrayPush (lines : list string) (line : string) :
  arrayPush (rev lines) line = rev (push lines line).
Proof. reflexivity. Qed.

(** ** Input that is not a diff *)

Lemma parseDiff_unrecognized (diff : string) :
  startsWith (firstLine diff) "diff" = false -> parseDiff diff = Ok [].
Proof.
  intros H. rewrite startsWith_firstLine in H by reflexivity.
  unfold parseDiff, re_diff. rewrite test_lit, H.
  rewrite orb_true_r. reflexivity.
Qed.

(** C5. [parseDiff] of the empty string, and of any text whose first line
    does not start with [diff], returns the empty sequence; it throws
    nothing. *)
Theorem parseDiff_not_a_diff :
  parseDiff "" = Ok []
  /\ forall diff : string,
      startsWith (firstLine diff) "diff" = false -> parseDiff diff = Ok [].
Proof. split; [reflexivity | exact parseDiff_unrecognized]. Qed.

Lemma parseDiff_not_a_diff_witness :
  startsWith (firstLine "not a diff") "diff" = false
  /\ parseDiff "not a diff" = Ok [].
Proof.
  split; [reflexivity|].
  apply (proj2 parseDiff_not_a_diff "not a diff"). reflexivity.
Defined.

(** ** The hunk header *)

Lemma length_app (m s : string) :
  String.length (m ++ s) = (String.length m + String.length s)%nat.
Proof. induction m as [|c m IH]; cbn; [reflexivity | now rewrite IH]. Qed.

Lemma consumed_app (m s : string) : consumed (m ++ s)%string s = m.
Proof.
  unfold consumed. induction m as [|c m IH]; cbn [append String.length].
  - rewrite Nat.sub_diag. destruct s; reflexivity.
  - replace (S (String.length (m ++ s)) - String.length s)%nat
      with (S (String.length (m ++ s) - String.length s)).
    + cbn [substring]. rewrite IH. reflexivity.
    + rewrite length_app. lia.
Qed.

Section RunFacts.
Variable A : Type.
Variable p : ascii -> bool.

(** A run followed by a continuation that succeeds: the greedy match takes
    the whole run when what follows is not in the class. *)
Lemma star_run (m s : string) (k : string -> option A) (a : A) :
  allChars p m = true -> stopsRun p s = true -> k s = Some a ->
  star p (m ++ s)%string k = Some a.
Proof.
  intros Hm Hs Hk. induction m as [|c m IH]; cbn [append].
  - destruct s as [|c s]; cbn in *; [exact Hk|].
    apply negb_true_iff in Hs. rewrite Hs. exact Hk.
  - cbn in Hm. apply andb_true_iff in Hm as [Hc Hm].
    cbn [star]. rewrite Hc, (IH Hm). reflexivity.
Qed.

Lemma star_inv (s : string) (k : string -> option A) (a : A) :
  star p s k = Some a ->
  exists m s', s = (m ++ s')%string /\ allChars p m = true /\ k s' = Some a.
Proof.
  induction s as [|c s IH]; cbn [star]; intros H.
  - exists ""%string, ""%string. auto.
  - destruct (p c) eqn:Hc.
    + destruct (star p s k) as [a'|] eqn:Hs.
      * injection H as ->. destruct (IH eq_refl) as (m & s' & -> & Hm & Hk).
        exists (String c m), s'. cbn. rewrite Hc, Hm. auto.
      * exists ""%string, (String c s). auto.
    + exists ""%string, (String c s). auto.
Qed.

Lemma plus_inv (s : string) (k : string -> option A) (a : A) :
  plus p s k = Some a ->
  exists m s', s = (m ++ s')%string /\ m <> ""%string
               /\ allChars p m = true /\ k s' = Some a.
Proof.
  destruct s as [|c s]; cbn [plus]; [discriminate|].
  destruct (p c) eqn:Hc; [|discriminate]. intros H.
  destruct (star_inv _ _ H) as (m & s' & -> & Hm & Hk).
  exists (String c m), s'. cbn. rewrite Hc, Hm.
  repeat split; auto. discriminate.
Qed.
End RunFacts.

Lemma plus_run (A : Type) (p : ascii -> bool) (m s : string)
      (k : string -> option A) (a : A) :
  m <> ""%string -> allChars p m = true -> stopsRun p s = true ->
  k s = Some a -> plus p (m ++ s)%string k = Some a.
Proof.
  intros Hne Hm Hs Hk. destruct m as [|c m]; [congruence|].
  cbn in Hm. apply andb_true_iff in Hm as [Hc Hm].
  cbn [append plus]. rewrite Hc. now apply star_run.
Qed.

(** A match only adds captures, after the ones it starts from. *)
Lemma rmatch_captures (A : Type) (r : regex) :
  forall (s : string) (caps : captures) (k : string -> captures -> option A)
         (a : A),
    rmatch r s caps k = Some a ->
    exists s' caps', k s' (caps ++ caps') = Some a.
Proof.
  induction r as [|c|p|r IH|r IH|r1 IH1 r2 IH2]; intros s caps k a H; cbn in H.
  - exists s, []. now rewrite app_nil_r.
  - destruct s as [|c' s]; [discriminate|].
    destruct (Ascii.eqb c c'); [|discriminate].
    exists s, []. now rewrite app_nil_r.
  - destruct (plus_inv _ _ _ H) as (m & s' & _ & _ & _ & Hk).
    exists s', []. now rewrite app_nil_r.
  - destruct (rmatch r s caps k) as [a'|] eqn:Hr.
    + injection H as ->. eapply IH. exact Hr.
    + eauto.
  - destruct (IH _ _ _ _ H) as (s' & caps' & Hk).
    exists s', (caps' ++ [Some (consumed s s')]). now rewrite app_assoc.
  - destruct (IH1 _ _ _ _ H) as (s1 & caps1 & H1).
    destruct (IH2 _ _ _ _ H1) as (s2 & caps2 & H2).
    exists s2, (caps1 ++ caps2). now rewrite app_assoc.
Qed.

(** An expression that starts with a word and a group [(p+)]: the first
    capture of a match is defined, and it is a run of [p]. *)
Lemma exec_first_group (word : string) (p : ascii -> bool) (r : regex)
      (line : string) (caps : captures) (tail : string) :
  exec (lit word ## Grp (Plus p) ## r) line = Some (caps, tail) ->
  exists g caps', caps = Some g :: caps'
                  /\ g <> ""%string /\ allChars p g = true.
Proof.
  unfold exec. cbn [rmatch]. intros Hm.
  apply rmatch_lit in Hm as (s1 & -> & Hm).
  apply plus_inv in Hm as (m & s2 & -> & Hne & Hp & Hm).
  rewrite consumed_app in Hm. cbn [app] in Hm.
  apply rmatch_captures in Hm as (s3 & caps' & Hk).
  injection Hk as <- <-. exists m, caps'. auto.
Qed.

(** The first group of a hunk header is a run of digits, and it is defined
    whenever the header matches. *)
Lemma hunkHeader_digits (line from_line : string) :
  hunkHeader line = Some from_line ->
  from_line <> ""%string /\ allChars digit from_line = true.
Proof.
  unfold hunkHeader. intros H.
  destruct (exec re_hunk line) as [[caps tail]|] eqn:Hm; [|discriminate].
  apply exec_first_group in Hm as (g & caps' & -> & Hne & Hg).
  injection H as <-. auto.
Qed.

Lemma hunkHeader_none (line : string) :
  hunkHeader line = None <-> exec re_hunk line = None.
Proof.
  split; intros H.
  - destruct (exec re_hunk line) as [[caps tail]|] eqn:Hm; [|reflexivity].
    exfalso. unfold hunkHeader in H. rewrite Hm in H.
    apply exec_first_group in Hm as (g & caps' & -> & _). discriminate.
  - unfold hunkHeader. now rewrite H.
Qed.

Lemma digitValue_nonneg (c : ascii) : digit c = true -> 0 <= digitValue c.
Proof.
  unfold digit, digitValue. cbv zeta. intros H.
  apply andb_true_iff in H as [H _]. apply Nat.leb_le in H.
  revert H. generalize (nat_of_ascii c). intros n H. lia.
Qed.

Lemma toNumberFrom_nonneg (s : string) :
  forall acc, 0 <= acc -> allChars digit s = true -> 0 <= toNumberFrom acc s.
Proof.
  induction s as [|c s IH]; intros acc Hacc Hs;
    cbn [toNumberFrom allChars] in *; [exact Hacc|].
  apply andb_true_iff in Hs as [Hc Hs]. apply IH; [|exact Hs].
  pose proof (digitValue_nonneg _ Hc). lia.
Qed.

(** [mathematicalValue] reads a numeral in base ten. *)
Lemma mathematicalValue_last_digit (s : string) (c : ascii) :
  mathematicalValue (s ++ String c "")
  = 10 * mathematicalValue s + digitValue c.
Proof.
  unfold mathematicalValue. generalize 0.
  induction s as [|d s IH]; intros acc.
  - reflexivity.
  - cbn [append toNumberFrom]. apply IH.
Qed.

(** Up to 2^53 the integers are doubles. *)
Lemma toDouble_exact (n : Z) : n <= 2 ^ 53 -> toDouble n = n.
Proof.
  intros H. unfold toDouble.
  destruct (Z.ltb_spec n (2 ^ 53)) as [|Hge]; [reflexivity|].
  assert (n = 2 ^ 53) as -> by lia. vm_compute. reflexivity.
Qed.

Lemma Infinity_large : 2 ^ 53 <= Infinity.
Proof. intros H. vm_compute in H. discriminate. Qed.

(** Rounding does not go below 2^53. *)
Lemma toDouble_large (n : Z) : 2 ^ 53 <= n -> 2 ^ 53 <= toDouble n.
Proof.
  intros H. unfold toDouble.
  destruct (Z.ltb_spec n (2 ^ 53)) as [Hlt|_]; [lia|]. cbv zeta.
  apply Z.min_glb; [|exact Infinity_large].
  assert (Hlog : 53 <= Z.log2 n) by (apply Z.log2_le_pow2; lia).
  set (e := Z.log2 n - 52). assert (He : 1 <= e) by (unfold e; lia).
  assert (Hpos : 0 < 2 ^ e) by (apply Z.pow_pos_nonneg; lia).
  assert (Hq : 2 ^ 52 <= n / 2 ^ e).
  { apply Z.div_le_lower_bound; [exact Hpos|].
    rewrite <- Z.pow_add_r by lia.
    replace (e + 52) with (Z.log2 n) by (unfold e; lia).
    apply Z.log2_spec. lia. }
  set (q := n / 2 ^ e) in *.
  assert (Hq' : q <= (if (2 ^ (e - 1) <? n mod 2 ^ e)
                          || (n mod 2 ^ e =? 2 ^ (e - 1)) && Z.odd q
                      then q + 1 else q)) by (destruct (_ || _); lia).
  assert (H2 : 2 <= 2 ^ e).
  { change 2 with (2 ^ 1) at 1. apply Z.pow_le_mono_r; lia. }
  nia.
Qed.

(** A bound up to 2^53 is kept by rounding. *)
Lemma toDouble_lower (m n : Z) : m <= 2 ^ 53 -> m <= n -> m <= toDouble n.
Proof.
  intros Hm Hn. destruct (Z.le_gt_cases (2 ^ 53) n) as [Hge|Hlt].
  - pose proof (toDouble_large Hge). lia.
  - rewrite toDouble_exact by lia. exact Hn.
Qed.

Lemma increment_exact (x : Z) : x < 2 ^ 53 -> increment x = x + 1.
Proof. intros H. unfold increment. apply toDouble_exact. lia. Qed.

Lemma increment_lower (m x : Z) : m <= 2 ^ 53 -> m <= x -> m <= increment x.
Proof. intros Hm Hx. unfold increment. apply toDouble_lower; lia. Qed.

Lemma toNumber_exact (s : string) :
  mathematicalValue s <= 2 ^ 53 -> toNumber s = mathematicalValue s.
Proof. apply toDouble_exact. Qed.

Lemma hunkHeader_nonneg (line from_line : string) :
  hunkHeader line = Some from_line -> 0 <= toNumber from_line.
Proof.
  intros H. apply hunkHeader_digits in H as [_ H].
  unfold toNumber. apply toDouble_lower; [lia|].
  apply toNumberFrom_nonneg; [lia | exact H].
Qed.

Section SequenceFacts.
Variable A : Type.
Variables (r : regex) (caps : captures) (k : string -> captures -> option A).

Lemma rmatch_seq_lit (word s : string) :
  rmatch (lit word ## r) (word ++ s)%string caps k = rmatch r s caps k.
Proof. cbn [rmatch]. apply rmatch_lit_app. Qed.

Lemma rmatch_seq_group (m s : string) (a : A) :
  decimal m = true -> stopsRun digit s = true ->
  rmatch r s (caps ++ [Some m]) k = Some a ->
  rmatch (Grp (Plus digit) ## r) (m ++ s)%string caps k = Some a.
Proof.
  intros Hm Hs Hr. apply andb_true_iff in Hm as [Hne Hm].
  cbn [rmatch]. apply plus_run; auto.
  - intros ->. discriminate.
  - rewrite consumed_app. exact Hr.
Qed.

Lemma rmatch_seq_opt_group (o : option string) (s : string) (a : A) :
  decimalOpt o = true -> stopsRun digit s = true ->
  rmatch r s (caps ++ [o]) k = Some a ->
  rmatch (Opt (Grp (Plus digit)) ## r)
         (match o with Some m => m | None => "" end ++ s)%string caps k
  = Some a.
Proof.
  intros Ho Hs Hr. destruct o as [m|].
  - change (rmatch (Opt (Grp (Plus digit)) ## r) (m ++ s)%string caps k)
      with (match rmatch (Grp (Plus digit) ## r) (m ++ s)%string caps k with
            | Some a => Some a
            | None => rmatch r (m ++ s)%string (caps ++ [None]) k
            end).
    rewrite (@rmatch_seq_group m s a); auto.
  - cbn [append rmatch groups repeat].
    replace (plus digit s _) with (@None A); [exact Hr|].
    destruct s as [|c s]; [reflexivity|]. cbn in Hs |- *.
    apply negb_true_iff in Hs. now rewrite Hs.
Qed.
End SequenceFacts.

(** [,<count>] or nothing, before a space. *)
Lemma rmatch_count (A : Type) (r : regex) (caps : captures)
      (k : string -> captures -> option A) (count : option string)
      (s : string) (a : A) :
  decimalOpt count = true ->
  rmatch r (String " " s) (caps ++ [count]) k = Some a ->
  rmatch (Opt (Chr ",") ## Opt (Grp (Plus digit)) ## r)
         (countPart count ++ String " " s)%string caps k = Some a.
Proof.
  intros Hc Hr. destruct count as [c|]; cbn [countPart append].
  - change (rmatch (Opt (Chr ",") ## Opt (Grp (Plus digit)) ## r)
                   (String "," (c ++ String " " s)) caps k)
      with (match rmatch (Opt (Grp (Plus digit)) ## r)
                         (c ++ String " " s)%string caps k with
            | Some a => Some a
            | None => rmatch (Opt (Grp (Plus digit)) ## r)
                             (String "," (c ++ String " " s)) (caps ++ []) k
            end).
    rewrite (@rmatch_seq_opt_group A r caps k (Some c) (String " " s) a);
      auto.
  - change (rmatch (Opt (Chr ",") ## Opt (Grp (Plus digit)) ## r)
                   (String " " s) caps k)
      with (rmatch (Opt (Grp (Plus digit)) ## r) (String " " s) (caps ++ []) k).
    rewrite app_nil_r.
    apply (@rmatch_seq_opt_group A r caps k None (String " " s) a); auto.
Qed.

(** On a header of that shape the expression of the source matches, and its
    first group is the start line of the minus side. *)
Lemma hunkHeader_shape (startLine : string) (count : option string)
      (toLine : string) (toCount : option string) (rest : string) :
  decimal startLine = true -> decimalOpt count = true ->
  decimal toLine = true -> decimalOpt toCount = true ->
  hunkHeader (hunkHeaderLine startLine count toLine toCount rest)
  = Some startLine.
Proof.
  intros H1 H2 H3 H4. unfold hunkHeader, hunkHeaderLine.
  assert (exec re_hunk
            ("@@ -" ++ startLine ++ countPart count ++ " +" ++ toLine
                    ++ countPart toCount ++ " @@" ++ rest)
          = Some ([Some startLine; count; Some toLine; toCount], rest)) as ->;
    [|reflexivity].
  unfold exec, re_hunk. rewrite rmatch_seq_lit.
  apply rmatch_seq_group; auto.
  { destruct count; reflexivity. }
  change (" +" ++ toLine ++ countPart toCount ++ " @@" ++ rest)%string
    with (String " " ("+" ++ toLine ++ countPart toCount ++ " @@" ++ rest)).
  apply rmatch_count; [exact H2|].
  change (String " " ("+" ++ toLine ++ countPart toCount ++ " @@" ++ rest))
    with (" +" ++ toLine ++ countPart toCount ++ " @@" ++ rest)%string.
  rewrite rmatch_seq_lit.
  apply rmatch_seq_group; auto.
  { destruct toCount; reflexivity. }
  change (" @@" ++ rest)%string with (String " " ("@@" ++ rest)).
  apply rmatch_count; [exact H4|].
  change (String " " ("@@" ++ rest)) with (" @@" ++ rest)%string.
  rewrite rmatch_lit_app. reflexivity.
Qed.

(** ** The blocks of a diff *)

Lemma parseDiffFile_header (header : string) (pre lines : list string) :
  startsWith header "diff --git a/" = true -> headerLines pre ->
  parseDiffFile (header :: pre ++ lines)
  = parseBody (fromFileOf header) lines.
Proof.
  intros Hh Hpre. unfold parseDiffFile, re_diff_git_a. cbn [pop].
  rewrite test_lit, Hh. cbn [negb].
  destruct Hpre as [index Hi | mode index Hm]; cbn [app pop];
    unfold isModeLine in *.
  - rewrite Hi. reflexivity.
  - rewrite Hm. reflexivity.
Qed.

(** A line that starts with one character does not start with a word that
    begins with another. *)
Lemma startsWith_other (other : string) [line word : string] [c : ascii] :
  startsWith line (String c word) = true ->
  match other with
  | EmptyString => True
  | String d _ => Ascii.eqb c d = false
  end ->
  startsWith line other = match other with EmptyString => true | _ => false end.
Proof.
  destruct other as [|d other]; [intros; apply startsWith_nil|].
  destruct line as [|e line]; [discriminate|].
  rewrite !startsWith_cons. intros H Hcd.
  apply andb_true_iff in H as [H _]. apply Ascii.eqb_eq in H. subst e.
  rewrite Hcd. reflexivity.
Qed.

(** ** The cursor of the hunks *)

(** C1, amended.  In a block with a textual body the loop over the lines
    starts at the line after [+++]; a hunk header sets the cursor to the
    number that the start line of its minus side reads as; then, up to the
    next [diff --git] line or the end of the input, a line that starts with
    [-] records the cursor and increments it, a line that starts with [+]
    does neither, and any other line of the body only increments it (a line
    that starts with [@@] is a header line: one that is not of the shape is
    skipped).  The cursor is a double: a start line up to 2^53 is read as
    its value, and a cursor below 2^53 is advanced by one.  The diff text
    of the worked example yields the one record of [foo.js] with the deleted
    line 2. *)
Theorem hunk_cursor_rule :
  (forall header pre minus plusLine body,
      startsWith header "diff --git a/" = true -> headerLines pre ->
      startsWith minus "--- " = true -> startsWith plusLine "+++ " = true ->
      parseDiffFile (header :: pre ++ minus :: plusLine :: body)
      = Ok (mkFileInfo (fromFileOf header) (fst (hunkLoop body 0 [])),
            snd (hunkLoop body 0 [])))
  /\ (forall startLine count toLine toCount rest lines cursor deleted,
         decimal startLine = true -> decimalOpt count = true ->
         decimal toLine = true -> decimalOpt toCount = true ->
         hunkLoop (hunkHeaderLine startLine count toLine toCount rest :: lines)
                  cursor deleted
         = hunkLoop lines (toNumber startLine) deleted)
  /\ (forall startLine count toLine toCount rest lines cursor deleted,
         decimal startLine = true -> decimalOpt count = true ->
         decimal toLine = true -> decimalOpt toCount = true ->
         mathematicalValue startLine <= 2 ^ 53 ->
         hunkLoop (hunkHeaderLine startLine count toLine toCount rest :: lines)
                  cursor deleted
         = hunkLoop lines (mathematicalValue startLine) deleted)
  /\ (forall line lines cursor deleted,
         startsWith line "-" = true ->
         hunkLoop (line :: lines) cursor deleted
         = hunkLoop lines (increment cursor) (deleted ++ [cursor]))
  /\ (forall line lines cursor deleted,
         startsWith line "-" = true -> cursor < 2 ^ 53 ->
         hunkLoop (line :: lines) cursor deleted
         = hunkLoop lines (cursor + 1) (deleted ++ [cursor]))
  /\ (forall line lines cursor deleted,
         startsWith line "+" = true ->
         hunkLoop (line :: lines) cursor deleted
         = hunkLoop lines cursor deleted)
  /\ (forall line lines cursor deleted,
         startsWith line "diff --git" = false ->
         startsWith line "@@" = false ->
         startsWith line "-" = false -> startsWith line "+" = false ->
         hunkLoop (line :: lines) cursor deleted
         = hunkLoop lines (increment cursor) deleted)
  /\ (forall line lines cursor deleted,
         startsWith line "diff --git" = false ->
         startsWith line "@@" = false ->
         startsWith line "-" = false -> startsWith line "+" = false ->
         cursor < 2 ^ 53 ->
         hunkLoop (line :: lines) cursor deleted
         = hunkLoop lines (cursor + 1) deleted)
  /\ (forall line lines cursor deleted,
         startsWith line "@@" = true -> hunkHeader line = None ->
         hunkLoop (line :: lines) cursor deleted
         = hunkLoop lines cursor deleted)
  /\ (forall line lines cursor deleted,
         startsWith line "diff --git" = true ->
         hunkLoop (line :: lines) cursor deleted = (deleted, line :: lines))
  /\ (forall cursor deleted, hunkLoop [] cursor deleted = (deleted, []))
  /\ parseDiff exampleDiff = Ok [mkFileInfo "foo.js" [2]].
Proof.
  assert (Hminus : forall line lines cursor deleted,
             startsWith line "-" = true ->
             hunkLoop (line :: lines) cursor deleted
             = hunkLoop lines (increment cursor) (deleted ++ [cursor])).
  { intros line lines cursor deleted H. cbn [hunkLoop].
    rewrite (startsWith_other "diff --git" H eq_refl).
    rewrite (startsWith_other "@@" H eq_refl).
    rewrite (startsWith_other "+" H eq_refl), H. reflexivity. }
  assert (Hother : forall line lines cursor deleted,
             startsWith line "diff --git" = false ->
             startsWith line "@@" = false ->
             startsWith line "-" = false -> startsWith line "+" = false ->
             hunkLoop (line :: lines) cursor deleted
             = hunkLoop lines (increment cursor) deleted).
  { intros line lines cursor deleted H1 H2 H3 H4. cbn [hunkLoop].
    rewrite H1, H2, H3, H4. reflexivity. }
  assert (Hheader : forall startLine count toLine toCount rest lines cursor
                           deleted,
             decimal startLine = true -> decimalOpt count = true ->
             decimal toLine = true -> decimalOpt toCount = true ->
             hunkLoop
               (hunkHeaderLine startLine count toLine toCount rest :: lines)
               cursor deleted
             = hunkLoop lines (toNumber startLine) deleted).
  { intros startLine count toLine toCount rest lines cursor deleted
           H1 H2 H3 H4.
    cbn [hunkLoop]. rewrite hunkHeader_shape by assumption. reflexivity. }
  repeat apply conj.
  - intros header pre minus plusLine body Hh Hpre Hm Hp.
    rewrite parseDiffFile_header by assumption.
    unfold parseBody, re_plus_plus_plus. cbn [pop].
    destruct minus as [|c minus]; [discriminate|].
    rewrite (startsWith_other "diff --git" Hm eq_refl).
    rewrite (startsWith_other "Binary files" Hm eq_refl).
    rewrite Hm, test_lit, Hp. cbn [String.eqb negb].
    destruct (hunkLoop body 0 []). reflexivity.
  - exact Hheader.
  - intros startLine count toLine toCount rest lines cursor deleted
           H1 H2 H3 H4 Hb.
    rewrite Hheader by assumption. now rewrite toNumber_exact.
  - exact Hminus.
  - intros line lines cursor deleted H Hb.
    rewrite Hminus by assumption. now rewrite increment_exact.
  - intros line lines cursor deleted H. cbn [hunkLoop].
    rewrite (startsWith_other "diff --git" H eq_refl).
    rewrite (startsWith_other "@@" H eq_refl).
    rewrite (startsWith_other "-" H eq_refl), H. reflexivity.
  - exact Hother.
  - intros line lines cursor deleted H1 H2 H3 H4 Hb.
    rewrite Hother by assumption. now rewrite increment_exact.
  - intros line lines cursor deleted H1 H2. cbn [hunkLoop].
    destruct line as [|c line]; [discriminate|].
    rewrite (startsWith_other "diff --git" H1 eq_refl), H1, H2. reflexivity.
  - intros line lines cursor deleted H. cbn [hunkLoop]. rewrite H. reflexivity.
  - reflexivity.
  - vm_compute. reflexivity.
Qed.

Lemma hunk_cursor_rule_witness :
  parseDiffFile (linesOf exampleDiff) = Ok (mkFileInfo "foo.js" [2], [])
  /\ hunkLoop ["@@ -12,3 +14 @@ f()"; "-x"] 0 [] = hunkLoop ["-x"] 12 []
  /\ hunkLoop ["-x"; " y"] 12 [] = hunkLoop [" y"] 13 [12]
  /\ hunkLoop ["+x"; " y"] 12 [] = hunkLoop [" y"] 12 []
  /\ hunkLoop [" y"; "-z"] 12 [] = hunkLoop ["-z"] 13 []
  /\ hunkLoop ["@@ y"; "-z"] 12 [] = hunkLoop ["-z"] 12 []
  /\ hunkLoop ["diff --git a/g b/g"; "-z"] 12 [7]
     = ([7], ["diff --git a/g b/g"; "-z"]).
Proof.
  pose proof hunk_cursor_rule
    as (Hstart & _ & Hheader & _ & Hminus & Hplus & _ & Hother & Hskip & Hstop
        & _ & _).
  repeat apply conj.
  - exact (Hstart "diff --git a/foo.js b/foo.js"
                  ["index 83db48f..bf269c4 100644"]
                  "--- a/foo.js" "+++ b/foo.js"
                  ["@@ -1,3 +1,3 @@"; " line1"; "-line2"; "+line2 modified";
                   " line3"]
                  eq_refl (index_only "index 83db48f..bf269c4 100644" eq_refl)
                  eq_refl eq_refl).
  - apply (Hheader "12" (Some "3") "14" None " f()" ["-x"] 0 []
                   eq_refl eq_refl eq_refl eq_refl).
    vm_compute. discriminate.
  - apply (Hminus "-x" [" y"] 12 [] eq_refl). reflexivity.
  - exact (Hplus "+x" [" y"] 12 [] eq_refl).
  - apply (Hother " y" ["-z"] 12 [] eq_refl eq_refl eq_refl eq_refl).
    reflexivity.
  - exact (Hskip "@@ y" ["-z"] 12 [] eq_refl eq_refl).
  - exact (Hstop "diff --git a/g b/g" ["-z"] 12 [7] eq_refl).
Defined.

(** Without the bound the rule does not hold.  The start line
    9007199254740993, which is 2^53 + 1, is read as 9007199254740992, and a
    cursor of 2^53 is not advanced by a line: both deletions of the hunk are
    recorded as line 9007199254740992. *)
Lemma hunk_cursor_stalls :
  parseDiff (join nl [ "diff --git a/f b/f"; "index 1..2";
                       "--- a/f"; "+++ b/f";
                       "@@ -9007199254740993 +1 @@"; "-x"; "-y" ])
  = Ok [mkFileInfo "f" [9007199254740992; 9007199254740992]]
  /\ mathematicalValue "9007199254740993" = 9007199254740993
  /\ toNumber "9007199254740993" = 9007199254740992
  /\ increment 9007199254740992 = 9007199254740992
  /\ ~ (forall line lines cursor deleted,
           startsWith line "-" = true ->
           hunkLoop (line :: lines) cursor deleted
           = hunkLoop lines (cursor + 1) (deleted ++ [cursor])).
Proof.
  repeat apply conj.
  - vm_compute. reflexivity.
  - vm_compute. reflexivity.
  - vm_compute. reflexivity.
  - vm_compute. reflexivity.
  - intros H. specialize (H "-x" ["-y"] 9007199254740992 [] eq_refl).
    vm_compute in H. discriminate.
Qed.

(** ** Blocks without hunks *)

(** C9. After the header of a block, its index line and the mode line
    before it if there is one, a block whose next line is absent, starts
    with [diff --git] or starts with [Binary files] yields the record of its
    path with no deleted line; a [diff --git] line is left for the next
    block, and the loop over the hunks is not entered.  The block marked
    [Binary files a/x.png and b/x.png differ] yields the record of [x.png]
    with no deleted line. *)
Theorem block_without_hunks :
  (forall header pre,
      startsWith header "diff --git a/" = true -> headerLines pre ->
      parseDiffFile (header :: pre)
      = Ok (mkFileInfo (fromFileOf header) [], []))
  /\ (forall header pre next rest,
         startsWith header "diff --git a/" = true -> headerLines pre ->
         startsWith next "diff --git" = true ->
         parseDiffFile (header :: pre ++ next :: rest)
         = Ok (mkFileInfo (fromFileOf header) [], next :: rest))
  /\ (forall header pre next rest,
         startsWith header "diff --git a/" = true -> headerLines pre ->
         startsWith next "Binary files" = true ->
         parseDiffFile (header :: pre ++ next :: rest)
         = Ok (mkFileInfo (fromFileOf header) [], rest))
  /\ parseDiff binaryDiff = Ok [mkFileInfo "x.png" []].
Proof.
  repeat apply conj.
  - intros header pre Hh Hpre.
    rewrite <- (app_nil_r pre), parseDiffFile_header by assumption.
    reflexivity.
  - intros header pre next rest Hh Hpre Hn.
    rewrite parseDiffFile_header by assumption.
    unfold parseBody. cbn [pop]. rewrite Hn.
    destruct next; [discriminate | reflexivity].
  - intros header pre next rest Hh Hpre Hn.
    rewrite parseDiffFile_header by assumption.
    unfold parseBody. cbn [pop].
    rewrite (startsWith_other "diff --git" Hn eq_refl), Hn.
    destruct next; [discriminate | reflexivity].
  - vm_compute. reflexivity.
Qed.

Lemma block_without_hunks_witness :
  parseDiffFile (linesOf binaryDiff) = Ok (mkFileInfo "x.png" [], [])
  /\ parseDiffFile ["diff --git a/e b/e"; "new file mode 100644";
                    "index 0000000..e69de29"]
     = Ok (mkFileInfo "e" [], [])
  /\ parseDiffFile ["diff --git a/m b/m"; "index 1..2 100755";
                    "diff --git a/n b/n"; "index 3..4"]
     = Ok (mkFileInfo "m" [], ["diff --git a/n b/n"; "index 3..4"]).
Proof.
  pose proof block_without_hunks as (Habsent & Hnext & Hbinary & _).
  repeat apply conj.
  - exact (Hbinary "diff --git a/x.png b/x.png"
                   ["index 83db48f..bf269c4 100644"]
                   "Binary files a/x.png and b/x.png differ" []
                   eq_refl
                   (index_only "index 83db48f..bf269c4 100644" eq_refl)
                   eq_refl).
  - exact (Habsent "diff --git a/e b/e"
                   ["new file mode 100644"; "index 0000000..e69de29"]
                   eq_refl
                   (mode_and_index "new file mode 100644"
                                   "index 0000000..e69de29" eq_refl)).
  - exact (Hnext "diff --git a/m b/m" ["index 1..2 100755"]
                 "diff --git a/n b/n" ["index 3..4"]
                 eq_refl (index_only "index 1..2 100755" eq_refl) eq_refl).
Defined.

(** ** Termination of the loop over the blocks *)

Lemma hunkLoop_length (lines : list string) :
  forall cursor deleted,
    (List.length (snd (hunkLoop lines cursor deleted)) <= List.length lines)%nat.
Proof.
  induction lines as [|line lines IH]; intros cursor deleted;
    cbn [hunkLoop]; [cbn; lia|].
  destruct (startsWith line "diff --git"); [cbn; lia|].
  destruct (startsWith line "@@").
  - destruct (hunkHeader line); cbn [List.length];
      eapply Nat.le_trans; [apply IH | lia | apply IH | lia].
  - cbn [List.length]. eapply Nat.le_trans; [apply IH | lia].
Qed.

Lemma parseBody_length (fromFile : string) (lines : list string)
      (file : FileInfo) (rest : list string) :
  parseBody fromFile lines = Ok (file, rest) ->
  (List.length rest <= List.length lines)%nat.
Proof.
  unfold parseBody. destruct lines as [|line lines]; cbn [pop].
  - intros H. injection H as <- <-. cbn. lia.
  - destruct (String.eqb line "");
      [intros H; injection H as <- <-; cbn; lia|].
    destruct (startsWith line "diff --git");
      [intros H; injection H as <- <-; cbn; lia|].
    destruct (startsWith line "Binary files");
      [intros H; injection H as <- <-; cbn; lia|].
    destruct (startsWith line "--- ");
      [|intros H; injection H as <- <-; cbn; lia].
    destruct lines as [|line' lines]; cbn [pop]; [discriminate|].
    destruct (negb (test re_plus_plus_plus line')); [discriminate|].
    pose proof (hunkLoop_length lines 0 []) as Hlen.
    destruct (hunkLoop lines 0 []) as [deleted rest'].
    intros H. injection H as <- <-. cbn in *. lia.
Qed.

Lemma parseDiffFile_length (lines : list string) (file : FileInfo)
      (rest : list string) :
  parseDiffFile lines = Ok (file, rest) ->
  (List.length rest < List.length lines)%nat.
Proof.
  unfold parseDiffFile. destruct lines as [|header lines]; cbn [pop];
    [discriminate|].
  destruct (negb (test re_diff_git_a header)); [discriminate|].
  destruct lines as [|line lines]; cbn [pop]; [discriminate|].
  destruct (startsWith line "deleted file" || startsWith line "new file").
  - destruct lines as [|index lines]; cbn [pop]; intros H;
      apply parseBody_length in H; cbn in *; lia.
  - intros H. apply parseBody_length in H. cbn in *. lia.
Qed.

(** The length of [lines] is fuel enough, and more fuel changes nothing. *)
Lemma parseFiles_fuel (fuel : nat) :
  forall lines files,
    (List.length lines <= fuel)%nat ->
    exists r, parseFiles fuel lines files = Some r
              /\ forall fuel', (List.length lines <= fuel')%nat ->
                               parseFiles fuel' lines files = Some r.
Proof.
  induction fuel as [|fuel IH]; intros lines files Hlen.
  - destruct lines; [|cbn in Hlen; lia].
    exists (Ok files). split; [reflexivity|]. intros [|fuel'] _; reflexivity.
  - destruct lines as [|line lines].
    + exists (Ok files). split; [reflexivity|]. intros [|fuel'] _; reflexivity.
    + cbn [parseFiles].
      destruct (parseDiffFile (line :: lines)) as [[file rest]|e] eqn:Hp.
      * pose proof (parseDiffFile_length _ Hp) as Hl.
        cbn [List.length] in *.
        destruct (IH rest (files ++ [file])) as (r & Hr & Hmore); [lia|].
        exists r. split; [exact Hr|].
        intros [|fuel'] Hlen'; [lia|].
        cbn [parseFiles]. rewrite Hp. apply Hmore. lia.
      * exists (Throw e). split; [reflexivity|].
        intros [|fuel'] Hlen'; [cbn in Hlen'; lia|].
        cbn [parseFiles]. rewrite Hp. reflexivity.
Qed.

Lemma parseFiles_parseLoop (fuel : nat) :
  forall lines files r,
    parseFiles fuel lines files = Some r -> parseLoop lines files r.
Proof.
  induction fuel as [|fuel IH]; intros [|line lines] files r H;
    cbn [parseFiles] in H; try discriminate.
  - injection H as <-. constructor.
  - injection H as <-. constructor.
  - destruct (parseDiffFile (line :: lines)) as [[file rest]|e] eqn:Hp.
    + eapply parseLoop_next; [discriminate | exact Hp | now apply IH].
    + injection H as <-. apply parseLoop_throw; [discriminate | exact Hp].
Qed.

Lemma parseLoop_deterministic (lines : list string) (files : list FileInfo)
      (r1 r2 : result (list FileInfo)) :
  parseLoop lines files r1 -> parseLoop lines files r2 -> r1 = r2.
Proof.
  intros H1. revert r2.
  induction H1 as [files | lines files e Hne Hp
                   | lines rest files file r Hne Hp H1 IH];
    intros r2 H2; inversion H2; subst; try congruence.
  apply IH. congruence.
Qed.

Lemma recognized_diff (diff : string) :
  String.eqb diff "" || negb (test re_diff diff)
  = negb (startsWith diff "diff").
Proof.
  unfold re_diff. rewrite test_lit. destruct diff; reflexivity.
Qed.

(** [parseDiff] is the loop over the lines of a recognized diff; the fuel
    of the embedding does not show. *)
Lemma parseDiff_parseLoop (diff : string) (r : result (list FileInfo)) :
  parseDiff diff = r <->
  (startsWith diff "diff" = false /\ r = Ok [])
  \/ (startsWith diff "diff" = true /\ parseLoop (linesOf diff) [] r).
Proof.
  unfold parseDiff. rewrite recognized_diff.
  destruct (parseFiles_fuel (linesOf diff) [] (Nat.le_refl _))
    as (r' & Hr & _).
  cbv zeta. rewrite Hr. apply parseFiles_parseLoop in Hr.
  destruct (startsWith diff "diff"); cbn [negb]; split.
  - intros <-. right. auto.
  - intros [[H _]|[_ H]]; [discriminate|].
    eapply parseLoop_deterministic; eassumption.
  - intros <-. left. auto.
  - intros [[_ H]|[H _]]; [congruence | discriminate].
Qed.

(** ** The lower bound of the recorded lines *)

Lemma hunkLoop_lower_bound (m : Z) (lines : list string) :
  m <= 2 ^ 53 ->
  forall cursor deleted,
    m <= cursor -> Forall (Z.le m) deleted ->
    (forall line from_line,
        In line lines -> hunkHeader line = Some from_line ->
        m <= toNumber from_line) ->
    Forall (Z.le m) (fst (hunkLoop lines cursor deleted)).
Proof.
  intros Hm.
  induction lines as [|line lines IH]; intros cursor deleted Hc Hd Hh;
    cbn [hunkLoop]; [exact Hd|].
  assert (Hh' : forall l f, In l lines -> hunkHeader l = Some f ->
                            m <= toNumber f)
    by (intros l f Hl; apply Hh; now right).
  destruct (startsWith line "diff --git"); [exact Hd|].
  destruct (startsWith line "@@").
  - destruct (hunkHeader line) as [from_line|] eqn:Hl.
    + apply IH; auto. apply (Hh line); [now left | exact Hl].
    + apply IH; auto.
  - apply IH; auto.
    + destruct (negb (startsWith line "+")); [|exact Hc].
      now apply increment_lower.
    + destruct (startsWith line "-"); [|exact Hd].
      apply Forall_app. split; [exact Hd|]. constructor; [exact Hc|constructor].
Qed.

Lemma parseDiffFile_nonneg (lines rest : list string) (file : FileInfo) :
  parseDiffFile lines = Ok (file, rest) ->
  Forall (Z.le 0) (deletedLines file).
Proof.
  assert (Hbody : forall fromFile lines,
             parseBody fromFile lines = Ok (file, rest) ->
             Forall (Z.le 0) (deletedLines file)).
  { clear lines. intros fromFile lines. unfold parseBody.
    destruct lines as [|line lines]; cbn [pop].
    - intros H. injection H as <- <-. constructor.
    - destruct (String.eqb line "");
        [intros H; injection H as <- <-; constructor|].
      destruct (startsWith line "diff --git");
        [intros H; injection H as <- <-; constructor|].
      destruct (startsWith line "Binary files");
        [intros H; injection H as <- <-; constructor|].
      destruct (startsWith line "--- ");
        [|intros H; injection H as <- <-; constructor].
      destruct lines as [|line' lines]; cbn [pop]; [discriminate|].
      destruct (negb (test re_plus_plus_plus line')); [discriminate|].
      assert (H53 : 0 <= 2 ^ 53) by lia.
      pose proof (@hunkLoop_lower_bound 0 lines H53 0 [] (Z.le_refl 0)
                    (Forall_nil _)) as Hb.
      destruct (hunkLoop lines 0 []) as [deleted rest'].
      intros H. injection H as <- <-. apply Hb.
      intros l f _. apply hunkHeader_nonneg. }
  unfold parseDiffFile. destruct lines as [|header lines]; cbn [pop];
    [discriminate|].
  destruct (negb (test re_diff_git_a header)); [discriminate|].
  destruct lines as [|line lines]; cbn [pop]; [discriminate|].
  destruct (startsWith line "deleted file" || startsWith line "new file");
    [destruct lines; cbn [pop]|]; apply Hbody.
Qed.

(** C3, amended.  Every line number that [parseDiff] records is at least 0:
    the cursor starts at 0, and a [-] line met before any hunk header, or
    after a header whose start line is 0, is recorded as 0.  From a cursor
    that is at least 1, with hunk headers whose start lines are at least 1,
    the loop records numbers that are at least 1. *)
Theorem deletedLines_lower_bound :
  (forall diff files,
      parseDiff diff = Ok files ->
      Forall (fun file => Forall (fun n => 0 <= n) (deletedLines file)) files)
  /\ (forall lines cursor deleted,
         1 <= cursor -> Forall (fun n => 1 <= n) deleted ->
         (forall line from_line,
             In line lines -> hunkHeader line = Some from_line ->
             1 <= toNumber from_line) ->
         Forall (fun n => 1 <= n) (fst (hunkLoop lines cursor deleted))).
Proof.
  split.
  - intros diff files H. apply parseDiff_parseLoop in H as [[_ H]|[_ H]].
    + injection H as ->. constructor.
    + assert (Hinv : forall lines acc r,
                 parseLoop lines acc r ->
                 Forall (fun file => Forall (Z.le 0) (deletedLines file)) acc ->
                 forall res, r = Ok res ->
                 Forall (fun file => Forall (Z.le 0) (deletedLines file)) res).
      { clear. intros lines acc r Hl.
        induction Hl as [acc | lines acc e Hne Hp
                         | lines rest acc file r Hne Hp Hl IH];
          intros Hacc res Hr.
        - injection Hr as <-. exact Hacc.
        - discriminate.
        - apply IH; [|exact Hr]. apply Forall_app. split; [exact Hacc|].
          constructor; [|constructor]. eapply parseDiffFile_nonneg. exact Hp. }
      eapply Hinv; [exact H | constructor | reflexivity].
  - intros lines cursor deleted. apply hunkLoop_lower_bound. lia.
Qed.

Lemma deletedLines_lower_bound_witness :
  Forall (fun file => Forall (fun n => 0 <= n) (deletedLines file))
         [mkFileInfo "foo.js" [2]]
  /\ Forall (fun n => 1 <= n)
            (fst (hunkLoop ["-a"; "@@ -5 +5 @@"; " b"; "-c"] 1 [])).
Proof.
  split.
  - exact (proj1 deletedLines_lower_bound exampleDiff
                 [mkFileInfo "foo.js" [2]] eq_refl).
  - apply (proj2 deletedLines_lower_bound); [lia | constructor |].
    intros line from_line [<-|[<-|[<-|[<-|[]]]]] H; vm_compute in H;
      try discriminate.
    injection H as <-. vm_compute. discriminate.
Defined.

(** The bound 1 of the specification does not hold: a [-] line that
    follows the [+++] line directly is recorded as line 0. *)
Lemma deletedLines_zero_recorded :
  parseDiff (join nl [ "diff --git a/f b/f"; "index 1..2";
                       "--- a/f"; "+++ b/f"; "-x" ])
  = Ok [mkFileInfo "f" [0]]
  /\ ~ Forall (fun file => Forall (fun n => 1 <= n) (deletedLines file))
              [mkFileInfo "f" [0]].
Proof.
  split; [vm_compute; reflexivity|].
  intros H. inversion H as [|? ? H0 _]; subst.
  inversion H0 as [|? ? Hle _]; subst. lia.
Qed.

(** ** The errors of the parser *)

Lemma parseBody_error (fromFile : string) (lines : list string)
      (msg : string) :
  parseBody fromFile lines = Throw (Error msg) <->
  exists minus plusLine rest,
    lines = minus :: plusLine :: rest
    /\ startsWith minus "--- " = true
    /\ startsWith plusLine "+++ " = false
    /\ msg = invalidPlusPlusPlus plusLine.
Proof.
  unfold parseBody, re_plus_plus_plus. split.
  - destruct lines as [|minus lines]; cbn [pop]; [discriminate|].
    destruct (String.eqb minus ""); [discriminate|].
    destruct (startsWith minus "diff --git"); [discriminate|].
    destruct (startsWith minus "Binary files"); [discriminate|].
    destruct (startsWith minus "--- ") eqn:Hm; [|discriminate].
    destruct lines as [|plusLine rest]; cbn [pop]; [discriminate|].
    rewrite test_lit.
    destruct (startsWith plusLine "+++ ") eqn:Hp; cbn [negb].
    + destruct (hunkLoop rest 0 []). discriminate.
    + intros H. injection H as <-. exists minus, plusLine, rest. auto.
  - intros (minus & plusLine & rest & -> & Hm & Hp & ->). cbn [pop].
    rewrite (startsWith_other "diff --git" Hm eq_refl).
    rewrite (startsWith_other "Binary files" Hm eq_refl).
    rewrite Hm, test_lit, Hp.
    destruct minus; [discriminate | reflexivity].
Qed.

(** A block that the end of the input cuts short throws too, a
    [TypeError]: the parser reads a property of the [undefined] that [pop]
    returns. *)
Lemma truncated_block_throws (header minus : string) :
  startsWith header "diff --git a/" = true ->
  startsWith minus "--- " = true ->
  parseDiffFile [header] = Throw TypeError
  /\ forall pre, headerLines pre ->
                 parseDiffFile (header :: pre ++ [minus]) = Throw TypeError.
Proof.
  intros Hh Hm. split.
  - unfold parseDiffFile, re_diff_git_a. cbn [pop].
    rewrite test_lit, Hh. reflexivity.
  - intros pre Hpre. rewrite parseDiffFile_header by assumption.
    unfold parseBody. cbn [pop].
    rewrite (startsWith_other "diff --git" Hm eq_refl).
    rewrite (startsWith_other "Binary files" Hm eq_refl), Hm.
    destruct minus; [discriminate | reflexivity].
Qed.

Lemma parseLoop_throws (lines : list string) (files : list FileInfo)
      (e : exn) :
  parseLoop lines files (Throw e) <->
  exists block,
    blockStart lines block /\ block <> [] /\ parseDiffFile block = Throw e.
Proof.
  split.
  - intros H. remember (Throw e) as r eqn:Hr.
    induction H as [files | lines files e' Hne Hp
                    | lines rest files file r Hne Hp H IH].
    + discriminate.
    + injection Hr as ->. exists lines. split; [constructor | auto].
    + destruct (IH Hr) as (block & Hb & Hne' & Hp').
      exists block. split; [|auto]. econstructor; eassumption.
  - intros (block & Hb & Hne & Hp). revert files.
    induction Hb as [lines | lines rest block file Hne' Hp' Hb IH];
      intros files.
    + now apply parseLoop_throw.
    + eapply parseLoop_next; [exact Hne' | exact Hp' | now apply IH].
Qed.

(** C6, amended.  A block throws the [Invalid line] error of the parser in
    two cases and no other: its first line does not start with
    [diff --git a/]; or the line after its index line starts with [--- ]
    and the line that follows does not start with [+++ ].  [parseDiff]
    throws on a recognized diff when a block that the parser comes to
    throws, and then with the exception of that block: no sequence is
    returned. *)
Theorem parser_errors :
  (forall lines msg,
      parseDiffFile lines = Throw (Error msg) <->
      (exists line rest,
          lines = line :: rest
          /\ startsWith line "diff --git a/" = false
          /\ msg = invalidDiffGit line)
      \/ (exists header pre minus plusLine rest,
             lines = header :: pre ++ minus :: plusLine :: rest
             /\ startsWith header "diff --git a/" = true
             /\ headerLines pre
             /\ startsWith minus "--- " = true
             /\ startsWith plusLine "+++ " = false
             /\ msg = invalidPlusPlusPlus plusLine))
  /\ (forall diff e,
         parseDiff diff = Throw e <->
         startsWith diff "diff" = true
         /\ exists block,
             blockStart (linesOf diff) block
             /\ block <> [] /\ parseDiffFile block = Throw e).
Proof.
  split.
  - intros lines msg. split.
    + unfold parseDiffFile, re_diff_git_a.
      destruct lines as [|header lines]; cbn [pop]; [discriminate|].
      rewrite test_lit.
      destruct (startsWith header "diff --git a/") eqn:Hh; cbn [negb].
      2:{ intros H. injection H as <-. left. exists header, lines. auto. }
      destruct lines as [|line lines]; cbn [pop]; [discriminate|].
      destruct (startsWith line "deleted file" || startsWith line "new file")
               eqn:Hmode.
      * destruct lines as [|index lines]; cbn [pop]; [discriminate|].
        intros H. apply parseBody_error in H
          as (minus & plusLine & rest & -> & Hm & Hp & ->).
        right. exists header, [line; index], minus, plusLine, rest.
        repeat split; auto. now apply mode_and_index.
      * intros H. apply parseBody_error in H
          as (minus & plusLine & rest & -> & Hm & Hp & ->).
        right. exists header, [line], minus, plusLine, rest.
        repeat split; auto. now apply index_only.
    + intros [(line & rest & -> & Hl & ->)
             |(header & pre & minus & plusLine & rest
               & -> & Hh & Hpre & Hm & Hp & ->)].
      * unfold parseDiffFile, re_diff_git_a. cbn [pop].
        rewrite test_lit, Hl. reflexivity.
      * rewrite parseDiffFile_header by assumption.
        apply parseBody_error. exists minus, plusLine, rest. auto.
  - intros diff e. rewrite parseDiff_parseLoop, parseLoop_throws. split.
    + intros [[_ H]|H]; [discriminate | exact H].
    + intros H. right. exact H.
Qed.

Lemma parser_errors_witness :
  parseDiff (join nl ["diff --git a/f b/f"; "index 1..2"; "--- a/f"; "x"])
  = Throw (Error (invalidPlusPlusPlus "x")).
Proof.
  apply (proj2 parser_errors). split; [reflexivity|].
  exists ["diff --git a/f b/f"; "index 1..2"; "--- a/f"; "x"].
  split; [apply blockStart_here|]. split; [discriminate|].
  apply (proj1 parser_errors). right.
  exists "diff --git a/f b/f", ["index 1..2"], "--- a/f", "x", [].
  repeat split. apply index_only. reflexivity.
Defined.

(** The two cases of the specification are not the ones of the code.  A
    first line [diff --git a/foo] is not of the shape
    [diff --git a/<path> b/<path>] and is accepted, the whole line standing
    for the path; a last line [---] is followed by no [+++] line and is
    accepted too. *)
Lemma malformed_blocks_accepted :
  (test re_from_file "diff --git a/foo" = false
   /\ parseDiff (join nl ["diff --git a/foo"; "index 1..2"])
      = Ok [mkFileInfo "diff --git a/foo" []])
  /\ (startsWith "---" "---" = true
      /\ parseDiff (join nl ["diff --git a/f b/f"; "index 1..2"; "---"])
         = Ok [mkFileInfo "f" []]).
Proof. repeat split; vm_compute; reflexivity. Qed.

(** ** Facts on subsequences *)

Section SubseqFacts.
Variable A : Type.

Lemma subseq_refl (l : list A) : subseq l l.
Proof. induction l; auto with subseq. Qed.

Lemma subseq_filter (p : A -> bool) (l : list A) : subseq (filter p l) l.
Proof.
  induction l as [|x l IH]; cbn; [auto with subseq|].
  destruct (p x); auto with subseq.
Qed.

Lemma subseq_firstn (n : nat) (l : list A) : subseq (firstn n l) l.
Proof.
  revert l. induction n as [|n IH]; intros [|x l]; cbn; auto with subseq.
  induction (x :: l); auto with subseq.
Qed.

Lemma subseq_trans (l1 l2 l3 : list A) :
  subseq l1 l2 -> subseq l2 l3 -> subseq l1 l3.
Proof.
  intros H12 H23. revert l1 H12.
  induction H23 as [|x l2 l3 H23 IH|x l2 l3 H23 IH]; intros l1 H12.
  - exact H12.
  - auto with subseq.
  - inversion H12; subst; auto with subseq.
Qed.

Lemma subseq_In (l1 l2 : list A) (x : A) :
  subseq l1 l2 -> In x l1 -> In x l2.
Proof.
  induction 1 as [|y l1 l2 H IH|y l1 l2 H IH]; cbn; intuition.
Qed.

Lemma subseq_Forall (P : A -> Prop) (l1 l2 : list A) :
  subseq l1 l2 -> Forall P l2 -> Forall P l1.
Proof.
  induction 1 as [|y l1 l2 H IH|y l1 l2 H IH]; intros HP;
    [exact HP | |]; inversion HP; subst; auto.
Qed.

Lemma subseq_length (l1 l2 : list A) :
  subseq l1 l2 -> (List.length l1 <= List.length l2)%nat.
Proof. induction 1; cbn; lia. Qed.

Lemma subseq_NoDup (l1 l2 : list A) :
  subseq l1 l2 -> NoDup l2 -> NoDup l1.
Proof.
  induction 1 as [|y l1 l2 H IH|y l1 l2 H IH]; intros Hnd;
    [exact Hnd | |]; inversion Hnd; subst; auto.
  constructor; auto. intros Hin. eauto using subseq_In.
Qed.

Lemma subseq_StronglySorted (R : A -> A -> Prop) (l1 l2 : list A) :
  subseq l1 l2 -> StronglySorted R l2 -> StronglySorted R l1.
Proof.
  induction 1 as [|y l1 l2 H IH|y l1 l2 H IH]; intros Hs;
    [exact Hs | |]; inversion Hs; subst; auto.
  constructor; auto. eauto using subseq_Forall.
Qed.
End SubseqFacts.

(** ** The selection of the files *)

Lemma compareFn_le (a b : FileInfo) :
  compareFn a b <= 0 <->
  (List.length (deletedLines b) <= List.length (deletedLines a))%nat.
Proof.
  unfold compareFn. cbv zeta.
  destruct (Z.gtb_spec (Z.of_nat (List.length (deletedLines a)))
                       (Z.of_nat (List.length (deletedLines b))));
    [lia|].
  destruct (Z.ltb_spec (Z.of_nat (List.length (deletedLines a)))
                       (Z.of_nat (List.length (deletedLines b)))); lia.
Qed.

Lemma insertFile_perm (file : FileInfo) (files : list FileInfo) :
  Permutation (insertFile file files) (file :: files).
Proof.
  induction files as [|other files IH]; cbn; [reflexivity|].
  destruct (compareFn file other <=? 0); [reflexivity|].
  rewrite IH. apply perm_swap.
Qed.

Lemma insertionSort_perm (files : list FileInfo) :
  Permutation (insertionSort files) files.
Proof.
  induction files as [|file files IH]; cbn; [reflexivity|].
  rewrite insertFile_perm. now constructor.
Qed.

Lemma insertFile_sorted (file : FileInfo) (files : list FileInfo) :
  StronglySorted (fun a b => compareFn a b <= 0) files ->
  StronglySorted (fun a b => compareFn a b <= 0) (insertFile file files).
Proof.
  induction 1 as [|other files Hs IH Hall]; cbn.
  - repeat constructor.
  - destruct (Z.leb_spec (compareFn file other) 0) as [Hle|Hgt].
    + constructor; [now constructor|]. constructor; [exact Hle|].
      apply compareFn_le in Hle. revert Hall. apply Forall_impl.
      intros c Hc. apply compareFn_le in Hc. apply compareFn_le. lia.
    + constructor; [exact IH|].
      eapply Permutation_Forall; [symmetry; apply insertFile_perm|].
      constructor; [|exact Hall].
      apply compareFn_le.
      assert (~ compareFn file other <= 0) as Hn by lia.
      rewrite compareFn_le in Hn. lia.
Qed.

Lemma insertionSort_sorted (files : list FileInfo) :
  StronglySorted (fun a b => compareFn a b <= 0) (insertionSort files).
Proof.
  induction files as [|file files IH]; cbn; [constructor|].
  now apply insertFile_sorted.
Qed.

Definition insertionEngine : ArraySort :=
  mkArraySort insertionSort insertionSort_perm insertionSort_sorted.

Lemma filter_filter (A : Type) (p q : A -> bool) (l : list A) :
  filter p (filter q l) = filter (fun x => q x && p x) l.
Proof.
  induction l as [|x l IH]; cbn; [reflexivity|].
  destruct (q x); cbn; [destruct (p x)|]; now rewrite IH.
Qed.

Lemma filter_perm_length (A : Type) (p : A -> bool) (l l' : list A) :
  Permutation l l' -> List.length (filter p l) = List.length (filter p l').
Proof.
  induction 1 as [|x l l' H IH|x y l|l l' l'' H1 IH1 H2 IH2]; cbn.
  - reflexivity.
  - destruct (p x); cbn; now rewrite IH.
  - destruct (p x), (p y); reflexivity.
  - now rewrite IH1.
Qed.

Lemma slice0_subseq (A : Type) (array : list A) (end_ : Z) :
  subseq (slice0 array end_) array.
Proof. apply subseq_firstn. Qed.

Lemma slice0_length (A : Type) (array : list A) (end_ : Z) :
  0 <= end_ ->
  Z.of_nat (List.length (slice0 array end_))
  = Z.min end_ (Z.of_nat (List.length array)).
Proof.
  intros H. unfold slice0. cbv zeta.
  destruct (Z.ltb_spec end_ 0); [lia|]. rewrite length_firstn. lia.
Qed.

Lemma slice0_zero (A : Type) (array : list A) : slice0 array 0 = [].
Proof.
  unfold slice0. cbv zeta. cbn [Z.ltb Z.compare].
  replace (Z.to_nat (Z.min 0 (Z.of_nat (List.length array)))) with 0%nat
    by lia.
  reflexivity.
Qed.

Section SelectionFacts.
Variable engine : ArraySort.
Variable minimatch : string -> string -> bool.

Lemma removeMatching_all (globs : list string) :
  forall files,
    fold_left (removeMatching minimatch) globs files
    = filter (fun file => negb (blacklisted minimatch globs file)) files.
Proof.
  induction globs as [|glob globs IH]; intros files; cbn [fold_left].
  - unfold blacklisted. cbn. induction files; cbn; congruence.
  - rewrite IH. unfold removeMatching. rewrite filter_filter.
    apply filter_ext. intros file. unfold blacklisted. cbn [existsb].
    now rewrite negb_orb.
Qed.

Lemma selectFiles_spec (repoConfig : RepoConfig) (files : list FileInfo) :
  selectFiles engine minimatch repoConfig files
  = select_spec engine minimatch repoConfig files.
Proof. unfold selectFiles, select_spec. now rewrite removeMatching_all. Qed.

Lemma selectFiles_subseq (repoConfig : RepoConfig) (files : list FileInfo) :
  subseq (selectFiles engine minimatch repoConfig files)
         (sortWith engine files).
Proof.
  rewrite selectFiles_spec. unfold select_spec.
  eapply subseq_trans; [apply slice0_subseq | apply subseq_filter].
Qed.
End SelectionFacts.

Lemma slice0_firstn (A : Type) (array : list A) (end_ : Z) :
  0 <= end_ -> slice0 array end_ = firstn (Z.to_nat end_) array.
Proof.
  intros H. unfold slice0. cbv zeta. destruct (Z.ltb_spec end_ 0); [lia|].
  destruct (Z.le_gt_cases end_ (Z.of_nat (List.length array))) as [Hle|Hgt].
  - now rewrite Z.min_l.
  - rewrite Z.min_r by lia. rewrite Nat2Z.id.
    rewrite firstn_all, firstn_all2 by lia. reflexivity.
Qed.

Lemma slice0_negative (A : Type) (array : list A) (end_ : Z) :
  end_ < 0 ->
  slice0 array end_
  = firstn (List.length array - Z.to_nat (- end_)) array.
Proof.
  intros H. unfold slice0. cbv zeta. destruct (Z.ltb_spec end_ 0); [|lia].
  f_equal. lia.
Qed.

(** C2. The selection is the three steps in their order.  The sort gives
    the files by decreasing number of deleted lines (the order of the ties
    is the engine's); the files whose path matches a glob of the blacklist
    are removed from the sorted list; of what is left, the first
    [numFilesToCheck] files are kept, all of them when there are fewer (a
    negative cap counts from the end, as [slice] does).  The selected list
    is sorted by decreasing number of deleted lines and, for a cap that is
    not negative, its length is the smaller of the cap and the number of
    files that match no glob. *)
Theorem selectFiles_sorted_bounded
        (engine : ArraySort) (minimatch : string -> string -> bool)
        (repoConfig : RepoConfig) (files : list FileInfo) :
  let byDeletions :=
    fun a b : FileInfo =>
      (List.length (deletedLines b) <= List.length (deletedLines a))%nat in
  let matchesNone :=
    fun file =>
      negb (blacklisted minimatch (fileBlacklist repoConfig) file) in
  let cap := numFilesToCheck repoConfig in
  let sorted := sortWith engine files in
  let selected := selectFiles engine minimatch repoConfig files in
  Permutation sorted files
  /\ StronglySorted byDeletions sorted
  /\ (0 <= cap ->
      selected = firstn (Z.to_nat cap) (filter matchesNone sorted))
  /\ (cap < 0 ->
      selected
      = firstn (List.length (filter matchesNone sorted) - Z.to_nat (- cap))
               (filter matchesNone sorted))
  /\ StronglySorted byDeletions selected
  /\ (0 <= cap ->
      Z.of_nat (List.length selected)
      = Z.min cap (Z.of_nat (List.length (filter matchesNone files)))).
Proof.
  cbv zeta.
  assert (Hsorted :
            StronglySorted
              (fun a b : FileInfo =>
                 (List.length (deletedLines b)
                  <= List.length (deletedLines a))%nat)
              (sortWith engine files)).
  { pose proof (sortWith_sorted engine files) as Hs.
    induction Hs as [|a l Hs IH Hall]; constructor; [exact IH|].
    revert Hall. apply Forall_impl. intros b. apply compareFn_le. }
  repeat apply conj.
  - apply sortWith_perm.
  - exact Hsorted.
  - intros Hcap. rewrite selectFiles_spec. unfold select_spec. cbv zeta.
    now apply slice0_firstn.
  - intros Hcap. rewrite selectFiles_spec. unfold select_spec. cbv zeta.
    now apply slice0_negative.
  - eapply subseq_StronglySorted; [apply selectFiles_subseq | exact Hsorted].
  - intros Hcap. rewrite selectFiles_spec. unfold select_spec. cbv zeta.
    rewrite slice0_length by exact Hcap.
    rewrite (filter_perm_length _ (sortWith_perm engine files)).
    reflexivity.
Qed.

Lemma selectFiles_sorted_bounded_witness :
  selectFiles insertionEngine exactMatch
              (mkRepoConfig ["src/a.js"] 2) exampleFiles
  = [mkFileInfo "lib/b.js" [7; 8]; mkFileInfo "README.md" [1]]
  /\ Z.of_nat
       (List.length
          (selectFiles insertionEngine exactMatch
                       (mkRepoConfig ["src/a.js"] 2) exampleFiles))
     = Z.min 2 3.
Proof.
  pose proof (selectFiles_sorted_bounded
                insertionEngine exactMatch
                (mkRepoConfig ["src/a.js"] 2) exampleFiles) as H.
  cbv zeta in H. destruct H as (_ & _ & Hcut & _ & _ & Hlen).
  split.
  - apply Hcut. cbn. lia.
  - apply Hlen. cbn. lia.
Defined.

(** ** The owner lookup *)

Section LookupFacts.
Variable Entry : Type.
Variable entry_path : Entry -> string.
Variable pathInfo : list Entry.

Lemma lastSeenPath_last (files : list FileInfo) (file : FileInfo) :
  lastSeenPath (files ++ [file]) = Some (path file).
Proof. unfold lastSeenPath. now rewrite fold_left_app. Qed.

Lemma getPathInfo_app (files : list FileInfo) (file : FileInfo) :
  getPathInfo entry_path pathInfo (files ++ [file])
  = getPathInfo entry_path pathInfo [file].
Proof. unfold getPathInfo. now rewrite lastSeenPath_last. Qed.

Lemma getPathInfo_nil :
  getPathInfo entry_path pathInfo [] = Throw TypeError.
Proof. reflexivity. Qed.

(** The loop of the lookup stops before its fuel does. *)
Lemma searchLoop_fuel (fuel : nat) :
  forall fuel' splitPath filteredPathInfo foundMatch,
    (List.length splitPath < fuel)%nat ->
    (List.length splitPath < fuel')%nat ->
    searchLoop entry_path pathInfo fuel splitPath filteredPathInfo foundMatch
    = searchLoop entry_path pathInfo fuel' splitPath filteredPathInfo
                 foundMatch.
Proof.
  induction fuel as [|fuel IH];
    intros [|fuel'] splitPath filteredPathInfo foundMatch H H'; try lia.
  cbn [searchLoop].
  destruct (negb foundMatch && (0 <? List.length splitPath)%nat) eqn:Hc;
    [|reflexivity].
  apply andb_true_iff in Hc as [_ Hc]. apply Nat.ltb_lt in Hc.
  destruct (forEachEntry entry_path pathInfo (removelast splitPath)
                         (filteredPathInfo, foundMatch)) as [fi fm].
  assert (List.length (removelast splitPath) < List.length splitPath)%nat.
  { rewrite removelast_firstn_len, length_firstn. lia. }
  apply IH; lia.
Qed.
End LookupFacts.

(** C4. The owner lookup reads the last file of the list only: on a list
    that is not empty its result is the one of the list made of the last
    file alone, whatever the other files are. *)
Theorem getPathInfo_last_file
        (Entry : Type) (entry_path : Entry -> string) (pathInfo : list Entry)
        (files : list FileInfo) (d : FileInfo) :
  files <> [] ->
  getPathInfo entry_path pathInfo files
  = getPathInfo entry_path pathInfo [last files d].
Proof.
  intros Hne. destruct (exists_last Hne) as (files' & file & ->).
  rewrite last_last. apply getPathInfo_app.
Qed.

Lemma getPathInfo_last_file_witness :
  getPathInfo fst examplePathInfo exampleFiles
  = getPathInfo fst examplePathInfo [mkFileInfo "src/c.js" []].
Proof.
  apply (getPathInfo_last_file fst examplePathInfo
                               (files := exampleFiles) (mkFileInfo "" [])).
  discriminate.
Defined.

(** ** The empty selection *)

Section EmptySelection.
Variable engine : ArraySort.
Variable minimatch : string -> string -> bool.
Variable Entry : Type.
Variable entry_path : Entry -> string.
Variable pathInfo : list Entry.

Lemma checkRepoPath_empty_selection (diff : string) (repoConfig : RepoConfig)
      (files : list FileInfo) :
  parseDiff diff = Ok files ->
  selectFiles engine minimatch repoConfig files = [] ->
  checkRepoPath engine minimatch entry_path pathInfo diff repoConfig
  = Throw TypeError.
Proof.
  intros Hp Hs. unfold checkRepoPath. rewrite Hp. cbn [bind].
  rewrite Hs. reflexivity.
Qed.

Lemma selectFiles_nil (repoConfig : RepoConfig) :
  selectFiles engine minimatch repoConfig [] = [].
Proof.
  pose proof (selectFiles_subseq engine minimatch repoConfig []) as H.
  rewrite (Permutation_nil (Permutation_sym (sortWith_perm engine []))) in H.
  inversion H. reflexivity.
Qed.

Lemma selectFiles_cap_zero (repoConfig : RepoConfig)
      (files : list FileInfo) :
  numFilesToCheck repoConfig = 0 ->
  selectFiles engine minimatch repoConfig files = [].
Proof. intros H. unfold selectFiles. rewrite H. apply slice0_zero. Qed.

Lemma selectFiles_all_blacklisted (repoConfig : RepoConfig)
      (files : list FileInfo) :
  (forall file, In file files ->
                blacklisted minimatch (fileBlacklist repoConfig) file = true) ->
  selectFiles engine minimatch repoConfig files = [].
Proof.
  intros Hall. rewrite selectFiles_spec. unfold select_spec. cbv zeta.
  replace (filter _ (sortWith engine files)) with (@nil FileInfo);
    [destruct (numFilesToCheck repoConfig); reflexivity|].
  symmetry.
  assert (Hs : forall file, In file (sortWith engine files) ->
                            blacklisted minimatch (fileBlacklist repoConfig)
                                        file = true).
  { intros file Hin. apply Hall.
    eapply Permutation_in; [apply sortWith_perm | exact Hin]. }
  induction (sortWith engine files) as [|file l IH]; cbn; [reflexivity|].
  rewrite (Hs file) by now left. cbn. apply IH.
  intros f Hf. apply Hs. now right.
Qed.
End EmptySelection.

(** C10. On an empty list of files the owner lookup throws a [TypeError]:
    it reads a property of the path that no file has set.  So does
    [checkRepoPath] whenever the selection is empty: when the diff text is
    empty or is not recognized, when the cap on the files is 0, when every
    file of the diff matches a glob of the blacklist. *)
Theorem empty_selection_throws
        (engine : ArraySort) (minimatch : string -> string -> bool)
        (Entry : Type) (entry_path : Entry -> string) (pathInfo : list Entry) :
  getPathInfo entry_path pathInfo [] = Throw TypeError
  /\ (forall diff repoConfig files,
         parseDiff diff = Ok files ->
         selectFiles engine minimatch repoConfig files = [] ->
         checkRepoPath engine minimatch entry_path pathInfo diff repoConfig
         = Throw TypeError)
  /\ (forall diff repoConfig,
         startsWith (firstLine diff) "diff" = false ->
         checkRepoPath engine minimatch entry_path pathInfo diff repoConfig
         = Throw TypeError)
  /\ (forall diff repoConfig files,
         parseDiff diff = Ok files ->
         numFilesToCheck repoConfig = 0 ->
         checkRepoPath engine minimatch entry_path pathInfo diff repoConfig
         = Throw TypeError)
  /\ (forall diff repoConfig files,
         parseDiff diff = Ok files ->
         (forall file,
             In file files ->
             blacklisted minimatch (fileBlacklist repoConfig) file = true) ->
         checkRepoPath engine minimatch entry_path pathInfo diff repoConfig
         = Throw TypeError).
Proof.
  repeat apply conj.
  - reflexivity.
  - apply checkRepoPath_empty_selection.
  - intros diff repoConfig H.
    eapply checkRepoPath_empty_selection with (files := []).
    + now apply parseDiff_unrecognized.
    + apply selectFiles_nil.
  - intros diff repoConfig files Hp Hcap.
    eapply checkRepoPath_empty_selection; [exact Hp|].
    now apply selectFiles_cap_zero.
  - intros diff repoConfig files Hp Hall.
    eapply checkRepoPath_empty_selection; [exact Hp|].
    now apply selectFiles_all_blacklisted.
Qed.

Lemma empty_selection_throws_witness :
  checkRepoPath insertionEngine exactMatch fst examplePathInfo
                "not a diff" (mkRepoConfig [] 5)
  = Throw TypeError
  /\ checkRepoPath insertionEngine exactMatch fst examplePathInfo
                   exampleDiff (mkRepoConfig [] 0)
     = Throw TypeError
  /\ checkRepoPath insertionEngine exactMatch fst examplePathInfo
                   exampleDiff (mkRepoConfig ["foo.js"] 5)
     = Throw TypeError.
Proof.
  pose proof (empty_selection_throws insertionEngine exactMatch
                                     fst examplePathInfo)
    as (_ & _ & Hdiff & Hcap & Hblack).
  repeat apply conj.
  - apply Hdiff. reflexivity.
  - apply Hcap with (files := [mkFileInfo "foo.js" [2]]); reflexivity.
  - apply Hblack with (files := [mkFileInfo "foo.js" [2]]); [reflexivity|].
    intros file [<-|[]]. reflexivity.
Defined.

(** ** The reviewer filters *)

(** C7. When no entry of the whitelist has [skipTeamPrs], the team stage
    resolves at once to the list of owners it was given: it has no [await],
    so against any gateway it makes no request. *)
Theorem filterOwnTeam_fast_path
        (users : list WhitelistUser) (owners : list string)
        (creator org : string) :
  existsb skipTeamPrs users = false ->
  filterOwnTeam users owners creator org = Resolve owners
  /\ forall gw : Gateway,
      run gw (filterOwnTeam users owners creator org) = (Ok owners, []).
Proof.
  intros H. unfold filterOwnTeam. rewrite H. cbn [negb].
  split; [reflexivity|]. intros gw. reflexivity.
Qed.

Lemma filterOwnTeam_fast_path_witness :
  filterOwnTeam [mkWhitelistUser "core" [] false] ["a"; "b"] "a" "org"
  = Resolve ["a"; "b"]
  /\ run exampleGateway
         (filterOwnTeam [mkWhitelistUser "core" [] false] ["a"; "b"] "a" "org")
     = (Ok ["a"; "b"], []).
Proof.
  destruct (@filterOwnTeam_fast_path
              [mkWhitelistUser "core" [] false] ["a"; "b"] "a" "org" eq_refl)
    as [H1 H2].
  split; [exact H1 | exact (H2 exampleGateway)].
Defined.

(** C8. Both stages return their list of owners with some of them removed:
    a subsequence, nothing reordered, nothing added twice.  The stage of
    the organisation keeps the owners that are in the list of members it
    fetched, and no other; with the members [a] and [b] and the owners [a],
    [b] and [c] it returns [a] and [b]. *)
Theorem filters_remove_only :
  (forall gw users owners creator org kept calls,
      run gw (filterOwnTeam users owners creator org) = (Ok kept, calls) ->
      subseq kept owners /\ (NoDup owners -> NoDup kept))
  /\ (forall gw owners org kept calls,
         run gw (filterPrivateRepo owners org) = (Ok kept, calls) ->
         subseq kept owners
         /\ (NoDup owners -> NoDup kept)
         /\ exists members,
             getMembersOfOrg gw org 0 = Ok members
             /\ forall owner,
                 In owner kept <-> In owner owners /\ In owner members)
  /\ (forall gw org,
         getMembersOfOrg gw org 0 = Ok ["a"; "b"] ->
         run gw (filterPrivateRepo ["a"; "b"; "c"] org)
         = (Ok ["a"; "b"], [CallGetMembersOfOrg org 0])).
Proof.
  repeat apply conj.
  - intros gw users owners creator org kept calls H.
    assert (Hsub : subseq kept owners);
      [|split; [exact Hsub | now apply subseq_NoDup]].
    revert H. unfold filterOwnTeam.
    destruct (negb (existsb skipTeamPrs users)); cbn [run].
    + intros H. injection H as <- _. apply subseq_refl.
    + destruct (getTeams gw org 0) as [teams|e]; [|discriminate].
      destruct (promiseAll _ _) as [memberships|e]; [|discriminate].
      intros H. injection H as <- _. apply subseq_filter.
  - intros gw owners org kept calls. unfold filterPrivateRepo. cbn [run].
    destruct (getMembersOfOrg gw org 0) as [members|e]; [|discriminate].
    intros H. injection H as <- _. split; [apply subseq_filter|].
    split; [apply subseq_NoDup, subseq_filter|].
    exists members. split; [reflexivity|]. intros owner.
    rewrite filter_In, existsb_exists. split.
    + intros [Hin (member & Hm & Heq)]. apply String.eqb_eq in Heq.
      subst member. auto.
    + intros [Hin Hm]. split; [exact Hin|]. exists owner.
      split; [exact Hm | apply String.eqb_refl].
  - intros gw org H. unfold filterPrivateRepo. cbn [run]. rewrite H.
    reflexivity.
Qed.

Lemma filters_remove_only_witness :
  subseq ["b"] ["a"; "b"]
  /\ run exampleGateway (filterPrivateRepo ["a"; "b"; "c"] "org")
     = (Ok ["a"; "b"], [CallGetMembersOfOrg "org" 0]).
Proof.
  pose proof filters_remove_only as (Hteam & _ & Horg).
  split.
  - apply (Hteam exampleGateway [mkWhitelistUser "core" [] true]
                 ["a"; "b"] "a" "org" ["b"]
                 [CallGetTeams "org" 0;
                  CallGetTeamMembership "a" (mkTeamData "core" 1)]
                 eq_refl).
  - apply Horg. reflexivity.
Defined.

(** * Further properties of the code *)

(** ** [startsWith] *)

(** X1. [startsWith(str, start)] holds exactly when [str] is [start]
    followed by some text; in particular every string starts with the empty
    string and a string shorter than [start] does not start with it. *)
Theorem startsWith_iff_prefix (str start : string) :
  startsWith str start = true <-> exists rest, str = (start ++ rest)%string.
Proof.
  split.
  - apply startsWith_split.
  - intros [rest ->]. apply startsWith_app.
Qed.

(** ** What a block consumes *)

Lemma hunkLoop_suffix (lines : list string) :
  forall cursor deleted,
  exists consumed,
    lines = consumed ++ snd (hunkLoop lines cursor deleted).
Proof.
  induction lines as [|line lines IH]; intros cursor deleted;
    cbn [hunkLoop].
  - exists []. reflexivity.
  - destruct (startsWith line "diff --git"); [exists []; reflexivity|].
    destruct (startsWith line "@@").
    + destruct (hunkHeader line) as [from_line|].
      * destruct (IH (toNumber from_line) deleted) as [consumed H].
        exists (line :: consumed). cbn. now rewrite <- H.
      * destruct (IH cursor deleted) as [consumed H].
        exists (line :: consumed). cbn. now rewrite <- H.
    + match goal with
      | |- context [hunkLoop lines ?c ?d] =>
          destruct (IH c d) as [consumed H]
      end.
      exists (line :: consumed). cbn. now rewrite <- H.
Qed.

Lemma parseBody_suffix (fromFile : string) (lines rest : list string)
      (file : FileInfo) :
  parseBody fromFile lines = Ok (file, rest) ->
  path file = fromFile /\ exists consumed, lines = consumed ++ rest.
Proof.
  unfold parseBody. destruct lines as [|line lines]; cbn [pop].
  - intros H. injection H as <- <-. split; [reflexivity | now exists []].
  - destruct (String.eqb line "");
      [intros H; injection H as <- <-; split;
       [reflexivity | now exists [line]]|].
    destruct (startsWith line "diff --git");
      [intros H; injection H as <- <-; split;
       [reflexivity | now exists []]|].
    destruct (startsWith line "Binary files");
      [intros H; injection H as <- <-; split;
       [reflexivity | now exists [line]]|].
    destruct (startsWith line "--- ");
      [|intros H; injection H as <- <-; split;
        [reflexivity | now exists [line]]].
    destruct lines as [|line' lines]; cbn [pop]; [discriminate|].
    destruct (negb (test re_plus_plus_plus line')); [discriminate|].
    destruct (hunkLoop_suffix lines 0 []) as [consumed Hc].
    destruct (hunkLoop lines 0 []) as [deleted rest'].
    intros H. injection H as <- <-. split; [reflexivity|].
    exists (line :: line' :: consumed). cbn in *. now rewrite <- Hc.
Qed.

Lemma parseDiffFile_front (lines rest : list string) (file : FileInfo) :
  parseDiffFile lines = Ok (file, rest) ->
  exists header consumed,
    lines = header :: consumed ++ rest
    /\ consumed <> []
    /\ startsWith header "diff --git a/" = true
    /\ path file = fromFileOf header.
Proof.
  unfold parseDiffFile, re_diff_git_a.
  destruct lines as [|header lines]; cbn [pop]; [discriminate|].
  rewrite test_lit.
  destruct (startsWith header "diff --git a/") eqn:Hh; cbn [negb];
    [|discriminate].
  destruct lines as [|line lines]; cbn [pop]; [discriminate|].
  destruct (startsWith line "deleted file" || startsWith line "new file").
  - destruct lines as [|index lines]; cbn [pop]; intros H;
      apply parseBody_suffix in H as [Hp [consumed Hc]].
    + exists header, [line]. destruct consumed; [|discriminate].
      cbn in Hc. subst rest. repeat split; auto. discriminate.
    + exists header, (line :: index :: consumed). rewrite Hc.
      repeat split; auto. discriminate.
  - intros H. apply parseBody_suffix in H as [Hp [consumed Hc]].
    exists header, (line :: consumed). rewrite Hc.
    repeat split; auto. discriminate.
Qed.

(** X2. A call of [parseDiffFile] that returns has read a first line that
    starts with [diff --git a/], from which the path of its record is taken,
    and at least one more line; what it leaves in [lines] is the end of what
    it was given: it drops lines from the front only. *)
Theorem parseDiffFile_consumes (lines rest : list string) (file : FileInfo) :
  parseDiffFile lines = Ok (file, rest) ->
  exists header consumed,
    lines = header :: consumed ++ rest
    /\ consumed <> []
    /\ startsWith header "diff --git a/" = true
    /\ path file = fromFileOf header.
Proof. apply parseDiffFile_front. Qed.

Lemma parseDiffFile_consumes_witness :
  exists header consumed,
    linesOf binaryDiff = header :: consumed ++ []
    /\ consumed <> []
    /\ startsWith header "diff --git a/" = true
    /\ path (mkFileInfo "x.png" []) = fromFileOf header.
Proof.
  apply (@parseDiffFile_consumes (linesOf binaryDiff) []
                                 (mkFileInfo "x.png" [])).
  reflexivity.
Defined.

(** X3. The loop of [parseDiff] ends on every text: each block that is
    parsed shortens [lines], so as many turns as the text has lines are
    enough, and further turns change nothing. *)
Theorem parseDiff_loop_terminates (diff : string) :
  exists r,
    forall fuel,
      (List.length (linesOf diff) <= fuel)%nat ->
      parseFiles fuel (linesOf diff) [] = Some r.
Proof.
  destruct (parseFiles_fuel (linesOf diff) [] (Nat.le_refl _))
    as (r & _ & Hmore).
  exists r. exact Hmore.
Qed.

(** ** The records of a diff *)

Lemma parseLoop_records (lines : list string) (acc : list FileInfo)
      (r : result (list FileInfo)) :
  parseLoop lines acc r ->
  forall files,
    r = Ok files ->
    exists new,
      files = acc ++ new
      /\ (2 * List.length new <= List.length lines)%nat
      /\ forall file,
          In file new ->
          exists header,
            In header lines
            /\ startsWith header "diff --git a/" = true
            /\ path file = fromFileOf header.
Proof.
  induction 1 as [acc | lines acc e Hne Hp
                  | lines rest acc file r Hne Hp Hl IH];
    intros files Hr.
  - injection Hr as <-. exists []. rewrite app_nil_r.
    repeat split; [cbn; lia | intros file []].
  - discriminate.
  - destruct (IH files Hr) as (new & -> & Hlen & Hpaths).
    apply parseDiffFile_front in Hp
      as (header & consumed & -> & Hc & Hh & Hpath).
    exists (file :: new). rewrite <- app_assoc. repeat split.
    + cbn [List.length]. rewrite List.length_app.
      destruct consumed; [congruence|].
      cbn [List.length]. lia.
    + intros f [<-|Hf].
      * exists header. repeat split; auto. now left.
      * destruct (Hpaths f Hf) as (h & Hin & Hh' & Hp').
        exists h. repeat split; auto. right. apply in_or_app. now right.
Qed.

(** X4. Every record of [parseDiff] comes from a line of the text that
    starts with [diff --git a/]: its path is the one taken from that line.
    Each record uses up two lines or more, so a text has at most half as
    many records as lines. *)
Theorem parseDiff_records_from_headers (diff : string)
        (files : list FileInfo) :
  parseDiff diff = Ok files ->
  (2 * List.length files <= List.length (linesOf diff))%nat
  /\ forall file,
      In file files ->
      exists header,
        In header (linesOf diff)
        /\ startsWith header "diff --git a/" = true
        /\ path file = fromFileOf header.
Proof.
  intros H. apply parseDiff_parseLoop in H as [[_ H]|[_ H]].
  - injection H as ->. split; [cbn; lia | intros file []].
  - destruct (parseLoop_records H eq_refl) as (new & Hnew & Hlen & Hpaths).
    cbn in Hnew. subst new. auto.
Qed.

Lemma parseDiff_records_from_headers_witness :
  (2 * List.length [mkFileInfo "foo.js" [2%Z]]
   <= List.length (linesOf exampleDiff))%nat
  /\ forall file,
      In file [mkFileInfo "foo.js" [2]] ->
      exists header,
        In header (linesOf exampleDiff)
        /\ startsWith header "diff --git a/" = true
        /\ path file = fromFileOf header.
Proof.
  apply (@parseDiff_records_from_headers exampleDiff). reflexivity.
Defined.

(** ** The lines of a hunk *)

(** X5. The loop over the hunks of a block reads the lines up to the first
    one that starts with [diff --git], which it leaves in [lines], and it
    records one number for each line read that starts with [-], after the
    numbers recorded before: no deletion is dropped and nothing else is
    recorded. *)
Theorem hunkLoop_records_each_minus (lines : list string) :
  forall cursor deleted,
  exists consumed new,
    lines = consumed ++ snd (hunkLoop lines cursor deleted)
    /\ fst (hunkLoop lines cursor deleted) = deleted ++ new
    /\ List.length new = countLines isMinusLine consumed
    /\ Forall (fun line => isDiffGit line = false) consumed
    /\ match snd (hunkLoop lines cursor deleted) with
       | [] => True
       | line :: _ => isDiffGit line = true
       end.
Proof.
  unfold countLines, isMinusLine, isDiffGit.
  induction lines as [|line lines IH]; intros cursor deleted;
    cbn [hunkLoop].
  - exists [], []. cbn [fst snd app List.length filter].
    rewrite app_nil_r. repeat split; constructor.
  - destruct (startsWith line "diff --git") eqn:Hd.
    { exists [], []. cbn [fst snd app List.length filter push].
      rewrite app_nil_r. repeat split; auto. }
    destruct (startsWith line "@@") eqn:Ha.
    + assert (Hm : startsWith line "-" = false).
      { destruct (startsWith line "-") eqn:Hm; [|reflexivity].
        rewrite (startsWith_other "@@" Hm eq_refl) in Ha. discriminate. }
      destruct (hunkHeader line) as [from_line|];
        [destruct (IH (toNumber from_line) deleted)
          as (consumed & new & Hc & Hf & Hn & Hall & Hr)
        |destruct (IH cursor deleted)
          as (consumed & new & Hc & Hf & Hn & Hall & Hr)];
        exists (line :: consumed), new; cbn [filter app]; rewrite Hm;
        repeat split; auto; now rewrite <- Hc.
    + match goal with
      | |- context [hunkLoop lines ?c ?d] =>
          destruct (IH c d) as (consumed & new & Hc & Hf & Hn & Hall & Hr)
      end.
      destruct (startsWith line "-") eqn:Hm.
      * exists (line :: consumed), (cursor :: new).
        cbn [filter app]. rewrite Hm. cbn [List.length].
        repeat split; auto; [now rewrite <- Hc|].
        rewrite Hf, <- app_assoc. reflexivity.
      * exists (line :: consumed), new. cbn [filter app]. rewrite Hm.
        repeat split; auto. now rewrite <- Hc.
Qed.

Lemma hunkLoop_sorted_from (lines : list string) :
  forall cursor deleted,
    Forall (fun line => isAtAt line = false) lines ->
    cursor + Z.of_nat (countLines (fun line => negb (isPlusLine line)) lines)
    <= 2 ^ 53 ->
    exists new,
      fst (hunkLoop lines cursor deleted) = deleted ++ new
      /\ StronglySorted Z.lt new
      /\ Forall (fun n =>
                   cursor <= n
                   < cursor
                     + Z.of_nat
                         (countLines (fun line => negb (isPlusLine line))
                                     lines))
                new.
Proof.
  unfold countLines, isPlusLine, isAtAt.
  induction lines as [|line lines IH]; intros cursor deleted Hall Hbound;
    cbn [hunkLoop].
  - exists []. cbn [fst]. rewrite app_nil_r. repeat split; constructor.
  - inversion Hall as [|? ? Ha Hall']; subst.
    destruct (startsWith line "diff --git") eqn:Hd.
    { exists []. cbn [fst]. rewrite app_nil_r. repeat split; constructor. }
    rewrite Ha. cbn [filter] in Hbound |- *.
    destruct (startsWith line "+") eqn:Hp; cbn [negb] in Hbound |- *.
    + assert (Hm : startsWith line "-" = false).
      { destruct (startsWith line "-") eqn:Hm; [|reflexivity].
        rewrite (startsWith_other "+" Hm eq_refl) in Hp. discriminate. }
      rewrite Hm. apply IH; assumption.
    + cbn [List.length] in Hbound |- *.
      rewrite increment_exact by lia.
      assert (Hbound' :
                cursor + 1
                + Z.of_nat
                    (List.length
                       (filter (fun line => negb (startsWith line "+")) lines))
                <= 2 ^ 53) by lia.
      destruct (startsWith line "-") eqn:Hm.
      * destruct (IH (cursor + 1) (deleted ++ [cursor]) Hall' Hbound')
          as (new & Hf & Hs & Hb).
        exists (cursor :: new). rewrite Hf, <- app_assoc.
        split; [reflexivity|]. split.
        -- constructor; [exact Hs|]. revert Hb. apply Forall_impl.
           intros n Hn. lia.
        -- constructor; [lia|]. revert Hb. apply Forall_impl.
           intros n Hn. lia.
      * destruct (IH (cursor + 1) deleted Hall' Hbound')
          as (new & Hf & Hs & Hb).
        exists new. split; [exact Hf|]. split; [exact Hs|].
        revert Hb. apply Forall_impl. intros n Hn. lia.
Qed.

(** X6. Between two hunk headers the numbers recorded go up, as long as
    the cursor stays in the range where a double counts by one: on lines
    none of which starts with [@@], and with the cursor plus the number of
    lines that do not start with [+] at most 2^53, the loop records, after
    the numbers recorded before, numbers in strictly increasing order, from
    the cursor on and less than the cursor plus that number of lines. *)
Theorem hunkLoop_increasing (lines : list string) (cursor : Z)
        (deleted : list Z) :
  Forall (fun line => isAtAt line = false) lines ->
  cursor + Z.of_nat (countLines (fun line => negb (isPlusLine line)) lines)
  <= 2 ^ 53 ->
  exists new,
    fst (hunkLoop lines cursor deleted) = deleted ++ new
    /\ StronglySorted Z.lt new
    /\ Forall (fun n =>
                 cursor <= n
                 < cursor
                   + Z.of_nat
                       (countLines (fun line => negb (isPlusLine line))
                                   lines))
              new.
Proof. apply hunkLoop_sorted_from. Qed.

Lemma hunkLoop_increasing_witness :
  exists new,
    fst (hunkLoop [" a"; "-b"; "+c"; "-d"; " e"] 10 [3]) = [3] ++ new
    /\ StronglySorted Z.lt new
    /\ Forall (fun n => 10 <= n < 10 + 4) new.
Proof.
  apply (@hunkLoop_increasing [" a"; "-b"; "+c"; "-d"; " e"] 10 [3]).
  - repeat constructor.
  - vm_compute. discriminate.
Defined.

(** X7. The lines that start with [+] do not count: the numbers recorded
    are the same with these lines taken out. *)
Theorem hunkLoop_ignores_additions (lines : list string) :
  forall cursor deleted,
    fst (hunkLoop (filter (fun line => negb (isPlusLine line)) lines)
                  cursor deleted)
    = fst (hunkLoop lines cursor deleted).
Proof.
  unfold isPlusLine.
  induction lines as [|line lines IH]; intros cursor deleted;
    [reflexivity|].
  cbn [filter]. destruct (startsWith line "+") eqn:Hp; cbn [negb].
  - cbn [hunkLoop].
    rewrite (startsWith_other "diff --git" Hp eq_refl).
    rewrite (startsWith_other "@@" Hp eq_refl).
    rewrite (startsWith_other "-" Hp eq_refl), Hp. cbn [negb]. apply IH.
  - cbn [hunkLoop]. rewrite Hp.
    destruct (startsWith line "diff --git"); [reflexivity|].
    destruct (startsWith line "@@"); [destruct (hunkHeader line)|];
      apply IH.
Qed.

(** ** The path of a block *)

Section GreedyFacts.
Variable A : Type.
Variable p : ascii -> bool.
Variable k : string -> option A.

(** When the continuation fails further on, the run stops here. *)
Lemma star_only_here (s : string) :
  (forall c s' t, s = String c s' -> isSuffix t s' -> k t = None) ->
  star p s k = k s.
Proof.
  induction s as [|c s IH]; intros Hfail; cbn [star]; [reflexivity|].
  destruct (p c); [|reflexivity].
  rewrite IH.
  - now rewrite (Hfail c s s eq_refl (isSuffix_here s)).
  - intros c' s' t -> Ht. apply (Hfail c (String c' s') t eq_refl).
    now constructor.
Qed.

Lemma star_longest (m s : string) (a : A) :
  allChars p m = true ->
  (forall c s' t, s = String c s' -> isSuffix t s' -> k t = None) ->
  k s = Some a ->
  star p (m ++ s)%string k = Some a.
Proof.
  intros Hm Hfail Hk. induction m as [|c m IH]; cbn [append].
  - now rewrite star_only_here.
  - cbn in Hm. apply andb_true_iff in Hm as [Hc Hm].
    cbn [star]. now rewrite Hc, (IH Hm).
Qed.

Lemma plus_longest (m s : string) (a : A) :
  m <> ""%string -> allChars p m = true ->
  (forall c s' t, s = String c s' -> isSuffix t s' -> k t = None) ->
  k s = Some a ->
  plus p (m ++ s)%string k = Some a.
Proof.
  intros Hne Hm Hfail Hk. destruct m as [|c m]; [congruence|].
  cbn in Hm. apply andb_true_iff in Hm as [Hc Hm].
  cbn [append plus]. rewrite Hc. now apply star_longest.
Qed.
End GreedyFacts.

Lemma append_assoc3 (a b c : string) :
  ((a ++ b) ++ c)%string = (a ++ b ++ c)%string.
Proof. induction a as [|x a IH]; cbn; [reflexivity | now rewrite IH]. Qed.

Lemma append_empty (s : string) : (s ++ "")%string = s.
Proof. induction s as [|c s IH]; cbn; [reflexivity | now rewrite IH]. Qed.

Lemma noSeparator_suffix (q t : string) :
  isSuffix t q -> noSeparator q = true -> separatorAt t = false.
Proof.
  induction 1 as [s | c t s Ht IH]; intros Hq.
  - destruct s as [|c s]; [reflexivity|].
    cbn [noSeparator] in Hq. apply andb_true_iff in Hq as [Hq _].
    now apply negb_true_iff in Hq.
  - cbn [noSeparator] in Hq. apply andb_true_iff in Hq as [_ Hq]. auto.
Qed.

(** X8. The path of a record is the first of the two paths of the header:
    on a line [diff --git a/<p> b/<q>] where [<p>] and [<q>] are not empty
    and hold no line terminator, and where [<q>] does not hold [ b/] before
    its last three characters, the path taken is [<p>]. *)
Theorem fromFileOf_first_path (p q : string) :
  p <> ""%string -> allChars dot p = true ->
  q <> ""%string -> allChars dot q = true ->
  noSeparator q = true ->
  fromFileOf ("diff --git a/" ++ p ++ " b/" ++ q) = p.
Proof.
  intros Hp Hpd Hq Hqd Hsep. unfold fromFileOf.
  assert (exec re_from_file ("diff --git a/" ++ p ++ " b/" ++ q)
          = Some ([Some p], ""%string)) as ->;
    [|apply append_empty].
  unfold exec, re_from_file. rewrite rmatch_seq_lit. cbn [rmatch].
  apply plus_longest; auto.
  - intros c s' t Hs Ht.
    assert (Hts : startsWith t " b/" = false \/ isSuffix t q).
    { change (" b/" ++ q)%string
        with (String " " (String "b" (String "/" q))) in Hs.
      injection Hs as <- <-.
      inversion Ht as [|? ? ? Ht1]; subst; [now left|].
      inversion Ht1 as [|? ? ? Ht2]; subst; [now left|].
      now right. }
    destruct Hts as [Hts | Hts]; [now apply rmatch_lit_fail|].
    destruct (startsWith t " b/") eqn:Hb; [|now apply rmatch_lit_fail].
    apply startsWith_split in Hb as [t' ->]. rewrite rmatch_lit_app.
    apply (noSeparator_suffix Hts) in Hsep.
    destruct t'; [reflexivity | discriminate].
  - rewrite consumed_app, rmatch_lit_app. cbn [app].
    rewrite <- (append_empty q) at 1. apply plus_run; auto.
Qed.

Lemma fromFileOf_first_path_witness :
  fromFileOf ("diff --git a/" ++ "src/lib b/x.js" ++ " b/" ++ "src/lib b/")
  = "src/lib b/x.js".
Proof.
  apply (@fromFileOf_first_path "src/lib b/x.js" "src/lib b/");
    try reflexivity; discriminate.
Defined.

(** ** White space around the text *)

Lemma trimStart_blank (ws : string) :
  allChars isWhiteSpace ws = true -> trimStart ws = ""%string.
Proof.
  induction ws as [|c ws IH]; cbn [allChars trimStart]; [reflexivity|].
  intros H. apply andb_true_iff in H as [Hc Hws]. rewrite Hc. auto.
Qed.

Lemma trimEnd_blank (ws : string) :
  allChars isWhiteSpace ws = true -> trimEnd ws = ""%string.
Proof.
  induction ws as [|c ws IH]; cbn [allChars trimEnd]; [reflexivity|].
  intros H. apply andb_true_iff in H as [Hc Hws].
  now rewrite (IH Hws), Hc.
Qed.

Lemma trimEnd_app_blank (s ws : string) :
  allChars isWhiteSpace ws = true -> trimEnd (s ++ ws) = trimEnd s.
Proof.
  intros Hws. induction s as [|c s IH]; cbn [append trimEnd].
  - now apply trimEnd_blank.
  - now rewrite IH.
Qed.

Lemma trim_app_blank (s ws : string) :
  allChars isWhiteSpace ws = true -> trim (s ++ ws) = trim s.
Proof.
  intros Hws. unfold trim. induction s as [|c s IH]; cbn [append trimStart].
  - now rewrite trimStart_blank.
  - destruct (isWhiteSpace c); [exact IH|].
    change (String c (s ++ ws)) with (String c s ++ ws)%string.
    now apply trimEnd_app_blank.
Qed.

(** A word without white space is not completed by white space. *)
Lemma startsWith_app_blank (p s ws : string) :
  allChars (fun c => negb (isWhiteSpace c)) p = true ->
  allChars isWhiteSpace ws = true ->
  startsWith (s ++ ws) p = startsWith s p.
Proof.
  intros Hp Hws. revert s. induction p as [|d p IH]; intros s.
  - now rewrite !startsWith_nil.
  - cbn [allChars] in Hp. apply andb_true_iff in Hp as [Hd Hp].
    apply negb_true_iff in Hd.
    destruct s as [|c s]; cbn [append].
    + destruct ws as [|c ws]; [reflexivity|].
      cbn [allChars] in Hws. apply andb_true_iff in Hws as [Hc _].
      rewrite startsWith_cons.
      destruct (Ascii.eqb_spec c d) as [->|_]; [congruence | reflexivity].
    + now rewrite !startsWith_cons, (IH Hp).
Qed.

(** X9. White space after the text does not count: [parseDiff] returns
    the same for a text and for the text followed by spaces, tabulations or
    line ends.  White space before it does: a text that starts with a
    white space character is not recognized, and yields the empty
    sequence. *)
Theorem parseDiff_surrounding_blank :
  (forall diff ws,
      allChars isWhiteSpace ws = true ->
      parseDiff (diff ++ ws) = parseDiff diff)
  /\ (forall c diff,
         isWhiteSpace c = true -> parseDiff (String c diff) = Ok []).
Proof.
  split.
  - intros diff ws Hws. unfold parseDiff.
    rewrite !recognized_diff, startsWith_app_blank by auto.
    unfold linesOf. now rewrite trim_app_blank.
  - intros c diff Hc. unfold parseDiff. rewrite recognized_diff.
    rewrite startsWith_cons.
    destruct (Ascii.eqb_spec c "d") as [->|_]; [discriminate | reflexivity].
Qed.

Lemma parseDiff_surrounding_blank_witness :
  parseDiff (exampleDiff ++ nl ++ "  " ++ nl) = parseDiff exampleDiff
  /\ parseDiff (String " " exampleDiff) = Ok [].
Proof.
  split.
  - apply (proj1 parseDiff_surrounding_blank). reflexivity.
  - apply (proj2 parseDiff_surrounding_blank). reflexivity.
Defined.

(** ** Texts put end to end *)

Lemma hunkLoop_app (lines : list string) (next : string)
      (more : list string) :
  startsWith next "diff --git" = true ->
  forall cursor deleted,
    hunkLoop (lines ++ next :: more) cursor deleted
    = (fst (hunkLoop lines cursor deleted),
       snd (hunkLoop lines cursor deleted) ++ next :: more).
Proof.
  intros Hn. induction lines as [|line lines IH]; intros cursor deleted;
    cbn [app hunkLoop].
  - now rewrite Hn.
  - destruct (startsWith line "diff --git"); [reflexivity|].
    destruct (startsWith line "@@"); [destruct (hunkHeader line)|];
      apply IH.
Qed.

Lemma parseBody_app (fromFile : string) (lines rest : list string)
      (file : FileInfo) (next : string) (more : list string) :
  startsWith next "diff --git" = true ->
  parseBody fromFile lines = Ok (file, rest) ->
  parseBody fromFile (lines ++ next :: more)
  = Ok (file, rest ++ next :: more).
Proof.
  intros Hn. unfold parseBody. destruct lines as [|line lines];
    cbn [app pop].
  - intros H. injection H as <- <-. rewrite Hn.
    destruct next; [discriminate | reflexivity].
  - destruct (String.eqb line "");
      [intros H; injection H as <- <-; reflexivity|].
    destruct (startsWith line "diff --git");
      [intros H; injection H as <- <-; reflexivity|].
    destruct (startsWith line "Binary files");
      [intros H; injection H as <- <-; reflexivity|].
    destruct (startsWith line "--- ");
      [|intros H; injection H as <- <-; reflexivity].
    destruct lines as [|line' lines]; cbn [app pop]; [discriminate|].
    destruct (negb (test re_plus_plus_plus line')); [discriminate|].
    rewrite hunkLoop_app by exact Hn.
    destruct (hunkLoop lines 0 []) as [deleted rest'].
    intros H. injection H as <- <-. reflexivity.
Qed.

Lemma parseDiffFile_app (lines rest : list string) (file : FileInfo)
      (next : string) (more : list string) :
  startsWith next "diff --git" = true ->
  isModeLine (last lines "") = false ->
  parseDiffFile lines = Ok (file, rest) ->
  parseDiffFile (lines ++ next :: more) = Ok (file, rest ++ next :: more).
Proof.
  intros Hn Hlast. unfold parseDiffFile.
  destruct lines as [|header lines]; cbn [app pop]; [discriminate|].
  destruct (negb (test re_diff_git_a header)); [discriminate|].
  destruct lines as [|line lines]; cbn [app pop]; [discriminate|].
  fold (isModeLine line). destruct (isModeLine line) eqn:Hm.
  - destruct lines as [|index lines]; cbn [app pop].
    + cbn in Hlast. congruence.
    + now apply parseBody_app.
  - now apply parseBody_app.
Qed.

Lemma last_append (A : Type) (l l' : list A) (d : A) :
  l' <> [] -> last (l ++ l') d = last l' d.
Proof.
  intros Hne. induction l as [|x l IH]; [reflexivity|].
  cbn [app last]. rewrite IH.
  destruct (l ++ l') eqn:H; [|reflexivity].
  apply app_eq_nil in H as [_ H]. congruence.
Qed.

Lemma parseLoop_app (l1 : list string) (acc : list FileInfo)
      (r1 : result (list FileInfo)) :
  parseLoop l1 acc r1 ->
  forall files next more r,
    r1 = Ok files ->
    startsWith next "diff --git" = true ->
    isModeLine (last l1 "") = false ->
    parseLoop (next :: more) files r ->
    parseLoop (l1 ++ next :: more) acc r.
Proof.
  induction 1 as [acc | lines acc e Hne Hp
                  | lines rest acc file r1 Hne Hp Hl IH];
    intros files next more r Hr Hn Hlast Hl2.
  - injection Hr as <-. exact Hl2.
  - discriminate.
  - apply parseLoop_next with (rest := rest ++ next :: more) (file := file).
    + destruct lines; [congruence | discriminate].
    + now apply parseDiffFile_app.
    + apply (IH files); auto.
      destruct rest as [|x rest]; [reflexivity|].
      apply parseDiffFile_front in Hp as (header & consumed & -> & _).
      rewrite app_comm_cons, last_append in Hlast by discriminate.
      exact Hlast.
Qed.

Lemma parseLoop_shift (lines : list string) (acc : list FileInfo)
      (r : result (list FileInfo)) :
  parseLoop lines acc r ->
  forall before,
    parseLoop lines (before ++ acc)
              (files <- r ;; Ok (before ++ files)).
Proof.
  induction 1 as [acc | lines acc e Hne Hp
                  | lines rest acc file r Hne Hp Hl IH];
    intros before; cbn [bind].
  - constructor.
  - now constructor.
  - eapply parseLoop_next; [exact Hne | exact Hp|].
    rewrite <- app_assoc. apply IH.
Qed.

Lemma split_cons (sep : ascii) (s : string) :
  exists w ws, split sep s = w :: ws.
Proof.
  induction s as [|c s (w & ws & IH)]; cbn [split]; [eauto|].
  destruct (Ascii.eqb c sep); [eauto|]. rewrite IH. eauto.
Qed.

Lemma split_app (sep : ascii) (a b : string) :
  split sep (a ++ String sep b) = split sep a ++ split sep b.
Proof.
  induction a as [|c a IH]; cbn [append split].
  - now rewrite Ascii.eqb_refl.
  - destruct (Ascii.eqb c sep); [now rewrite IH|].
    rewrite IH. destruct (split_cons sep a) as (w & ws & ->). reflexivity.
Qed.

Lemma split_first (s : string) : hd ""%string (split LF s) = firstLine s.
Proof.
  induction s as [|c s IH]; cbn [split firstLine]; [reflexivity|].
  destruct (Ascii.eqb c LF); [reflexivity|].
  destruct (split_cons LF s) as (w & ws & Hs). rewrite Hs in *.
  cbn in *. now rewrite IH.
Qed.

Lemma trimEnd_app (a b : string) :
  trimEnd b <> ""%string -> trimEnd (a ++ b) = (a ++ trimEnd b)%string.
Proof.
  intros Hb. induction a as [|c a IH]; cbn [append trimEnd]; [reflexivity|].
  rewrite IH. destruct (a ++ trimEnd b)%string eqn:H; [|reflexivity].
  destruct a; cbn in H; [congruence | discriminate].
Qed.

Lemma startsWith_trimEnd (p s : string) :
  allChars (fun c => negb (isWhiteSpace c)) p = true ->
  startsWith (trimEnd s) p = startsWith s p.
Proof.
  intros Hp. revert s. induction p as [|d p IH]; intros s.
  - now rewrite !startsWith_nil.
  - cbn [allChars] in Hp. apply andb_true_iff in Hp as [Hd Hp].
    apply negb_true_iff in Hd.
    destruct s as [|c s]; [reflexivity|]. cbn [trimEnd].
    rewrite startsWith_cons. specialize (IH Hp s).
    destruct (trimEnd s) as [|c' t].
    + destruct (isWhiteSpace c) eqn:Hc.
      * destruct (Ascii.eqb_spec c d) as [->|_]; [congruence | reflexivity].
      * now rewrite startsWith_cons, IH.
    + now rewrite startsWith_cons, IH.
Qed.

Lemma trimStart_word (s : string) (d : ascii) (p : string) :
  startsWith s (String d p) = true -> isWhiteSpace d = false ->
  trimStart s = s.
Proof.
  destruct s as [|c s]; [discriminate|]. rewrite startsWith_cons.
  intros H Hd. apply andb_true_iff in H as [H _].
  apply Ascii.eqb_eq in H. subst c. cbn [trimStart]. now rewrite Hd.
Qed.

(** X10. Two texts put end to end, with a line end between them, give the
    records of the first followed by the records of the second: when the
    first text is parsed without error, has no white space at its end and
    does not end on a [new file] or [deleted file] line, and the second
    starts with [diff --git].  An error of the second text is the error of
    the whole. *)
Theorem parseDiff_concat (d1 d2 : string) (files1 : list FileInfo) :
  startsWith d1 "diff" = true ->
  trim d1 = d1 ->
  isModeLine (last (linesOf d1) "") = false ->
  startsWith d2 "diff --git" = true ->
  parseDiff d1 = Ok files1 ->
  parseDiff (d1 ++ nl ++ d2)
  = (files2 <- parseDiff d2 ;; Ok (files1 ++ files2)).
Proof.
  intros H1 Ht1 Hlast H2 Hp1.
  assert (H2' : startsWith d2 "diff" = true).
  { apply startsWith_split in H2 as [rest ->]. reflexivity. }
  assert (Hlines : linesOf (d1 ++ nl ++ d2) = linesOf d1 ++ linesOf d2).
  { unfold linesOf, trim.
    rewrite (@trimStart_word d2 "d" "iff --git" H2 eq_refl).
    assert (Hd1 : trimStart d1 = d1) by exact (@trimStart_word d1 "d" "iff" H1 eq_refl).
    assert (Hs : trimStart (d1 ++ nl ++ d2) = (d1 ++ nl ++ d2)%string).
    { apply startsWith_split in H1 as [rest ->]. reflexivity. }
    rewrite Hs. change (nl ++ d2)%string with (String LF d2).
    change (String LF d2) with (nl ++ d2)%string.
    assert (He : trimEnd d2 <> ""%string).
    { intros He.
      pose proof (@startsWith_trimEnd "diff" d2 eq_refl) as Hw.
      rewrite He, H2' in Hw. discriminate. }
    rewrite <- append_assoc3, trimEnd_app, append_assoc3 by exact He.
    change (nl ++ trimEnd d2)%string with (String LF (trimEnd d2)).
    rewrite split_app. unfold trim in Ht1.
    rewrite Hd1 in Ht1 |- *. now rewrite Ht1. }
  apply parseDiff_parseLoop. right. split.
  { destruct (startsWith_split _ _ H1) as [rest ->].
    rewrite append_assoc3. apply startsWith_app. }
  rewrite Hlines.
  apply parseDiff_parseLoop in Hp1 as [[Hp1 _]|[_ Hp1]]; [congruence|].
  assert (Hp2 : parseLoop (linesOf d2) [] (parseDiff d2)).
  { pose proof (proj1 (parseDiff_parseLoop d2 (parseDiff d2)) eq_refl)
      as [[Hp2 _]|[_ Hp2]]; [congruence | exact Hp2]. }
  assert (Hhead : startsWith (hd ""%string (linesOf d2)) "diff --git" = true).
  { unfold linesOf. rewrite split_first, startsWith_firstLine by reflexivity.
    unfold trim. rewrite (@trimStart_word d2 "d" "iff --git" H2 eq_refl).
    clear - H2. apply startsWith_split in H2 as [rest ->].
    change ("diff --git" ++ rest)%string
      with ("diff --gi" ++ String "t" rest)%string.
    rewrite trimEnd_app.
    - cbn [trimEnd]. destruct (trimEnd rest); reflexivity.
    - cbn [trimEnd]. destruct (trimEnd rest); discriminate. }
  destruct (linesOf d2) as [|next more]; [discriminate|]. cbn [hd] in Hhead.
  apply (parseLoop_app Hp1 (files := files1)); auto.
  pose proof (parseLoop_shift Hp2 files1) as Hshift.
  now rewrite app_nil_r in Hshift.
Qed.

Lemma parseDiff_concat_witness :
  parseDiff (exampleDiff ++ nl ++ binaryDiff)
  = Ok [mkFileInfo "foo.js" [2]; mkFileInfo "x.png" []].
Proof.
  apply (@parseDiff_concat exampleDiff binaryDiff [mkFileInfo "foo.js" [2]]);
    reflexivity.
Defined.

(** ** What the selection keeps *)

Lemma filter_perm (A : Type) (p : A -> bool) (l l' : list A) :
  Permutation l l' -> Permutation (filter p l) (filter p l').
Proof.
  induction 1 as [|x l l' H IH|x y l|l l' l'' H1 IH1 H2 IH2]; cbn.
  - constructor.
  - destruct (p x); [now constructor | exact IH].
  - destruct (p x), (p y); try reflexivity. apply perm_swap.
  - now transitivity (filter p l').
Qed.

Lemma StronglySorted_app_cross (A : Type) (R : A -> A -> Prop)
      (l1 l2 : list A) :
  StronglySorted R (l1 ++ l2) ->
  forall x y, In x l1 -> In y l2 -> R x y.
Proof.
  induction l1 as [|a l1 IH]; intros Hs x y Hx Hy; [destruct Hx|].
  cbn in Hs. inversion Hs as [|? ? Hs' Hall]; subst.
  destruct Hx as [<-|Hx].
  - rewrite Forall_forall in Hall. apply Hall, in_or_app. now right.
  - now apply IH.
Qed.

(** X11. The selection keeps the files with the most deleted lines: the
    files that match no glob are the selected ones together with the
    dropped ones, every selected file matches no glob and has at least as
    many deleted lines as every dropped one, and no file is dropped when the
    cap is not less than the number of files that match no glob. *)
Theorem selectFiles_keeps_largest
        (engine : ArraySort) (minimatch : string -> string -> bool)
        (repoConfig : RepoConfig) (files : list FileInfo) :
  let selected := selectFiles engine minimatch repoConfig files in
  let kept :=
    filter (fun file =>
              negb (blacklisted minimatch (fileBlacklist repoConfig) file))
           files in
  exists dropped,
    Permutation (selected ++ dropped) kept
    /\ (forall file,
           In file selected ->
           In file files
           /\ blacklisted minimatch (fileBlacklist repoConfig) file = false)
    /\ (forall file other,
           In file selected -> In other dropped ->
           (List.length (deletedLines other)
            <= List.length (deletedLines file))%nat)
    /\ (Z.of_nat (List.length kept) <= numFilesToCheck repoConfig ->
        dropped = []).
Proof.
  cbv zeta. rewrite selectFiles_spec. unfold select_spec. cbv zeta.
  set (nb := fun file =>
               negb (blacklisted minimatch (fileBlacklist repoConfig) file)).
  set (sorted := filter nb (sortWith engine files)).
  assert (Hperm : Permutation sorted (filter nb files))
    by apply filter_perm, sortWith_perm.
  assert (Hsorted : StronglySorted (fun a b => compareFn a b <= 0) sorted).
  { eapply subseq_StronglySorted;
      [apply subseq_filter | apply sortWith_sorted]. }
  unfold slice0. cbv zeta.
  set (k := Z.to_nat _).
  exists (skipn k sorted). repeat apply conj.
  - now rewrite firstn_skipn.
  - intros file Hin.
    assert (Hk : In file (filter nb files)).
    { eapply Permutation_in; [exact Hperm|].
      rewrite <- (firstn_skipn k sorted). apply in_or_app. now left. }
    apply filter_In in Hk as [Hf Hnb]. split; [exact Hf|].
    now apply negb_true_iff in Hnb.
  - intros file other Hf Ho. apply compareFn_le.
    rewrite <- (firstn_skipn k sorted) in Hsorted.
    eapply StronglySorted_app_cross with (R := fun a b => compareFn a b <= 0);
      eassumption.
  - intros Hcap. apply skipn_all2. subst k.
    rewrite <- (Permutation_length Hperm) in Hcap.
    destruct (Z.ltb_spec (numFilesToCheck repoConfig) 0); lia.
Qed.

Lemma selectFiles_keeps_largest_witness :
  exists dropped,
    Permutation
      (selectFiles insertionEngine exactMatch
                   (mkRepoConfig ["src/a.js"] 5) exampleFiles ++ dropped)
      (filter (fun file => negb (blacklisted exactMatch ["src/a.js"] file))
              exampleFiles)
    /\ dropped = [].
Proof.
  destruct (selectFiles_keeps_largest insertionEngine exactMatch
              (mkRepoConfig ["src/a.js"] 5) exampleFiles)
    as (dropped & Hperm & _ & _ & Hnone).
  exists dropped. split; [exact Hperm|]. apply Hnone. cbn. lia.
Defined.

(** X12. The selection depends on the blacklist as a set of globs: two
    blacklists with the same globs, in any order and any number of times,
    select the same files. *)
Theorem selectFiles_blacklist_as_set
        (engine : ArraySort) (minimatch : string -> string -> bool)
        (globs globs' : list string) (cap : Z) (files : list FileInfo) :
  (forall glob, In glob globs <-> In glob globs') ->
  selectFiles engine minimatch (mkRepoConfig globs cap) files
  = selectFiles engine minimatch (mkRepoConfig globs' cap) files.
Proof.
  intros Hsame. rewrite !selectFiles_spec. unfold select_spec.
  cbn [fileBlacklist numFilesToCheck]. f_equal. apply filter_ext.
  intros file. f_equal. unfold blacklisted.
  destruct (existsb _ globs) eqn:H1, (existsb _ globs') eqn:H2;
    try reflexivity.
  - apply existsb_exists in H1 as (glob & Hin & Hm).
    assert (existsb (fun glob => minimatch (path file) glob) globs' = true).
    { apply existsb_exists. exists glob. split; [now apply Hsame | exact Hm]. }
    congruence.
  - apply existsb_exists in H2 as (glob & Hin & Hm).
    assert (existsb (fun glob => minimatch (path file) glob) globs = true).
    { apply existsb_exists. exists glob. split; [now apply Hsame | exact Hm]. }
    congruence.
Qed.

Lemma selectFiles_blacklist_as_set_witness :
  selectFiles insertionEngine exactMatch
              (mkRepoConfig ["src/a.js"; "README.md"] 2) exampleFiles
  = selectFiles insertionEngine exactMatch
                (mkRepoConfig ["README.md"; "src/a.js"; "README.md"] 2)
                exampleFiles.
Proof.
  apply selectFiles_blacklist_as_set. intros glob. cbn. tauto.
Defined.

(** ** The directory that the lookup finds *)

Section DeepestDirectory.
Variable Entry : Type.
Variable entry_path : Entry -> string.
Variable pathInfo : list Entry.

Lemma forEachEntry_last (splitPath : list string) (state : PathInfo Entry * bool) :
  forEachEntry entry_path pathInfo splitPath state
  = match lastEntryAt entry_path pathInfo (join "/" splitPath ++ "/") with
    | Some entry => (EntryOf entry, true)
    | None => state
    end.
Proof.
  unfold forEachEntry, lastEntryAt.
  induction pathInfo as [|entry table IH] using rev_ind; [reflexivity|].
  rewrite fold_left_app, rev_app_distr. cbn [fold_left rev app find].
  destruct (String.eqb (entry_path entry) (join "/" splitPath ++ "/"));
    [reflexivity | exact IH].
Qed.

Lemma lastEntryAt_none (key : string) :
  (forall entry, In entry pathInfo -> entry_path entry <> key) ->
  lastEntryAt entry_path pathInfo key = None.
Proof.
  intros Hno. unfold lastEntryAt.
  destruct (find _ (rev pathInfo)) as [entry|] eqn:Hf; [|reflexivity].
  apply find_some in Hf as [Hin Heq]. apply String.eqb_eq in Heq.
  apply in_rev in Hin. now destruct (Hno entry Hin).
Qed.

Variable parts : list string.

Lemma searchLoop_step (j fuel : nat) (filteredPathInfo : PathInfo Entry) :
  (S j <= List.length parts)%nat ->
  searchLoop entry_path pathInfo (S fuel) (firstn (S j) parts)
             filteredPathInfo false
  = match lastEntryAt entry_path pathInfo (dirKey parts j) with
    | Some entry =>
        searchLoop entry_path pathInfo fuel (firstn j parts)
                   (EntryOf entry) true
    | None =>
        searchLoop entry_path pathInfo fuel (firstn j parts)
                   filteredPathInfo false
    end.
Proof.
  intros Hj. cbn [searchLoop negb andb].
  rewrite length_firstn, Nat.min_l by lia. cbn [Nat.ltb Nat.leb].
  rewrite removelast_firstn by lia. rewrite forEachEntry_last.
  unfold dirKey.
  destruct (lastEntryAt entry_path pathInfo _); reflexivity.
Qed.

Lemma searchLoop_found_already (fuel : nat) (splitPath : list string)
      (filteredPathInfo : PathInfo Entry) :
  searchLoop entry_path pathInfo fuel splitPath filteredPathInfo true
  = filteredPathInfo.
Proof. destruct fuel; reflexivity. Qed.

Lemma searchLoop_none (j : nat) :
  forall fuel filteredPathInfo,
    (j <= List.length parts)%nat -> (j < fuel)%nat ->
    (forall k, (k < j)%nat ->
               lastEntryAt entry_path pathInfo (dirKey parts k) = None) ->
    searchLoop entry_path pathInfo fuel (firstn j parts)
               filteredPathInfo false
    = filteredPathInfo.
Proof.
  induction j as [|j IH]; intros [|fuel] filteredPathInfo Hj Hfuel Hno;
    try lia.
  - reflexivity.
  - rewrite searchLoop_step by lia. rewrite (Hno j) by lia.
    apply IH; [lia | lia |]. intros k Hk. apply Hno. lia.
Qed.

Lemma searchLoop_found (j : nat) :
  forall fuel filteredPathInfo k entry,
    (j <= List.length parts)%nat -> (j < fuel)%nat -> (k < j)%nat ->
    lastEntryAt entry_path pathInfo (dirKey parts k) = Some entry ->
    (forall k', (k < k' < j)%nat ->
                lastEntryAt entry_path pathInfo (dirKey parts k') = None) ->
    searchLoop entry_path pathInfo fuel (firstn j parts)
               filteredPathInfo false
    = EntryOf entry.
Proof.
  induction j as [|j IH];
    intros [|fuel] filteredPathInfo k entry Hj Hfuel Hk Hat Hno; try lia.
  rewrite searchLoop_step by lia.
  destruct (Nat.eq_dec k j) as [->|Hne].
  - rewrite Hat. apply searchLoop_found_already.
  - rewrite (Hno j) by lia.
    apply IH with (k := k); auto; try lia.
    intros k' Hk'. apply Hno. lia.
Qed.
End DeepestDirectory.

(** X13. For a last file whose path holds a [/], the lookup goes up the
    directories of the path, the deepest first and the root, named [/],
    last: it returns the last entry of the table that names the deepest
    directory the table names, and the empty array when the table names none
    of them. *)
Theorem getPathInfo_deepest_directory
        (Entry : Type) (entry_path : Entry -> string) (pathInfo : list Entry)
        (files : list FileInfo) (file : FileInfo) :
  indexOf (path file) "/" <> -1 ->
  let parts := split "/" (path file) in
  (forall k entry,
      (k < List.length parts)%nat ->
      lastEntryAt entry_path pathInfo (dirKey parts k) = Some entry ->
      (forall k' other,
          (k < k' < List.length parts)%nat -> In other pathInfo ->
          entry_path other <> dirKey parts k') ->
      getPathInfo entry_path pathInfo (files ++ [file]) = Ok (EntryOf entry))
  /\ ((forall k other,
          (k < List.length parts)%nat -> In other pathInfo ->
          entry_path other <> dirKey parts k) ->
      getPathInfo entry_path pathInfo (files ++ [file]) = Ok EmptyArray).
Proof.
  intros Hslash parts. rewrite getPathInfo_app. unfold getPathInfo.
  cbn [lastSeenPath fold_left].
  destruct (Z.eqb_spec (indexOf (path file) "/") (-1)) as [Heq|_];
    [contradiction|].
  fold parts. split.
  - intros k entry Hk Hat Hno. f_equal.
    pose proof (@searchLoop_found
                  Entry entry_path pathInfo parts (List.length parts)
                  (S (List.length parts)) EmptyArray k entry
                  (Nat.le_refl _) (Nat.lt_succ_diag_r _) Hk Hat) as Hfound.
    rewrite firstn_all in Hfound. apply Hfound.
    intros k' Hk'. apply lastEntryAt_none. intros other. now apply Hno.
  - intros Hno. f_equal.
    pose proof (@searchLoop_none
                  Entry entry_path pathInfo parts (List.length parts)
                  (S (List.length parts)) EmptyArray
                  (Nat.le_refl _) (Nat.lt_succ_diag_r _)) as Hnone.
    rewrite firstn_all in Hnone. apply Hnone.
    intros k Hk. apply lastEntryAt_none. intros other. now apply Hno.
Qed.

Lemma getPathInfo_deepest_directory_witness :
  getPathInfo fst examplePathInfo
              ([mkFileInfo "README.md" [1]] ++ [mkFileInfo "lib/x/y.js" []])
  = Ok (EntryOf ("lib/", "bob")).
Proof.
  apply (proj1 (@getPathInfo_deepest_directory
                  _ fst examplePathInfo [mkFileInfo "README.md" [1]]
                  (mkFileInfo "lib/x/y.js" []) ltac:(discriminate)) 1%nat).
  - cbn. lia.
  - reflexivity.
  - intros k' other Hk' Hin. assert (k' = 2%nat) as -> by (cbn in Hk'; lia).
    cbn in Hin. destruct Hin as [<-|[<-|[<-|[]]]]; discriminate.
Defined.

(** ** The requests of the team stage *)

Lemma valuesOf_values (A B : Type) (f : A -> result B) (l : list A)
      (values : list B) :
  valuesOf (map f l) = Ok values ->
  Forall2 (fun x value => f x = Ok value) l values.
Proof.
  revert values. induction l as [|x l IH]; intros values; cbn [map valuesOf].
  - intros H. injection H as <-. constructor.
  - destruct (f x) as [value|e] eqn:Hx; cbn [bind]; [|discriminate].
    destruct (valuesOf (map f l)) as [rest|e]; cbn [bind]; [|discriminate].
    intros H. injection H as <-. constructor; auto.
Qed.

Lemma promiseAll_values (A B : Type) (f : A -> result B) (l : list A)
      (order : list nat) (values : list B) :
  promiseAll (map f l) order = Ok values ->
  Forall2 (fun x value => f x = Ok value) l values.
Proof.
  unfold promiseAll.
  destruct (firstRejection (map f l) order); [discriminate|].
  apply valuesOf_values.
Qed.

(** A rejection of the array is the rejection of one of its promises. *)
Lemma valuesOf_rejected (A B : Type) (f : A -> result B) (l : list A)
      (x : A) (e : exn) :
  In x l -> f x = Throw e ->
  exists y e', In y l /\ f y = Throw e' /\ valuesOf (map f l) = Throw e'.
Proof.
  induction l as [|y l IH]; intros Hin Hx; [destruct Hin|].
  cbn [map valuesOf]. destruct (f y) as [value|e'] eqn:Hy; cbn [bind].
  - destruct Hin as [->|Hin]; [congruence|].
    destruct (IH Hin Hx) as (z & e' & Hz & Hfz & ->). cbn [bind].
    exists z, e'. repeat split; auto. now right.
  - exists y, e'. repeat split; auto. now left.
Qed.

(** The first rejection along an order: the promises listed before it are
    not rejected. *)
Lemma firstRejection_some (A : Type) (promises : list (result A)) (e : exn) :
  forall order,
    firstRejection promises order = Some e ->
    exists before i after,
      order = before ++ i :: after
      /\ nth_error promises i = Some (Throw e)
      /\ forall j e', In j before -> nth_error promises j <> Some (Throw e').
Proof.
  induction order as [|i order IH]; cbn [firstRejection]; [discriminate|].
  intros H.
  destruct (nth_error promises i) as [[value|e0]|] eqn:Hi.
  - destruct (IH H) as (before & k & after & -> & Hk & Hbefore).
    exists (i :: before), k, after.
    repeat apply conj; [reflexivity | exact Hk |].
    intros j e' [<-|Hj]; [congruence | now apply Hbefore].
  - injection H as ->. exists [], i, order.
    repeat apply conj; [reflexivity | exact Hi |]. intros j e' [].
  - destruct (IH H) as (before & k & after & -> & Hk & Hbefore).
    exists (i :: before), k, after.
    repeat apply conj; [reflexivity | exact Hk |].
    intros j e' [<-|Hj]; [congruence | now apply Hbefore].
Qed.

Lemma firstRejection_none (A : Type) (promises : list (result A)) (e : exn) :
  forall order i,
    firstRejection promises order = None -> In i order ->
    nth_error promises i <> Some (Throw e).
Proof.
  induction order as [|k order IH]; cbn [firstRejection]; intros i H Hin;
    [destruct Hin|].
  destruct (nth_error promises k) as [[value|e0]|] eqn:Hk; try discriminate;
    (destruct Hin as [<-|Hin]; [congruence | now apply IH]).
Qed.

Lemma optedOut_iff (users : list WhitelistUser) (team : TeamData) :
  optedOut users team = true <->
  exists user,
    In user users /\ skipTeamPrs user = true
    /\ user_name user = team_name team.
Proof.
  unfold optedOut. rewrite existsb_exists. split.
  - intros (user & Hin & H). apply andb_true_iff in H as [Hs Hn].
    apply String.eqb_eq in Hn. eauto.
  - intros (user & Hin & Hs & Hn). exists user. split; [exact Hin|].
    rewrite Hs, Hn. apply String.eqb_refl.
Qed.

(** X14. When an entry of the whitelist has [skipTeamPrs] and the stage
    returns, it has listed the teams once and then asked, in the order of
    that list, for the membership of the author in each team that bears the
    name of such an entry, and in no other; it has asked nothing else.  An
    owner is kept exactly when no membership answered is active and bears
    the name of the owner. *)
Theorem filterOwnTeam_requests
        (gw : Gateway) (users : list WhitelistUser) (owners : list string)
        (creator org : string) (kept : list string) (calls : list Call) :
  existsb skipTeamPrs users = true ->
  run gw (filterOwnTeam users owners creator org) = (Ok kept, calls) ->
  exists teams memberships,
    getTeams gw org 0 = Ok teams
    /\ calls = CallGetTeams org 0
               :: map (CallGetTeamMembership creator)
                      (filter (optedOut users) teams)
    /\ (forall team,
           In team (filter (optedOut users) teams) <->
           In team teams
           /\ exists user,
               In user users /\ skipTeamPrs user = true
               /\ user_name user = team_name team)
    /\ Forall2 (fun team membership =>
                  getTeamMembership gw creator team = Ok membership)
               (filter (optedOut users) teams) memberships
    /\ forall owner,
        In owner kept <->
        In owner owners
        /\ ~ exists membership,
              In membership memberships
              /\ state membership = "active"%string
              /\ member_name membership = owner.
Proof.
  intros Hskip. unfold filterOwnTeam. rewrite Hskip. cbn [negb run].
  destruct (getTeams gw org 0) as [teams|e]; [|discriminate].
  fold (optedOut users).
  change (filter (fun team => existsb _ users) teams)
    with (filter (optedOut users) teams).
  destruct (promiseAll _ _) as [memberships|e] eqn:Hall; [|discriminate].
  intros H. injection H as <- <-.
  exists teams, memberships. repeat apply conj.
  - reflexivity.
  - now rewrite app_nil_r.
  - intros team. rewrite filter_In, optedOut_iff. reflexivity.
  - eapply promiseAll_values. exact Hall.
  - intros owner. rewrite filter_In. split.
    + intros [Hin Hkeep]. split; [exact Hin|].
      intros (membership & Hm & Hs & Hn).
      apply negb_true_iff in Hkeep.
      destruct (find _ _) as [found|] eqn:Hf; [discriminate|].
      assert (Hfalse : String.eqb owner (member_name membership) = false).
      { apply (find_none _ _ Hf membership).
        apply filter_In. split; [exact Hm|]. rewrite Hs. reflexivity. }
      rewrite Hn, String.eqb_refl in Hfalse. discriminate.
    + intros [Hin Hno]. split; [exact Hin|]. apply negb_true_iff.
      destruct (find _ _) as [found|] eqn:Hf; [|reflexivity].
      exfalso. apply Hno. apply find_some in Hf as [Hm Hn].
      apply filter_In in Hm as [Hm Hs].
      apply String.eqb_eq in Hs, Hn. exists found. auto.
Qed.

Lemma filterOwnTeam_requests_witness :
  exists teams memberships,
    getTeams exampleGateway "org" 0 = Ok teams
    /\ [CallGetTeams "org" 0;
        CallGetTeamMembership "a" (mkTeamData "core" 1)]
       = CallGetTeams "org" 0
         :: map (CallGetTeamMembership "a")
                (filter (optedOut [mkWhitelistUser "core" [] true]) teams)
    /\ Forall2 (fun team membership =>
                  getTeamMembership exampleGateway "a" team = Ok membership)
               (filter (optedOut [mkWhitelistUser "core" [] true]) teams)
               memberships.
Proof.
  destruct (@filterOwnTeam_requests
              exampleGateway [mkWhitelistUser "core" [] true] ["a"; "b"]
              "a" "org" ["b"]
              [CallGetTeams "org" 0;
               CallGetTeamMembership "a" (mkTeamData "core" 1)]
              eq_refl eq_refl)
    as (teams & memberships & Ht & Hc & _ & Hm & _).
  exists teams, memberships. auto.
Defined.

(** X15. A failure of the gateway is the failure of the stage, and no list
    of owners is returned.  When the listing of the teams fails, no
    membership is asked for.  When a membership request fails, the stage
    fails after it has asked for all of them, and it fails as one of the
    requests that failed: when the answers come in an order of all the
    requests, as the one that failed first, every request answered before
    it having succeeded.  The stage of the organisation makes its one
    request and fails as this request does. *)
Theorem filters_propagate_failures
        (gw : Gateway) (users : list WhitelistUser) (owners : list string)
        (creator org : string) :
  (forall e,
      existsb skipTeamPrs users = true ->
      getTeams gw org 0 = Throw e ->
      run gw (filterOwnTeam users owners creator org)
      = (Throw e, [CallGetTeams org 0]))
  /\ (forall teams team e,
         let asked := filter (optedOut users) teams in
         existsb skipTeamPrs users = true ->
         getTeams gw org 0 = Ok teams ->
         In team asked ->
         getTeamMembership gw creator team = Throw e ->
         exists first e',
           In first asked
           /\ getTeamMembership gw creator first = Throw e'
           /\ run gw (filterOwnTeam users owners creator org)
              = (Throw e',
                 CallGetTeams org 0 :: map (CallGetTeamMembership creator) asked)
           /\ (Permutation (settleOrder gw creator asked)
                           (seq 0 (List.length asked)) ->
               exists before i after,
                 settleOrder gw creator asked = before ++ i :: after
                 /\ nth_error asked i = Some first
                 /\ forall j answered,
                     In j before -> nth_error asked j = Some answered ->
                     exists membership,
                       getTeamMembership gw creator answered = Ok membership))
  /\ (forall e,
         getMembersOfOrg gw org 0 = Throw e ->
         run gw (filterPrivateRepo owners org)
         = (Throw e, [CallGetMembersOfOrg org 0])).
Proof.
  repeat apply conj.
  - intros e Hskip Ht. unfold filterOwnTeam. rewrite Hskip. cbn [negb run].
    now rewrite Ht.
  - intros teams team e asked Hskip Ht Hin Hm.
    unfold filterOwnTeam. rewrite Hskip. cbn [negb run]. rewrite Ht.
    change (filter (fun team => existsb _ users) teams) with asked.
    unfold promiseAll.
    destruct (firstRejection (map (getTeamMembership gw creator) asked)
                             (settleOrder gw creator asked))
      as [e0|] eqn:Hfirst.
    + apply firstRejection_some in Hfirst
        as (before & i & after & Horder & Hi & Hbefore).
      rewrite nth_error_map in Hi.
      destruct (nth_error asked i) as [first|] eqn:Hnth; [|discriminate].
      cbn [option_map] in Hi. injection Hi as Hi.
      exists first, e0. repeat apply conj.
      * eapply nth_error_In. exact Hnth.
      * exact Hi.
      * reflexivity.
      * intros _. exists before, i, after. repeat apply conj; auto.
        intros j answered Hj Hanswered.
        destruct (getTeamMembership gw creator answered)
          as [membership|e'] eqn:Ha; [eauto|].
        exfalso. apply (Hbefore j e' Hj).
        rewrite nth_error_map, Hanswered. cbn [option_map]. now rewrite Ha.
    + destruct (valuesOf_rejected (getTeamMembership gw creator) _ _ Hin Hm)
        as (first & e' & Hf & He' & ->).
      exists first, e'. repeat apply conj; auto.
      intros Hperm. exfalso.
      destruct (In_nth_error _ _ Hin) as [i Hi].
      apply (@firstRejection_none _ _ e _ i Hfirst).
      * eapply Permutation_in; [symmetry; exact Hperm|].
        apply in_seq. split; [lia|]. cbn [plus].
        apply nth_error_Some. congruence.
      * rewrite nth_error_map, Hi. cbn [option_map]. now rewrite Hm.
  - intros e Hm. unfold filterPrivateRepo. cbn [run]. now rewrite Hm.
Qed.

(** A gateway that lists two teams and refuses every other request; of two
    membership requests under way, the second is answered first. *)
Definition failingGateway : Gateway :=
  mkGateway
    (fun org page => Ok [mkTeamData "core" 1; mkTeamData "docs" 2])
    (fun creator teamInfo => Throw (Error ("403 " ++ team_name teamInfo)))
    (fun org page => Throw (Error "404"))
    (fun creator teams => rev (seq 0 (List.length teams))).

Lemma filters_propagate_failures_witness :
  (exists first e',
      In first [mkTeamData "core" 1; mkTeamData "docs" 2]
      /\ getTeamMembership failingGateway "a" first = Throw e'
      /\ run failingGateway
             (filterOwnTeam [mkWhitelistUser "docs" [] true;
                             mkWhitelistUser "core" [] true] ["a"] "a" "org")
         = (Throw e',
            [CallGetTeams "org" 0;
             CallGetTeamMembership "a" (mkTeamData "core" 1);
             CallGetTeamMembership "a" (mkTeamData "docs" 2)]))
  /\ run failingGateway
         (filterOwnTeam [mkWhitelistUser "docs" [] true;
                         mkWhitelistUser "core" [] true] ["a"] "a" "org")
     = (Throw (Error "403 docs"),
        [CallGetTeams "org" 0;
         CallGetTeamMembership "a" (mkTeamData "core" 1);
         CallGetTeamMembership "a" (mkTeamData "docs" 2)])
  /\ run failingGateway (filterPrivateRepo ["a"] "org")
     = (Throw (Error "404"), [CallGetMembersOfOrg "org" 0]).
Proof.
  pose proof (@filters_propagate_failures
                failingGateway
                [mkWhitelistUser "docs" [] true; mkWhitelistUser "core" [] true]
                ["a"] "a" "org") as (_ & Hmember & Horg).
  repeat apply conj.
  - destruct (Hmember [mkTeamData "core" 1; mkTeamData "docs" 2]
                      (mkTeamData "core" 1) (Error "403 core")
                      eq_refl eq_refl (or_introl eq_refl) eq_refl)
      as (first & e' & Hin & Hfirst & Hrun & _).
    exists first, e'. auto.
  - reflexivity.
  - apply Horg. reflexivity.
Defined.

(** ** The keys of the cache *)

Lemma cacheKeyOf_app (a b : string) :
  cacheKeyOf (a ++ b) = (cacheKeyOf a ++ cacheKeyOf b)%string.
Proof. induction a as [|c a IH]; cbn; [reflexivity | now rewrite IH]. Qed.

Lemma cacheKeyOf_keyChars (s : string) :
  allChars keyChar (cacheKeyOf s) = true.
Proof.
  induction s as [|c s IH]; cbn [cacheKeyOf allChars]; [reflexivity|].
  rewrite IH, andb_true_r. destruct (keyChar c) eqn:Hc; [exact Hc|].
  reflexivity.
Qed.

Lemma cacheKeyOf_fixed (s : string) :
  allChars keyChar s = true -> cacheKeyOf s = s.
Proof.
  induction s as [|c s IH]; cbn [cacheKeyOf allChars]; [reflexivity|].
  intros H. apply andb_true_iff in H as [Hc Hs]. now rewrite Hc, IH.
Qed.

Lemma allChars_no_index (p : ascii -> bool) (c : ascii) (s : string) :
  allChars p s = true -> p c = false ->
  String.index 0 (String c "") s = None.
Proof.
  intros Hs Hc.
  destruct (String.index 0 (String c "") s) as [m|] eqn:Hi; [|reflexivity].
  exfalso. apply String.index_correct1 in Hi. cbn [String.length] in Hi.
  clear - Hs Hc Hi. revert m Hi.
  induction s as [|d s IH]; intros m Hi.
  - destruct m; discriminate.
  - cbn [allChars] in Hs. apply andb_true_iff in Hs as [Hd Hs].
    destruct m as [|m]; cbn [substring] in Hi.
    + injection Hi as -> _. congruence.
    + now apply (IH Hs m).
Qed.

(** X16. A key of the cache is as long as the text it is made from, holds
    letters, digits, [-], [_] and [.] only, so no [/], and making a key from
    a key changes nothing. *)
Theorem cacheKeyOf_safe (s : string) :
  String.length (cacheKeyOf s) = String.length s
  /\ allChars keyChar (cacheKeyOf s) = true
  /\ indexOf (cacheKeyOf s) "/" = -1
  /\ cacheKeyOf (cacheKeyOf s) = cacheKeyOf s.
Proof.
  repeat apply conj.
  - induction s as [|c s IH]; cbn; [reflexivity | now rewrite IH].
  - apply cacheKeyOf_keyChars.
  - unfold indexOf.
    now rewrite (@allChars_no_index keyChar "/" _ (cacheKeyOf_keyChars s)).
  - apply cacheKeyOf_fixed, cacheKeyOf_keyChars.
Qed.

Lemma string_of_uint_keyChars (d : Decimal.uint) :
  allChars keyChar (NilEmpty.string_of_uint d) = true.
Proof. induction d; cbn [NilEmpty.string_of_uint allChars]; auto. Qed.

Lemma decimalText_keyChars (n : Z) :
  allChars keyChar (decimalText n) = true.
Proof.
  unfold decimalText. destruct (Z.to_int n) as [d|d];
    cbn [NilEmpty.string_of_int allChars]; apply string_of_uint_keyChars.
Qed.

Lemma decimalText_inj (n m : Z) : decimalText n = decimalText m -> n = m.
Proof.
  unfold decimalText. intros H. apply DecimalZ.to_int_inj.
  assert (Some (Z.to_int n) = Some (Z.to_int m)) as Hs
    by now rewrite <- !NilEmpty.isi, H.
  now injection Hs.
Qed.

Lemma append_inv_head (a x y : string) :
  (a ++ x)%string = (a ++ y)%string -> x = y.
Proof. induction a as [|c a IH]; cbn; [auto|]. intros H. injection H. auto. Qed.

Lemma append_inv_tail (x y c : string) :
  (x ++ c)%string = (y ++ c)%string -> x = y.
Proof.
  revert y. induction x as [|a x IH]; intros [|b y] H; cbn in H.
  - reflexivity.
  - exfalso. apply (f_equal String.length) in H. cbn in H.
    rewrite length_app in H. lia.
  - exfalso. apply (f_equal String.length) in H. cbn in H.
    rewrite length_app in H. lia.
  - injection H as -> H. f_equal. now apply IH.
Qed.

Lemma pullCacheKey_app (largeNumberToString : Z -> string)
      (repoURL : string) (id : Z) :
  pullCacheKey largeNumberToString repoURL id
  = (cacheKeyOf repoURL
       ++ cacheKeyOf ("-pull-" ++ numberToString largeNumberToString id
                               ++ ".diff"))%string.
Proof. unfold pullCacheKey. apply cacheKeyOf_app. Qed.

Lemma pullCacheKey_text (largeNumberToString : Z -> string)
      (repoURL : string) (id : Z) :
  isSafeInteger id = true ->
  pullCacheKey largeNumberToString repoURL id
  = (cacheKeyOf repoURL ++ "-pull-" ++ decimalText id ++ ".diff")%string.
Proof.
  intros Hid. rewrite pullCacheKey_app. f_equal.
  unfold numberToString. rewrite Hid.
  change ("-pull-" ++ decimalText id ++ ".diff")%string
    with (String "-" (String "p" (String "u" (String "l" (String "l"
            (String "-" (decimalText id ++ ".diff"))))))).
  cbn [cacheKeyOf]. rewrite cacheKeyOf_app.
  now rewrite (cacheKeyOf_fixed _ (decimalText_keyChars id)).
Qed.

(** X17. For a pull request whose number is a safe integer, the key of
    its diff is the key made from the address of the repository, followed by
    [-pull-], the decimal digits of the number and [.diff]; two such pull
    requests of one repository with different numbers have different keys,
    whereas two addresses that give the same key share the keys of all
    their pull requests. *)
Theorem pullCacheKey_shape (largeNumberToString : Z -> string) :
  (forall repoURL id,
      isSafeInteger id = true ->
      pullCacheKey largeNumberToString repoURL id
      = (cacheKeyOf repoURL ++ "-pull-" ++ decimalText id ++ ".diff")%string)
  /\ (forall repoURL id id',
         isSafeInteger id = true -> isSafeInteger id' = true ->
         id <> id' ->
         pullCacheKey largeNumberToString repoURL id
         <> pullCacheKey largeNumberToString repoURL id')
  /\ (forall repoURL repoURL' id,
         cacheKeyOf repoURL = cacheKeyOf repoURL' ->
         pullCacheKey largeNumberToString repoURL id
         = pullCacheKey largeNumberToString repoURL' id).
Proof.
  repeat apply conj.
  - intros repoURL id. apply pullCacheKey_text.
  - intros repoURL id id' Hid Hid' Hne H. apply Hne.
    rewrite !pullCacheKey_text in H by assumption.
    apply append_inv_head in H.
    change ("-pull-" ++ decimalText id ++ ".diff")%string
      with ("-pull-" ++ (decimalText id ++ ".diff"))%string in H.
    apply append_inv_head, append_inv_tail in H.
    now apply decimalText_inj.
  - intros repoURL repoURL' id H. now rewrite !pullCacheKey_app, H.
Qed.

Lemma pullCacheKey_shape_witness :
  pullCacheKey (fun _ => "Infinity"%string) "https://github.com/o/r" 7
  = "https---github.com-o-r-pull-7.diff"%string
  /\ pullCacheKey (fun _ => "Infinity"%string) "https://github.com/o/r" 7
     <> pullCacheKey (fun _ => "Infinity"%string) "https://github.com/o/r" 8
  /\ pullCacheKey (fun _ => "Infinity"%string) "https://github.com/o/r" 7
     = pullCacheKey (fun _ => "Infinity"%string) "https---github.com-o-r" 7.
Proof.
  pose proof (pullCacheKey_shape (fun _ => "Infinity"%string))
    as (Hshape & Hid & Hurl).
  repeat apply conj.
  - exact (Hshape "https://github.com/o/r" 7 eq_refl).
  - apply Hid; [reflexivity | reflexivity | discriminate].
  - apply Hurl. reflexivity.
Defined.

(** ** The owner and the repository of an address *)

Lemma split_noSlash (s : string) : noSlash s = true -> split "/" s = [s].
Proof.
  unfold noSlash. induction s as [|c s IH]; cbn [allChars split];
    [reflexivity|].
  intros H. apply andb_true_iff in H as [Hc Hs].
  apply negb_true_iff in Hc. now rewrite Hc, (IH Hs).
Qed.

Lemma sliceFrom_last_two (A : Type) (l : list A) (a b : A) :
  sliceFrom (l ++ [a; b]) (-2) = [a; b].
Proof.
  unfold sliceFrom. cbv zeta. cbn [Z.ltb Z.compare].
  rewrite List.length_app. cbn [List.length].
  replace (Z.to_nat (Z.max (Z.of_nat (List.length l + 2) + -2) 0))
    with (List.length l) by lia.
  now rewrite skipn_app, skipn_all, Nat.sub_diag.
Qed.

Lemma ownerAndRepoOf_parts (base owner repo : string) :
  noSlash owner = true -> noSlash repo = true ->
  ownerAndRepoOf (base ++ "/" ++ owner ++ "/" ++ repo) = [owner; repo].
Proof.
  intros Ho Hr. unfold ownerAndRepoOf.
  change ("/" ++ owner ++ "/" ++ repo)%string
    with (String "/" (owner ++ String "/" repo)).
  rewrite !split_app, (split_noSlash _ Ho), (split_noSlash _ Hr).
  apply sliceFrom_last_two.
Qed.

(** X18. The owner and the repository are the last two parts of the
    address: for an address [<base>/<owner>/<repo>] where [<owner>] and
    [<repo>] hold no [/] they are [<owner>] and [<repo>], so that an address
    with a [/] at its end has an empty repository.  An address without [/]
    gives one part only, and no repository. *)
Theorem ownerAndRepoOf_last_two :
  (forall base owner repo,
      noSlash owner = true -> noSlash repo = true ->
      ownerAndRepoOf (base ++ "/" ++ owner ++ "/" ++ repo) = [owner; repo])
  /\ (forall repoURL,
         noSlash repoURL = true ->
         ownerAndRepoOf repoURL = [repoURL]
         /\ nth_error (ownerAndRepoOf repoURL) 1 = None).
Proof.
  split.
  - apply ownerAndRepoOf_parts.
  - intros repoURL H. unfold ownerAndRepoOf.
    rewrite (split_noSlash _ H). split; reflexivity.
Qed.

Lemma ownerAndRepoOf_last_two_witness :
  ownerAndRepoOf ("https://github.com" ++ "/" ++ "o" ++ "/" ++ "r")
  = ["o"; "r"]
  /\ ownerAndRepoOf ("https://github.com/o" ++ "/" ++ "r" ++ "/" ++ "")
     = ["r"; ""]
  /\ ownerAndRepoOf "r" = ["r"].
Proof.
  pose proof ownerAndRepoOf_last_two as [Htwo Hone].
  repeat apply conj.
  - apply Htwo; reflexivity.
  - apply Htwo; reflexivity.
  - apply (Hone "r"). reflexivity.
Defined.

(** ** The requests of the entry point *)

Section HostFacts.
Variable W : Type.
Variable host : Host W.

Lemma runIO_bindIO (A B : Type) (p : IO A) (k : A -> IO B) :
  forall w,
    runIO host (bindIO p k) w
    = match runIO host p w with
      | (Ok a, ops, w1) =>
          let '(r, ops', w') := runIO host (k a) w1 in (r, ops ++ ops', w')
      | (Throw e, ops, w1) => (Throw e, ops, w1)
      end.
Proof.
  induction p as [a|e|path k' IH|path k' IH|path data k' IH
                  |name encoding k' IH|user repo number k' IH|args k' IH];
    intros w; cbn [bindIO runIO].
  - destruct (runIO host (k a) w) as [[r ops] w']. reflexivity.
  - reflexivity.
  - rewrite IH. destruct (runIO host (k' _) w) as [[[a|e] ops] w1];
      [destruct (runIO host (k a) w1) as [[r ops'] w']|]; reflexivity.
  - destruct (mkdir host path w) as [[[]|e] w0]; [|reflexivity].
    rewrite IH. destruct (runIO host k' w0) as [[[a|e] ops] w1];
      [destruct (runIO host (k a) w1) as [[r ops'] w']|]; reflexivity.
  - destruct (writeFileSync host path data w) as [[[]|e] w0]; [|reflexivity].
    rewrite IH. destruct (runIO host k' w0) as [[[a|e] ops] w1];
      [destruct (runIO host (k a) w1) as [[r ops'] w']|]; reflexivity.
  - destruct (readFile host name encoding w) as [[s|e] w0]; [|reflexivity].
    rewrite IH. destruct (runIO host (k' s) w0) as [[[a|e] ops] w1];
      [destruct (runIO host (k a) w1) as [[r ops'] w']|]; reflexivity.
  - destruct (pullRequestsGet host user repo number w) as [[s|e] w0];
      [|reflexivity].
    rewrite IH. destruct (runIO host (k' s) w0) as [[[a|e] ops] w1];
      [destruct (runIO host (k a) w1) as [[r ops'] w']|]; reflexivity.
  - destruct (execFileCurl host args w) as [[s|e] w0]; [|reflexivity].
    rewrite IH. destruct (runIO host (k' s) w0) as [[[a|e] ops] w1];
      [destruct (runIO host (k a) w1) as [[r ops'] w']|]; reflexivity.
Qed.

Lemma runIO_ofResult (A : Type) (r : result A) (w : W) :
  runIO host (ofResult r) w = (r, [], w).
Proof. destruct r; reflexivity. Qed.

(** A file of the cache that is there is read, and nothing else is done. *)
Lemma cacheGet_hit (dirname cacheKey : string) (getFn : IO string) (w : W) :
  existsSync host (dirname ++ "/cache/") w = true ->
  existsSync host ((dirname ++ "/cache/") ++ cacheKey) w = true ->
  runIO host (cacheGet true dirname cacheKey getFn) w
  = let '(r, w') :=
      readFile host ((dirname ++ "/cache/") ++ cacheKey) "utf8" w in
    (r,
     [OpExistsSync (dirname ++ "/cache/");
      OpExistsSync ((dirname ++ "/cache/") ++ cacheKey);
      OpReadFile ((dirname ++ "/cache/") ++ cacheKey) "utf8"],
     w').
Proof.
  intros Hdir Hfile. unfold cacheGet, readFileAsync. cbn [negb runIO].
  rewrite Hdir. cbn [negb runIO]. rewrite Hfile. cbn [negb runIO].
  destruct (readFile host _ "utf8" w) as [[data|e] w']; reflexivity.
Qed.
End HostFacts.

(** X19. On an address [<base>/<owner>/<repo>] the entry point, with the
    cache off, asks the platform once, for the diff of the pull request
    of that owner, repository and number, touches no file, and returns what
    the parser, the selection and the lookup make of the text received; a
    failure of the request is its failure.  With the cache on, a number that
    is a safe integer and the file of the key there, it asks the platform
    nothing: it reads the file and goes on from its text. *)
Theorem checkRepoPathIO_requests
        (W : Type) (host : Host W) (w : W)
        (largeNumberToString : Z -> string)
        (engine : ArraySort) (minimatch : string -> string -> bool)
        (Entry : Type) (entry_path : Entry -> string) (pathInfo : list Entry)
        (dirname base owner repo : string) (id : Z)
        (repoConfig : RepoConfig) :
  noSlash owner = true -> noSlash repo = true ->
  let repoURL := (base ++ "/" ++ owner ++ "/" ++ repo)%string in
  let cacheDir := (dirname ++ "/cache/")%string in
  let file :=
    (cacheDir ++ cacheKeyOf repoURL ++ "-pull-" ++ decimalText id
              ++ ".diff")%string in
  runIO host
        (checkRepoPathIO false dirname largeNumberToString engine minimatch
                         entry_path pathInfo repoURL id repoConfig) w
  = (let '(r, w') := pullRequestsGet host (Some owner) (Some repo) id w in
     (diff <- r ;;
      checkRepoPath engine minimatch entry_path pathInfo diff repoConfig,
      [OpPullRequestsGet (Some owner) (Some repo) id], w'))
  /\ (isSafeInteger id = true ->
      existsSync host cacheDir w = true ->
      existsSync host file w = true ->
      runIO host
            (checkRepoPathIO true dirname largeNumberToString engine minimatch
                             entry_path pathInfo repoURL id repoConfig) w
      = (let '(r, w') := readFile host file "utf8" w in
         (diff <- r ;;
          checkRepoPath engine minimatch entry_path pathInfo diff repoConfig,
          [OpExistsSync cacheDir; OpExistsSync file; OpReadFile file "utf8"],
          w'))).
Proof.
  intros Ho Hr repoURL cacheDir file. unfold checkRepoPathIO.
  subst repoURL. rewrite ownerAndRepoOf_parts by assumption.
  cbn [nth_error]. split.
  - rewrite runIO_bindIO. unfold cacheGet, getDiffForPullRequest.
    cbn [negb runIO].
    destruct (pullRequestsGet host (Some owner) (Some repo) id w)
      as [[diff|e] w']; [|reflexivity].
    cbn [runIO]. rewrite runIO_ofResult. reflexivity.
  - intros Hid Hdir Hfile.
    rewrite pullCacheKey_text by exact Hid. fold file.
    rewrite runIO_bindIO, cacheGet_hit by assumption.
    fold cacheDir. fold file.
    destruct (readFile host file "utf8" w) as [[diff|e] w']; [|reflexivity].
    rewrite runIO_ofResult. reflexivity.
Qed.

Lemma checkRepoPathIO_requests_witness :
  runIO (memHost (Ok exampleDiff))
        (checkRepoPathIO false "/bot" (fun _ => "Infinity"%string)
                         insertionEngine exactMatch fst examplePathInfo
                         ("https://github.com" ++ "/" ++ "o" ++ "/" ++ "r")
                         7 (mkRepoConfig [] 5))
        []
  = (Ok (EntryOf ("", "everyone")),
     [OpPullRequestsGet (Some "o") (Some "r") 7], [])
  /\ runIO (memHost (Throw (Error "offline")))
           (checkRepoPathIO true "/bot" (fun _ => "Infinity"%string)
                            insertionEngine exactMatch fst examplePathInfo
                            ("https://github.com" ++ "/" ++ "o" ++ "/" ++ "r")
                            7 (mkRepoConfig [] 5))
           [("/bot/cache/https---github.com-o-r-pull-7.diff", exampleDiff)]
     = (Ok (EntryOf ("", "everyone")),
        [OpExistsSync "/bot/cache/";
         OpExistsSync "/bot/cache/https---github.com-o-r-pull-7.diff";
         OpReadFile "/bot/cache/https---github.com-o-r-pull-7.diff" "utf8"],
        [("/bot/cache/https---github.com-o-r-pull-7.diff", exampleDiff)]).
Proof.
  split.
  - apply (proj1 (@checkRepoPathIO_requests
                    _ (memHost (Ok exampleDiff)) []
                    (fun _ => "Infinity"%string)
                    insertionEngine exactMatch _ fst examplePathInfo
                    "/bot" "https://github.com" "o" "r" 7 (mkRepoConfig [] 5)
                    eq_refl eq_refl)).
  - apply (proj2 (@checkRepoPathIO_requests
                    _ (memHost (Throw (Error "offline")))
                    [("/bot/cache/https---github.com-o-r-pull-7.diff",
                      exampleDiff)]
                    (fun _ => "Infinity"%string)
                    insertionEngine exactMatch _ fst examplePathInfo
                    "/bot" "https://github.com" "o" "r" 7 (mkRepoConfig [] 5)
                    eq_refl eq_refl));
      reflexivity.
Defined.

(** ** The cache *)

(** X20. With the cache on, its directory there and the file of the key
    not there, [cacheGet] calls [getFn] once; when [getFn] fails, so does
    [cacheGet], with the same exception, and nothing is written or read;
    when [getFn] returns, what it returned is written to the file of the
    key, and the result is what is then read from that file. *)
Theorem cacheGet_miss
        (W : Type) (host : Host W) (dirname cacheKey : string)
        (getFn : IO string) (w : W) :
  let cacheDir := (dirname ++ "/cache/")%string in
  let file := (cacheDir ++ cacheKey)%string in
  existsSync host cacheDir w = true ->
  existsSync host file w = false ->
  runIO host (cacheGet true dirname cacheKey getFn) w
  = match runIO host getFn w with
    | (Throw e, ops, w1) =>
        (Throw e, OpExistsSync cacheDir :: OpExistsSync file :: ops, w1)
    | (Ok contents, ops, w1) =>
        match writeFileSync host file contents w1 with
        | (Throw e, w2) =>
            (Throw e,
             OpExistsSync cacheDir :: OpExistsSync file
             :: ops ++ [OpWriteFileSync file contents],
             w2)
        | (Ok _, w2) =>
            let '(r, w3) := readFile host file "utf8" w2 in
            (r,
             OpExistsSync cacheDir :: OpExistsSync file
             :: ops ++ [OpWriteFileSync file contents;
                        OpReadFile file "utf8"],
             w3)
        end
    end.
Proof.
  intros cacheDir file Hdir Hfile. unfold cacheGet, readFileAsync.
  cbn [negb runIO]. fold cacheDir. rewrite Hdir. cbn [negb runIO].
  fold file. rewrite Hfile. cbn [negb]. rewrite runIO_bindIO.
  destruct (runIO host getFn w) as [[[contents|e] ops] w1]; [|reflexivity].
  cbn [runIO].
  destruct (writeFileSync host file contents w1) as [[[]|e] w2];
    [|reflexivity].
  destruct (readFile host file "utf8" w2) as [[data|e] w3]; reflexivity.
Qed.

Lemma cacheGet_miss_witness :
  runIO (memHost (Throw (Error "offline")))
        (cacheGet true "/bot" "k"
                  (getDiffForPullRequest (Some "o") (Some "r") 7))
        [("/bot/cache/other", "x")]
  = (Throw (Error "offline"),
     [OpExistsSync "/bot/cache/"; OpExistsSync "/bot/cache/k";
      OpPullRequestsGet (Some "o") (Some "r") 7],
     [("/bot/cache/other", "x")]).
Proof.
  apply (@cacheGet_miss _ (memHost (Throw (Error "offline"))) "/bot" "k"
                        (getDiffForPullRequest (Some "o") (Some "r") 7)
                        [("/bot/cache/other", "x")]);
    reflexivity.
Defined.

Section CacheTwice.
Variable W : Type.
Variable host : Host W.
Variable dirname : string.

(** [stored path data w]: in the state [w] the file at [path] holds
    [data]. *)
Variable stored : string -> string -> W -> Prop.

(** What is read from a file is what it holds, and reading leaves it
    there; a file that holds something is there, with the directory of the
    cache when it is in it. *)
Hypothesis read_stored :
  forall path data w w',
    readFile host path "utf8" w = (Ok data, w') -> stored path data w'.
Hypothesis stored_read :
  forall path data w,
    stored path data w ->
    existsSync host path w = true
    /\ exists w', readFile host path "utf8" w = (Ok data, w')
                  /\ stored path data w'.
Hypothesis stored_in_cache :
  forall cacheKey data w,
    stored ((dirname ++ "/cache/") ++ cacheKey) data w ->
    existsSync host (dirname ++ "/cache/") w = true.

Lemma cacheGet_returns_stored (cacheKey : string) (getFn : IO string)
      (w w1 : W) (data : string) (ops : list Op) :
  runIO host (cacheGet true dirname cacheKey getFn) w = (Ok data, ops, w1) ->
  stored ((dirname ++ "/cache/") ++ cacheKey) data w1.
Proof.
  unfold cacheGet, readFileAsync. cbv zeta. cbn [negb].
  set (cacheDir := (dirname ++ "/cache/")%string).
  set (file := (cacheDir ++ cacheKey)%string).
  set (readIO := ReadFile file "utf8" Fulfil).
  set (restIO := ExistsSync file _).
  assert (Hread : forall w0 ops0,
             runIO host readIO w0 = (Ok data, ops0, w1) ->
             stored file data w1).
  { intros w0 ops0. subst readIO. cbn [runIO].
    destruct (readFile host file "utf8" w0) as [[d|e] w'] eqn:Hr;
      [|discriminate].
    intros H. injection H as <- _ <-. eapply read_stored. exact Hr. }
  assert (Hrest : forall w0 ops0,
             runIO host restIO w0 = (Ok data, ops0, w1) ->
             stored file data w1).
  { intros w0 ops0. subst restIO. cbn [runIO].
    destruct (existsSync host file w0); cbn [negb].
    - destruct (runIO host readIO w0) as [[r ops'] w'] eqn:Hr.
      intros H. injection H as -> _ ->. eapply Hread. exact Hr.
    - rewrite runIO_bindIO.
      destruct (runIO host getFn w0) as [[[contents|e] ops'] w'];
        [|discriminate].
      cbn [runIO].
      destruct (writeFileSync host file contents w') as [[[]|e] w2];
        [|discriminate].
      destruct (runIO host readIO w2) as [[r ops''] w''] eqn:Hr.
      intros H. injection H as -> _ ->. eapply Hread. exact Hr. }
  cbn [runIO]. destruct (existsSync host cacheDir w); cbn [negb].
  - destruct (runIO host restIO w) as [[r ops'] w'] eqn:Hr.
    intros H. injection H as -> _ ->. eapply Hrest. exact Hr.
  - cbn [runIO]. destruct (mkdir host cacheDir w) as [[[]|e] w0];
      [|discriminate].
    destruct (runIO host restIO w0) as [[r ops'] w'] eqn:Hr.
    intros H. injection H as -> _ ->. eapply Hrest. exact Hr.
Qed.

(** X21. On a file system where what is read from a file is what it holds,
    a call of [cacheGet] that has returned a text has left this text in the
    file of the key, and the next call with that key, whatever its [getFn],
    returns the same text and does not call [getFn]: it asks whether the
    directory and the file are there and reads the file. *)
Theorem cacheGet_at_most_once (cacheKey : string) (getFn getFn' : IO string)
        (w w1 : W) (data : string) (ops : list Op) :
  runIO host (cacheGet true dirname cacheKey getFn) w = (Ok data, ops, w1) ->
  exists w2,
    runIO host (cacheGet true dirname cacheKey getFn') w1
    = (Ok data,
       [OpExistsSync (dirname ++ "/cache/");
        OpExistsSync ((dirname ++ "/cache/") ++ cacheKey);
        OpReadFile ((dirname ++ "/cache/") ++ cacheKey) "utf8"],
       w2)
    /\ stored ((dirname ++ "/cache/") ++ cacheKey) data w2.
Proof.
  intros Hrun. apply cacheGet_returns_stored in Hrun as Hstored.
  destruct (stored_read Hstored) as (Hfile & w2 & Hread & Hstored2).
  exists w2. split; [|exact Hstored2].
  rewrite cacheGet_hit; [|eapply stored_in_cache; exact Hstored | exact Hfile].
  now rewrite Hread.
Qed.
End CacheTwice.

Lemma lookupFile_there (path data : string) (files : list (string * string)) :
  lookupFile path files = Some data ->
  exists entry, In entry files /\ fst entry = path.
Proof.
  unfold lookupFile.
  destruct (find _ files) as [entry|] eqn:Hf; [|discriminate].
  intros _. apply find_some in Hf as [Hin Heq].
  apply String.eqb_eq in Heq. eauto.
Qed.

Lemma memHost_read_stored (answer : result string) (path data : string)
      (w w' : list (string * string)) :
  readFile (memHost answer) path "utf8" w = (Ok data, w') ->
  lookupFile path w' = Some data.
Proof.
  cbn. destruct (lookupFile path w) as [d|] eqn:Hl; [|discriminate].
  intros H. injection H as <- <-. exact Hl.
Qed.

Lemma memHost_stored_read (answer : result string) (path data : string)
      (w : list (string * string)) :
  lookupFile path w = Some data ->
  existsSync (memHost answer) path w = true
  /\ exists w', readFile (memHost answer) path "utf8" w = (Ok data, w')
                /\ lookupFile path w' = Some data.
Proof.
  intros Hl. split.
  - cbn. apply existsb_exists.
    destruct (lookupFile_there _ _ Hl) as (entry & Hin & Heq).
    exists entry. split; [exact Hin|]. rewrite Heq.
    rewrite <- (append_empty path) at 1. apply startsWith_app.
  - exists w. cbn. now rewrite Hl.
Qed.

Lemma memHost_stored_in_cache (answer : result string)
      (dirname cacheKey data : string) (w : list (string * string)) :
  lookupFile ((dirname ++ "/cache/") ++ cacheKey) w = Some data ->
  existsSync (memHost answer) (dirname ++ "/cache/") w = true.
Proof.
  intros Hl. cbn. apply existsb_exists.
  destruct (lookupFile_there _ _ Hl) as (entry & Hin & Heq).
  exists entry. split; [exact Hin|]. rewrite Heq. apply startsWith_app.
Qed.

Lemma cacheGet_at_most_once_witness :
  exists w2,
    runIO (memHost (Ok exampleDiff))
          (cacheGet true "/bot" "k" (Reject (Error "not called")))
          [("/bot/cache/k", exampleDiff)]
    = (Ok exampleDiff,
       [OpExistsSync "/bot/cache/"; OpExistsSync "/bot/cache/k";
        OpReadFile "/bot/cache/k" "utf8"],
       w2)
    /\ lookupFile "/bot/cache/k" w2 = Some exampleDiff.
Proof.
  apply (@cacheGet_at_most_once
           _ (memHost (Ok exampleDiff)) "/bot"
           (fun path data w => lookupFile path w = Some data)
           (@memHost_read_stored (Ok exampleDiff))
           (@memHost_stored_read (Ok exampleDiff))
           (@memHost_stored_in_cache (Ok exampleDiff) "/bot")
           "k" (getDiffForPullRequest (Some "o") (Some "r") 7)
           (Reject (Error "not called")) []
           [("/bot/cache/k", exampleDiff)] exampleDiff
           [OpExistsSync "/bot/cache/"; OpMkdir "/bot/cache/";
            OpExistsSync "/bot/cache/k";
            OpPullRequestsGet (Some "o") (Some "r") 7;
            OpWriteFileSync "/bot/cache/k" exampleDiff;
            OpReadFile "/bot/cache/k" "utf8"]).
  reflexivity.
Defined.

(** X22. [fetch], with the cache off, runs [curl] once, with [--silent],
    [-L] and the address, and with the cookie header when the cookies are
    not empty, and touches no file.  With the cache on and the file of the
    key of the address there, it runs nothing: it reads the file. *)
Theorem fetch_requests
        (W : Type) (host : Host W) (w : W) (dirname url : string)
        (githubAuthCookies : option string) :
  let args :=
    match githubAuthCookies with
    | Some (String c cookies) =>
        ["--silent"; "-L"; url; "-H";
         ("Cookie: " ++ String c cookies)%string]
    | _ => ["--silent"; "-L"; url]
    end in
  let cacheDir := (dirname ++ "/cache/")%string in
  let file := (cacheDir ++ cacheKeyOf url)%string in
  runIO host (fetch false dirname githubAuthCookies url) w
  = (let '(r, w') := execFileCurl host args w in
     (r, [OpExecFileCurl args], w'))
  /\ (existsSync host cacheDir w = true ->
      existsSync host file w = true ->
      runIO host (fetch true dirname githubAuthCookies url) w
      = (let '(r, w') := readFile host file "utf8" w in
         (r,
          [OpExistsSync cacheDir; OpExistsSync file; OpReadFile file "utf8"],
          w'))).
Proof.
  cbv zeta. split.
  - unfold fetch, cacheGet, downloadFileAsync. cbn [negb].
    destruct githubAuthCookies as [[|c cookies]|]; cbn [String.eqb app runIO];
      destruct (execFileCurl host _ w) as [[data|e] w']; reflexivity.
  - intros Hdir Hfile. unfold fetch. now apply cacheGet_hit.
Qed.

Lemma fetch_requests_witness :
  runIO (memHost (Ok "page"))
        (fetch true "/bot" (Some "s=1") "https://github.com/o/r")
        [("/bot/cache/https---github.com-o-r", "cached")]
  = (Ok "cached",
     [OpExistsSync "/bot/cache/";
      OpExistsSync "/bot/cache/https---github.com-o-r";
      OpReadFile "/bot/cache/https---github.com-o-r" "utf8"],
     [("/bot/cache/https---github.com-o-r", "cached")]).
Proof.
  apply (proj2 (@fetch_requests
                  _ (memHost (Ok "page"))
                  [("/bot/cache/https---github.com-o-r", "cached")]
                  "/bot" "https://github.com/o/r" (Some "s=1")));
    reflexivity.
Defined.

(** ** Blocks that the parser does not know *)

Lemma blockStart_step (lines block rest : list string) (file : FileInfo) :
  blockStart lines block -> block <> [] ->
  parseDiffFile block = Ok (file, rest) -> blockStart lines rest.
Proof.
  intros Hb Hne Hp.
  induction Hb as [lines | lines rest' block file' Hne' Hp' Hb IH].
  - eapply blockStart_later; [exact Hne | exact Hp | apply blockStart_here].
  - eapply blockStart_later; [exact Hne' | exact Hp' | now apply IH].
Qed.

(** X23. A block whose line after the index line is none that the parser
    knows (it is not empty and starts with none of [diff --git],
    [Binary files] and [--- ]) yields its record with no deleted line and
    uses up that one line only, whatever follows.  So, wherever in a diff
    the parser comes to such a block, when the line that follows does not
    start with [diff --git a/], as in a block that renames a file, the
    parser takes it for the header of a block, and the whole call throws
    the [Invalid line] error with that line. *)
Theorem parseDiff_unknown_body
        (header other : string) (pre rest : list string) :
  startsWith header "diff --git a/" = true -> headerLines pre ->
  other <> ""%string ->
  startsWith other "diff --git" = false ->
  startsWith other "Binary files" = false ->
  startsWith other "--- " = false ->
  parseDiffFile (header :: pre ++ other :: rest)
  = Ok (mkFileInfo (fromFileOf header) [], rest)
  /\ (forall diff next rest',
         rest = next :: rest' ->
         startsWith diff "diff" = true ->
         blockStart (linesOf diff) (header :: pre ++ other :: rest) ->
         startsWith next "diff --git a/" = false ->
         parseDiff diff = Throw (Error (invalidDiffGit next))).
Proof.
  intros Hh Hpre Hne H1 H2 H3.
  assert (Hblock : parseDiffFile (header :: pre ++ other :: rest)
                   = Ok (mkFileInfo (fromFileOf header) [], rest)).
  { rewrite parseDiffFile_header by assumption.
    unfold parseBody. cbn [pop]. rewrite H1, H2, H3.
    destruct other; [congruence | reflexivity]. }
  split; [exact Hblock|].
  intros diff next rest' -> Hdiff Hstart Hnext.
  apply parseDiff_parseLoop. right. split; [exact Hdiff|].
  apply parseLoop_throws. exists (next :: rest'). repeat apply conj.
  - eapply blockStart_step; [exact Hstart | discriminate | exact Hblock].
  - discriminate.
  - unfold parseDiffFile, re_diff_git_a. cbn [pop].
    now rewrite test_lit, Hnext.
Qed.

Lemma parseDiff_unknown_body_witness :
  parseDiffFile ["diff --git a/old.js b/new.js"; "similarity index 100%";
                 "rename from old.js"; "rename to new.js"]
  = Ok (mkFileInfo "old.js" [], ["rename to new.js"])
  /\ parseDiff (join nl ["diff --git a/x.png b/x.png";
                         "index 83db48f..bf269c4 100644";
                         "Binary files a/x.png and b/x.png differ";
                         "diff --git a/old.js b/new.js";
                         "similarity index 100%";
                         "rename from old.js";
                         "rename to new.js"])
     = Throw (Error (invalidDiffGit "rename to new.js")).
Proof.
  destruct (@parseDiff_unknown_body
              "diff --git a/old.js b/new.js" "rename from old.js"
              ["similarity index 100%"] ["rename to new.js"]
              eq_refl (index_only "similarity index 100%" eq_refl)
              ltac:(discriminate) eq_refl eq_refl eq_refl)
    as [Hblock Hthrow].
  split; [exact Hblock|].
  apply (Hthrow _ "rename to new.js" [] eq_refl);
    [vm_compute; reflexivity | | reflexivity].
  apply (@blockStart_later
           _ ["diff --git a/old.js b/new.js"; "similarity index 100%";
              "rename from old.js"; "rename to new.js"]
           _ (mkFileInfo "x.png" [])).
  - vm_compute. discriminate.
  - vm_compute. reflexivity.
  - apply blockStart_here.
Defined.

(** X24. A text that ends in the middle of a block makes the call throw a
    [TypeError], not the error of the parser: when the last block that the
    parser comes to is its [diff --git a/] line alone, or ends on the
    [--- ] line that follows its index line. *)
Theorem parseDiff_cut_short
        (diff header minus : string) (pre : list string) :
  startsWith diff "diff" = true ->
  startsWith header "diff --git a/" = true ->
  startsWith minus "--- " = true ->
  headerLines pre ->
  (blockStart (linesOf diff) [header] -> parseDiff diff = Throw TypeError)
  /\ (blockStart (linesOf diff) (header :: pre ++ [minus]) ->
      parseDiff diff = Throw TypeError).
Proof.
  intros Hdiff Hh Hm Hpre.
  destruct (truncated_block_throws header minus Hh Hm) as [Hone Htwo].
  split; intros Hstart; apply parseDiff_parseLoop; right;
    (split; [exact Hdiff|]); apply parseLoop_throws.
  - exists [header]. repeat split; [exact Hstart | discriminate | exact Hone].
  - exists (header :: pre ++ [minus]).
    repeat split; [exact Hstart | discriminate | now apply Htwo].
Qed.

Lemma parseDiff_cut_short_witness :
  parseDiff (binaryDiff ++ nl ++ "diff --git a/f b/f") = Throw TypeError
  /\ parseDiff (join nl ["diff --git a/f b/f"; "index 1..2"; "--- a/f"])
     = Throw TypeError.
Proof.
  split.
  - apply (proj1 (@parseDiff_cut_short
                    (binaryDiff ++ nl ++ "diff --git a/f b/f")
                    "diff --git a/f b/f" "--- a/f" ["index 1..2"]
                    eq_refl eq_refl eq_refl
                    (index_only "index 1..2" eq_refl))).
    apply (@blockStart_later _ ["diff --git a/f b/f"] _
                             (mkFileInfo "x.png" [])).
    + vm_compute. discriminate.
    + vm_compute. reflexivity.
    + apply blockStart_here.
  - apply (proj2 (@parseDiff_cut_short
                    (join nl ["diff --git a/f b/f"; "index 1..2"; "--- a/f"])
                    "diff --git a/f b/f" "--- a/f" ["index 1..2"]
                    eq_refl eq_refl eq_refl
                    (index_only "index 1..2" eq_refl))).
    apply blockStart_here.
Defined.
